(** * Meeting manager: transcription core

    A shallow embedding of the transcription core of the meeting manager
    backend (TypeScript, NestJS) and the proofs of its specified properties:

    - [backend/src/transcription/batch-diarization.service.ts]
      (speaker reassignment, merging, persistence of the merged transcript);
    - [backend/src/transcription/google-speech.service.ts] and the Deepgram
      service (result normalisation, stream restart);
    - [backend/src/utils/name-extractor.ts] (name extraction, validation).

    JavaScript numbers are IEEE 754 binary64 values and are modelled by Rocq's
    primitive floats; integral numbers that the code only counts, compares or
    uses as keys (speaker tags, word counts, millisecond clocks) are modelled
    by [Z].  Strings are modelled by [string], one character per UTF-16 code
    unit below 256, with case conversion on the ASCII letters. *)

From Stdlib Require Import ZArith List String Ascii Bool Lia Floats Uint63 DecimalString.
From Stdlib Require Import Sorted Permutation.
From Stdlib Require Strings.Byte.
Import ListNotations.

Set Warnings "-inexact-float".
Set Implicit Arguments.

Local Open Scope string_scope.
Local Open Scope list_scope.
Local Open Scope Z_scope.

(* ================================================================== *)
(** * JavaScript values the code relies on *)
(* ================================================================== *)

Module JS.

Definition number := float.

(** [Math.min(x, y)]: NaN if either argument is NaN, [-0] below [+0]. *)
Definition Math_min (x y : number) : number :=
  if (PrimFloat.is_nan x || PrimFloat.is_nan y)%bool then PrimFloat.nan
  else if (x <? y)%float then x
  else if (y <? x)%float then y
  else if PrimFloat.get_sign x then x else y.

(** [x === 0] on numbers. *)
Definition is_zero_number (x : number) : bool := (x =? 0)%float.

(** [x || d] on numbers: [d] replaces the falsy numbers [0], [-0] and NaN. *)
Definition or_number (x d : number) : number :=
  if (is_zero_number x || PrimFloat.is_nan x)%bool then d else x.

(** [x || d] on integral numbers. *)
Definition or_Z (x d : Z) : Z := if x =? 0 then d else x.

(** A [Map]: keys are kept in insertion order, [set] on a present key
    replaces the value in place. *)
Section JsMap.
Variables (K V : Type) (eqb : K -> K -> bool).

Definition Map := list (K * V).

Fixpoint Map_get (m : Map) (k : K) : option V :=
  match m with
  | [] => None
  | (k', v) :: m' => if eqb k' k then Some v else Map_get m' k
  end.

Fixpoint Map_set (m : Map) (k : K) (v : V) : Map :=
  match m with
  | [] => [(k, v)]
  | (k', v') :: m' =>
      if eqb k' k then (k', v) :: m' else (k', v') :: Map_set m' k v
  end.

End JsMap.

(** [[...new Set(l)]]: the distinct elements in order of first occurrence. *)
Fixpoint Set_spread (seen l : list string) : list string :=
  match l with
  | [] => []
  | x :: l' =>
      if existsb (String.eqb x) seen then Set_spread seen l'
      else x :: Set_spread (x :: seen) l'
  end.

(** [Array.prototype.sort()] without comparator on an array of strings:
    ascending order of code units.  The array holds distinct strings where
    the code calls it, so the result does not depend on the algorithm. *)
Fixpoint sort_insert (x : string) (l : list string) : list string :=
  match l with
  | [] => [x]
  | y :: l' => if (x <=? y)%string then x :: y :: l' else y :: sort_insert x l'
  end.

Fixpoint Array_sort (l : list string) : list string :=
  match l with
  | [] => []
  | x :: l' => sort_insert x (Array_sort l')
  end.

(** The order of [sort()] on strings, strict and large. *)
Definition string_lt (a b : string) : Prop := (a <? b)%string = true.
Definition string_le (a b : string) : Prop := (a <=? b)%string = true.

(** ** Strings *)

Definition in_range (lo hi c : ascii) : bool :=
  ((nat_of_ascii lo <=? nat_of_ascii c)%nat && (nat_of_ascii c <=? nat_of_ascii hi)%nat)%bool.

Definition is_lower (c : ascii) : bool := in_range "a" "z" c.
Definition is_upper (c : ascii) : bool := in_range "A" "Z" c.
Definition is_letter (c : ascii) : bool := (is_lower c || is_upper c)%bool.
Definition is_digit (c : ascii) : bool := in_range "0" "9" c.

(** The letters of the Latin-1 range: 192 to 222 in upper case, 224 to 254 in
    lower case, but for the multiplication and division signs. *)
Definition is_upper_latin1 (c : ascii) : bool :=
  let n := nat_of_ascii c in
  ((192 <=? n)%nat && (n <=? 222)%nat && negb (n =? 215)%nat)%bool.

Definition is_lower_latin1 (c : ascii) : bool :=
  let n := nat_of_ascii c in
  ((224 <=? n)%nat && (n <=? 254)%nat && negb (n =? 247)%nat)%bool.

(** Case conversion of a code unit below 256: [A-Z] and [a-z], and the
    Latin-1 letters.  Lower case always stays below 256.  Upper case does not
    for three code units, which are left as they are here: 181 and 255,
    whose upper case lies above 255, and 223, whose upper case is [SS]. *)
Definition lower_char (c : ascii) : ascii :=
  if (is_upper c || is_upper_latin1 c)%bool then ascii_of_nat (nat_of_ascii c + 32) else c.

Definition upper_char (c : ascii) : ascii :=
  if (is_lower c || is_lower_latin1 c)%bool then ascii_of_nat (nat_of_ascii c - 32) else c.

Fixpoint map_string (f : ascii -> ascii) (s : string) : string :=
  match s with
  | EmptyString => EmptyString
  | String c s' => String (f c) (map_string f s')
  end.

Definition toLowerCase (s : string) : string := map_string lower_char s.
Definition toUpperCase (s : string) : string := map_string upper_char s.

(** The characters [String.prototype.trim] strips and [\s] matches, among the
    code units below 256: tab, line feed, vertical tab, form feed, carriage
    return, space and no-break space. *)
Definition is_space (c : ascii) : bool :=
  let n := nat_of_ascii c in
  ((9 <=? n)%nat && (n <=? 13)%nat || (n =? 32)%nat || (n =? 160)%nat)%bool.

Fixpoint trimStart (s : string) : string :=
  match s with
  | String c s' => if is_space c then trimStart s' else s
  | EmptyString => EmptyString
  end.

(** Drops the trailing white space: a character stays when it is not white
    space or when something stays after it. *)
Fixpoint trimEnd (s : string) : string :=
  match s with
  | EmptyString => EmptyString
  | String c s' =>
      match trimEnd s' with
      | EmptyString => if is_space c then EmptyString else String c EmptyString
      | r => String c r
      end
  end.

Definition trim (s : string) : string := trimEnd (trimStart s).

(** [String(n)] for an integral number. *)
Definition String_of_Z (n : Z) : string :=
  DecimalString.NilZero.string_of_int (Z.to_int n).

Fixpoint repeat_char (c : ascii) (n : nat) : string :=
  match n with
  | O => EmptyString
  | S n' => String c (repeat_char c n')
  end.

(** [s.padStart(targetLength, c)] for a one-character pad string. *)
Definition padStart (s : string) (targetLength : nat) (c : ascii) : string :=
  (repeat_char c (targetLength - String.length s) ++ s)%string.

End JS.

(* ================================================================== *)
(** * Batch diarization reconciler
      ([batch-diarization.service.ts]) *)
(* ================================================================== *)

Module BatchDiarization.
Import JS.

(** The persisted entity ([transcript-segment.entity.ts]); the generated
    [id] and the timestamps play no role and are left out. *)
Record TranscriptSegment := {
  meetingId : string;
  speakerTag : Z;
  speakerName : option string;
  transcript : string;
  confidence : number;
  startTime : number;
  endTime : number;
  isFinal : bool
}.

Record PyannoteSegment := {
  speaker : string;
  start : number;
  end_ : number
}.

Record DiarizedSegment := {
  d_speakerTag : Z;
  d_speaker : string;
  d_transcript : string;
  d_startTime : number;
  d_endTime : number;
  d_confidence : option number
}.

(** The element type of [mergedSegments]. *)
Record MergedSegment := {
  m_speakerTag : Z;
  m_transcript : string;
  m_startTime : number;
  m_endTime : number;
  m_confidence : number
}.

(** ** [assignSpeakersAndMergeSegments]: the speaker mapping *)

Definition uniqueSpeakers (pyannoteSpeakers : list PyannoteSegment) : list string :=
  Array_sort (Set_spread [] (map speaker pyannoteSpeakers)).

(** [uniqueSpeakers.forEach((speaker, index) => speakerMap.set(speaker, index + 1))] *)
Fixpoint forEach_set (l : list string) (index : nat) (m : Map string Z) : Map string Z :=
  match l with
  | [] => m
  | s :: l' => forEach_set l' (S index) (Map_set String.eqb m s (Z.of_nat index + 1))
  end.

Definition speakerMap (pyannoteSpeakers : list PyannoteSegment) : Map string Z :=
  forEach_set (uniqueSpeakers pyannoteSpeakers) 0%nat [].

(** ** The midpoint rule *)

Definition segmentMid (segment : TranscriptSegment) : number :=
  ((startTime segment + endTime segment) / 2)%float.

Definition contains (ps : PyannoteSegment) (mid : number) : bool :=
  ((start ps <=? mid)%float && (mid <=? end_ ps)%float)%bool.

(** The [for (const ps of pyannoteSpeakers)] loop with its [break]. *)
Fixpoint scan_spans (l : list PyannoteSegment) (mid : number) (assignedSpeaker : string) : string :=
  match l with
  | [] => assignedSpeaker
  | ps :: l' => if contains ps mid then speaker ps else scan_spans l' mid assignedSpeaker
  end.

Definition assignedSpeaker (pyannoteSpeakers : list PyannoteSegment)
  (segment : TranscriptSegment) : string :=
  scan_spans pyannoteSpeakers (segmentMid segment) "SPEAKER_00".

(** [speakerMap.get(assignedSpeaker) || 1] *)
Definition tag_of (m : Map string Z) (label : string) : Z :=
  match Map_get String.eqb m label with
  | Some t => or_Z t 1
  | None => 1
  end.

Definition with_speakerTag (segment : TranscriptSegment) (t : Z) : TranscriptSegment :=
  {| meetingId := meetingId segment; speakerTag := t;
     speakerName := speakerName segment; transcript := transcript segment;
     confidence := confidence segment; startTime := startTime segment;
     endTime := endTime segment; isFinal := isFinal segment |}.

Definition segmentsWithSpeakers (segments : list TranscriptSegment)
  (pyannoteSpeakers : list PyannoteSegment) : list TranscriptSegment :=
  let m := speakerMap pyannoteSpeakers in
  map (fun segment =>
         with_speakerTag segment (tag_of m (assignedSpeaker pyannoteSpeakers segment)))
      segments.

(** ** The merge loop of [assignSpeakersAndMergeSegments] *)

Definition fresh (segment : TranscriptSegment) : MergedSegment :=
  {| m_speakerTag := speakerTag segment; m_transcript := transcript segment;
     m_startTime := startTime segment; m_endTime := endTime segment;
     m_confidence := confidence segment |}.

Definition absorb (current : MergedSegment) (segment : TranscriptSegment) : MergedSegment :=
  {| m_speakerTag := m_speakerTag current;
     m_transcript := (m_transcript current ++ " " ++ transcript segment)%string;
     m_startTime := m_startTime current;
     m_endTime := endTime segment;
     m_confidence := Math_min (m_confidence current) (confidence segment) |}.

(** One iteration: the state is [current] and [mergedSegments]. *)
Definition merge_step (st : option MergedSegment * list MergedSegment)
  (segment : TranscriptSegment) : option MergedSegment * list MergedSegment :=
  match st with
  | (None, merged) => (Some (fresh segment), merged)
  | (Some current, merged) =>
      if speakerTag segment =? m_speakerTag current
      then (Some (absorb current segment), merged)
      else (Some (fresh segment), merged ++ [current])
  end.

Definition merge_loop (segments : list TranscriptSegment)
  : option MergedSegment * list MergedSegment :=
  fold_left merge_step segments (None, []).

Definition mergeSegments (segments : list TranscriptSegment) : list MergedSegment :=
  match merge_loop segments with
  | (Some current, merged) => merged ++ [current]
  | (None, merged) => merged
  end.

(** The list [assignSpeakersAndMergeSegments] writes back. *)
Definition reconcile (segments : list TranscriptSegment)
  (pyannoteSpeakers : list PyannoteSegment) : list MergedSegment :=
  mergeSegments (segmentsWithSpeakers segments pyannoteSpeakers).

(** ** [mergeConsecutiveSpeakerSegments] (whole-file transcription path) *)

Definition d_absorb (current segment : DiarizedSegment) : DiarizedSegment :=
  {| d_speakerTag := d_speakerTag current; d_speaker := d_speaker current;
     d_transcript := (d_transcript current ++ " " ++ d_transcript segment)%string;
     d_startTime := d_startTime current;
     d_endTime := d_endTime segment;
     d_confidence := d_confidence current |}.

Definition d_merge_step (st : DiarizedSegment * list DiarizedSegment)
  (segment : DiarizedSegment) : DiarizedSegment * list DiarizedSegment :=
  let (current, merged) := st in
  if d_speakerTag segment =? d_speakerTag current
  then (d_absorb current segment, merged)
  else (segment, merged ++ [current]).

Definition mergeConsecutiveSpeakerSegments (segments : list DiarizedSegment)
  : list DiarizedSegment :=
  match segments with
  | [] => []
  | first :: rest =>
      let (current, merged) := fold_left d_merge_step rest (first, []) in
      merged ++ [current]
  end.

(** ** The segment store

    [segmentRepository] is the table of persisted segments.  Every call on it
    may be rejected by the database; [faults] lists, for the calls to come and
    in their order, whether the call is rejected ([true]) or carried out.  A
    rejected call leaves the table as it was.  [meetingRepository.update] only
    records the status. *)

Inductive outcome (A : Type) : Type :=
| Resolved (a : A)
| Rejected (message : string).
Arguments Resolved {A} a.
Arguments Rejected {A} message.

Record Db := {
  rows : list TranscriptSegment;
  statuses : Map string string;
  faults : list bool
}.

(** An [async] method: it runs on the store and resolves or rejects. *)
Definition M (A : Type) : Type := Db -> outcome A * Db.

Definition ret {A} (a : A) : M A := fun db => (Resolved a, db).

Definition bind {A B} (c : M A) (k : A -> M B) : M B :=
  fun db =>
    match c db with
    | (Resolved a, db') => k a db'
    | (Rejected e, db') => (Rejected e, db')
    end.

(** [try { body } catch (e) { handler(e) }] *)
Definition try_catch {A} (body : M A) (handler : string -> M A) : M A :=
  fun db =>
    match body db with
    | (Resolved a, db') => (Resolved a, db')
    | (Rejected e, db') => handler e db'
    end.

Notation "x <- c ;; k" := (bind c (fun x => k))
  (at level 61, c at next level, right associativity).
Notation "c ;;; k" := (bind c (fun _ => k))
  (at level 61, right associativity).

Definition segmentRepository_call {A}
  (run : list TranscriptSegment -> A * list TranscriptSegment) : M A :=
  fun db =>
    match faults db with
    | true :: fs =>
        (Rejected "QueryFailedError",
         {| rows := rows db; statuses := statuses db; faults := fs |})
    | fs =>
        let (a, rs) := run (rows db) in
        (Resolved a, {| rows := rs; statuses := statuses db; faults := tl fs |})
    end.

Definition of_meeting (id : string) (s : TranscriptSegment) : bool :=
  String.eqb (meetingId s) id.

(** [order: { startTime: 'ASC' }] *)
Fixpoint insert_by_startTime (s : TranscriptSegment) (l : list TranscriptSegment)
  : list TranscriptSegment :=
  match l with
  | [] => [s]
  | t :: l' =>
      if (startTime t <=? startTime s)%float then t :: insert_by_startTime s l'
      else s :: t :: l'
  end.

Definition order_by_startTime (l : list TranscriptSegment) : list TranscriptSegment :=
  fold_left (fun acc s => insert_by_startTime s acc) l [].

(** [segmentRepository.find({ where: { meetingId }, order: { startTime: 'ASC' } })] *)
Definition find (id : string) : M (list TranscriptSegment) :=
  segmentRepository_call (fun rs => (order_by_startTime (filter (of_meeting id) rs), rs)).

(** [segmentRepository.delete({ meetingId })] *)
Definition delete (id : string) : M unit :=
  segmentRepository_call (fun rs => (tt, filter (fun s => negb (of_meeting id s)) rs)).

(** [segmentRepository.save(newSegment)] for a segment with a fresh id. *)
Definition save (s : TranscriptSegment) : M unit :=
  segmentRepository_call (fun rs => (tt, rs ++ [s])).

(** [updateMeetingStatus] *)
Definition updateMeetingStatus (id status : string) : M unit :=
  fun db =>
    (Resolved tt,
     {| rows := rows db; statuses := Map_set String.eqb (statuses db) id status;
        faults := faults db |}).

(** The entity [assignSpeakersAndMergeSegments] creates for a merged segment. *)
Definition create (id : string) (segment : MergedSegment) : TranscriptSegment :=
  {| meetingId := id; speakerTag := m_speakerTag segment; speakerName := None;
     transcript := m_transcript segment; confidence := m_confidence segment;
     startTime := m_startTime segment; endTime := m_endTime segment;
     isFinal := true |}.

(** [for (const segment of ...) { await this.segmentRepository.save(...) }] *)
Fixpoint save_all (l : list TranscriptSegment) : M unit :=
  match l with
  | [] => ret tt
  | s :: l' => save s ;;; save_all l'
  end.

Definition assignSpeakersAndMergeSegments (id : string)
  (segments : list TranscriptSegment) (pyannoteSpeakers : list PyannoteSegment) : M unit :=
  let mergedSegments := reconcile segments pyannoteSpeakers in
  delete id ;;;
  save_all (map (create id) mergedSegments).

(** The entity [updateTranscriptSegments] creates: the name comes from the
    enrolment mappings and a missing confidence becomes [1.0]. *)
Definition d_create (id : string) (speakerMappings : Map Z string)
  (segment : DiarizedSegment) : TranscriptSegment :=
  {| meetingId := id; speakerTag := d_speakerTag segment;
     speakerName := Map_get Z.eqb speakerMappings (d_speakerTag segment);
     transcript := d_transcript segment;
     confidence := match d_confidence segment with Some c => c | None => 1%float end;
     startTime := d_startTime segment; endTime := d_endTime segment;
     isFinal := true |}.

Definition updateTranscriptSegments (id : string) (segments : list DiarizedSegment)
  (speakerMappings : Map Z string) : M unit :=
  let mergedSegments := mergeConsecutiveSpeakerSegments segments in
  delete id ;;;
  save_all (map (d_create id speakerMappings) mergedSegments).

(** ** [processAudioFile]

    What the collaborators answer during one run: whether the diarization
    service is configured, whether the recording is (or converts to) a WAV
    file, the answer of the diarization service, whether the speech service is
    configured, the segments of the whole-file transcription and the enrolment
    mappings.  Summarization reads the segments and writes summaries and
    tasks only; its failure is caught, so it does not appear. *)

(** A segment as [transcribeFile] returns it. *)
Record TranscribedSegment := {
  t_transcript : string;
  t_speakerTag : Z;
  t_startTime : number;
  t_endTime : number;
  t_confidence : number
}.

Record Env := {
  isDiarizationAvailable : bool;
  convertToWav : outcome unit;
  callPyannoteDiarization : outcome (list PyannoteSegment);
  isAvailable : bool;
  transcribeFile : outcome (list TranscribedSegment);
  getSpeakerMappings : Map Z string
}.

Definition lift {A} (o : outcome A) : M A := fun db => (o, db).

Definition toDiarizedSegment (seg : TranscribedSegment) : DiarizedSegment :=
  {| d_speakerTag := t_speakerTag seg;
     d_speaker := ("SPEAKER_" ++ padStart (String_of_Z (t_speakerTag seg)) 2 "0")%string;
     d_transcript := trim (t_transcript seg);
     d_startTime := t_startTime seg;
     d_endTime := t_endTime seg;
     d_confidence := Some (t_confidence seg) |}.

Definition processAudioFile (env : Env) (id : string) : M unit :=
  try_catch
    (existingSegments <- find id ;;
     match existingSegments with
     | _ :: _ =>
         (if isDiarizationAvailable env then
            lift (convertToWav env) ;;;
            try_catch
              (diarizationResult <- lift (callPyannoteDiarization env) ;;
               assignSpeakersAndMergeSegments id existingSegments diarizationResult)
              (fun _ => ret tt)
          else ret tt) ;;;
         updateMeetingStatus id "completed"
     | [] =>
         if negb (isAvailable env) then updateMeetingStatus id "completed"
         else
           lift (convertToWav env) ;;;
           transcription <- lift (transcribeFile env) ;;
           let diarizedSegments := map toDiarizedSegment transcription in
           match diarizedSegments with
           | [] => updateMeetingStatus id "completed"
           | _ =>
               updateTranscriptSegments id diarizedSegments (getSpeakerMappings env) ;;;
               updateMeetingStatus id "completed"
           end
     end)
    (fun _ => updateMeetingStatus id "failed").

(** ** Notions the properties are stated with *)

(** What the merge makes of a block [h :: t] of consecutive segments. *)
Definition fuse (h : TranscriptSegment) (t : list TranscriptSegment) : MergedSegment :=
  fold_left absorb t (fresh h).

(** [fuses block m]: [m] is the fusion of the non-empty block, whose segments
    all carry one tag. *)
Inductive fuses : list TranscriptSegment -> MergedSegment -> Prop :=
| fuses_block h t :
    Forall (fun s => speakerTag s = speakerTag h) t -> fuses (h :: t) (fuse h t).

(** No two adjacent tags are equal. *)
Fixpoint adjacent_distinct (tags : list Z) : Prop :=
  match tags with
  | a :: (b :: _) as tags' => a <> b /\ adjacent_distinct tags'
  | _ => True
  end.

(** [Math.min] over the confidences of a block. *)
Definition min_confidence (h : TranscriptSegment) (t : list TranscriptSegment) : number :=
  fold_left (fun c s => Math_min c (confidence s)) t (confidence h).

(** How many of [n] successive calls are carried out before the first
    rejected one, for the given outcomes of the calls to come. *)
Fixpoint carried_out (fs : list bool) (n : nat) : nat :=
  match n with
  | O => O
  | S n' =>
      match fs with
      | true :: _ => O
      | _ => S (carried_out (tl fs) n')
      end
  end.

(** The segment belongs to another meeting. *)
Definition other_meeting (id : string) (s : TranscriptSegment) : bool :=
  negb (of_meeting id s).

(** Sample data: a persisted live segment of meeting ["m"]. *)
Definition live (tag : Z) (text : string) (c s e : number) : TranscriptSegment :=
  {| meetingId := "m"; speakerTag := tag; speakerName := None; transcript := text;
     confidence := c; startTime := s; endTime := e; isFinal := true |}.
Arguments live tag text (c s e)%_float.

(** A diarization span. *)
Definition span (label : string) (s e : number) : PyannoteSegment :=
  {| speaker := label; start := s; end_ := e |}.
Arguments span label (s e)%_float.

(** A segment of [transcribeFile] for a result without word-level timing:
    speaker 1, no times. *)
Definition transcribed (text : string) (c : number) : TranscribedSegment :=
  {| t_transcript := text; t_speakerTag := 1; t_startTime := 0%float;
     t_endTime := 0%float; t_confidence := c |}.
Arguments transcribed text c%_float.

(** The state of the merge loop after a prefix [p] of the segments. *)
Definition merge_inv (p : list TranscriptSegment)
  (st : option MergedSegment * list MergedSegment) : Prop :=
  match st with
  | (None, merged) => p = [] /\ merged = []
  | (Some current, merged) =>
      exists blocks block,
        p = List.concat blocks ++ block /\
        Forall2 fuses blocks merged /\
        fuses block current /\
        adjacent_distinct (map m_speakerTag (merged ++ [current]))
  end.

End BatchDiarization.

(* ================================================================== *)
(** * Result normalizers
      ([google-speech.service.ts], [deepgram.service.ts]) *)
(* ================================================================== *)

Module Normalizer.
Import JS.

(** An integral number as a JavaScript number (exact below [2^53]). *)
Definition number_of_Z (z : Z) : number :=
  match z with
  | Z0 => 0%float
  | Zpos _ => PrimFloat.of_uint63 (Uint63.of_Z z)
  | Zneg p => (- PrimFloat.of_uint63 (Uint63.of_Z (Zpos p)))%float
  end.

(** [speakerTagCounts.set(tag, (speakerTagCounts.get(tag) || 0) + 1)] *)
Definition count_tag (speakerTagCounts : Map Z Z) (tag : Z) : Map Z Z :=
  Map_set Z.eqb speakerTagCounts tag
    (match Map_get Z.eqb speakerTagCounts tag with
     | Some c => or_Z c 0
     | None => 0
     end + 1).

(** The loop both services run over [speakerTagCounts]:
    [if (count > maxCount) { maxCount = count; speakerTag = tag; }];
    the state is [(speakerTag, maxCount)]. *)
Definition dominant_step (st : Z * Z) (entry : Z * Z) : Z * Z :=
  let (speakerTag, maxCount) := st in
  let (tag, count) := entry in
  if count >? maxCount then (tag, count) else (speakerTag, maxCount).

Definition dominant (speakerTagCounts : Map Z Z) : Z :=
  fst (fold_left dominant_step speakerTagCounts (1, 0)).

(** The entries of [words] in the emitted event. *)
Record Word := {
  word : string;
  w_speakerTag : Z;
  w_startTime : number;
  w_endTime : number;
  w_confidence : number
}.

(** The canonical transcript event ([TranscriptResult],
    [DeepgramTranscriptResult]). *)
Record TranscriptResult := {
  transcript : string;
  confidence : number;
  isFinal : bool;
  speakerTag : Z;
  startTime : number;
  endTime : number;
  words : list Word
}.

(** The state of the word loop: [words], [startTime], [endTime],
    [speakerTagCounts]. *)
Record Acc := {
  a_words : list Word;
  a_startTime : number;
  a_endTime : number;
  a_counts : Map Z Z
}.

Definition acc0 : Acc :=
  {| a_words := []; a_startTime := 0%float; a_endTime := 0%float; a_counts := [] |}.

(** One iteration for a word with the given normalised tag and times:
    [words.push], [speakerTagCounts.set],
    [if (startTime === 0) startTime = wordStartTime; endTime = wordEndTime]. *)
Definition word_step (acc : Acc) (w : Word) : Acc :=
  {| a_words := a_words acc ++ [w];
     a_startTime :=
       if is_zero_number (a_startTime acc) then w_startTime w else a_startTime acc;
     a_endTime := w_endTime w;
     a_counts := count_tag (a_counts acc) (w_speakerTag w) |}.

Definition or_string (s : option string) (d : string) : string :=
  match s with
  | Some EmptyString | None => d
  | Some s' => s'
  end.

Definition or_option_number (x : option number) (d : number) : number :=
  match x with
  | Some v => or_number v d
  | None => d
  end.

(** ** Google: [handleStreamData] *)

Module Google.

(** A protobuf [Duration]; [parseInt] reads its fields as integers. *)
Record Duration := { seconds : Z; nanos : Z }.

Record IWordInfo := {
  wi_startTime : option Duration;
  wi_endTime : option Duration;
  wi_word : option string;
  wi_speakerTag : option Z
}.

Record Alternative := {
  alt_transcript : option string;
  alt_confidence : option number;
  alt_words : list IWordInfo
}.

Record Result := {
  alternatives : list Alternative;
  r_isFinal : option bool
}.

Definition durationToSeconds (duration : option Duration) : number :=
  match duration with
  | None => 0%float
  | Some d => (number_of_Z (seconds d) + number_of_Z (nanos d) / 1e9)%float
  end.

Definition normalise_word (wordInfo : IWordInfo) : Word :=
  {| word := or_string (wi_word wordInfo) "";
     w_speakerTag := match wi_speakerTag wordInfo with Some t => or_Z t 1 | None => 1 end;
     w_startTime := durationToSeconds (wi_startTime wordInfo);
     w_endTime := durationToSeconds (wi_endTime wordInfo);
     w_confidence := 0%float |}.

(** The event [handleStreamData] emits for [data.results], if any. *)
Definition handleStreamData (results : list Result) : option TranscriptResult :=
  match results with
  | [] => None
  | result :: _ =>
      match alternatives result with
      | [] => None
      | alternative :: _ =>
          let acc := fold_left word_step (map normalise_word (alt_words alternative)) acc0 in
          Some {| transcript := or_string (alt_transcript alternative) "";
                  confidence := or_option_number (alt_confidence alternative) 0%float;
                  isFinal := match r_isFinal result with Some b => b | None => false end;
                  speakerTag := dominant (a_counts acc);
                  startTime := a_startTime acc;
                  endTime := a_endTime acc;
                  words := a_words acc |}
      end
  end.

End Google.

(** ** Deepgram: [handleTranscript] *)

Module Deepgram.

Record WordInfo := {
  wi_word : option string;
  wi_punctuated_word : option string;
  wi_speaker : option Z;
  wi_start : option number;
  wi_end : option number;
  wi_confidence : option number
}.

Record Alternative := {
  alt_transcript : option string;
  alt_confidence : option number;
  alt_words : list WordInfo
}.

Record Data := {
  channel_alternatives : option (list Alternative);
  is_final : option bool
}.

Definition normalise_word (wordInfo : WordInfo) : Word :=
  {| word := or_string (wi_word wordInfo) (or_string (wi_punctuated_word wordInfo) "");
     w_speakerTag := match wi_speaker wordInfo with Some s => s | None => 0 end + 1;
     w_startTime := or_option_number (wi_start wordInfo) 0%float;
     w_endTime := or_option_number (wi_end wordInfo) 0%float;
     w_confidence := or_option_number (wi_confidence wordInfo) 0%float |}.

(** The event [handleTranscript] emits, if any. *)
Definition handleTranscript (data : Data) : option TranscriptResult :=
  match channel_alternatives data with
  | None | Some [] => None
  | Some (alternative :: _) =>
      match alt_transcript alternative with
      | None => None
      | Some transcript0 =>
          if String.eqb (trim transcript0) "" then None
          else
            let acc := fold_left word_step (map normalise_word (alt_words alternative)) acc0 in
            Some {| transcript := trim transcript0;
                    confidence := or_option_number (alt_confidence alternative) 0%float;
                    isFinal := match is_final data with Some b => b | None => false end;
                    speakerTag := dominant (a_counts acc);
                    startTime := a_startTime acc;
                    endTime := a_endTime acc;
                    words := a_words acc |}
      end
  end.

End Deepgram.

(** ** Notions the properties are stated with *)

(** The word-level tags of an event, in word order. *)
Definition tags_of (r : TranscriptResult) : list Z := map w_speakerTag (words r).

(** How many words carry the tag. *)
Fixpoint occurrences (t : Z) (tags : list Z) : nat :=
  match tags with
  | [] => O
  | x :: tags' => ((if Z.eqb x t then 1 else 0) + occurrences t tags')%nat
  end.

(** The position of the first word that carries the tag (the number of words
    when none does). *)
Fixpoint first_index (t : Z) (tags : list Z) : nat :=
  match tags with
  | [] => O
  | x :: tags' => if x =? t then O else S (first_index t tags')
  end.

(** [t] is a tag of the utterance with the highest word count, and among the
    tags with that count it is the one that occurs first. *)
Definition is_dominant (t : Z) (tags : list Z) : Prop :=
  In t tags /\
  forall t', In t' tags ->
    (occurrences t' tags <= occurrences t tags)%nat /\
    (occurrences t' tags = occurrences t tags ->
     (first_index t tags <= first_index t' tags)%nat).

(** The keys of [speakerTagCounts] after the given words: the distinct tags
    in order of first occurrence. *)
Definition firsts_step (ks : list Z) (t : Z) : list Z :=
  if existsb (Z.eqb t) ks then ks else ks ++ [t].

Definition firsts (tags : list Z) : list Z := fold_left firsts_step tags [].

(** Sample payloads.  A Google word with its tag and its times in
    milliseconds, and a final result made of such words. *)
Definition google_word (tag ms_start ms_end : Z) : Google.IWordInfo :=
  {| Google.wi_startTime :=
       Some {| Google.seconds := ms_start / 1000;
               Google.nanos := (ms_start mod 1000) * 1000000 |};
     Google.wi_endTime :=
       Some {| Google.seconds := ms_end / 1000;
               Google.nanos := (ms_end mod 1000) * 1000000 |};
     Google.wi_word := Some "word";
     Google.wi_speakerTag := Some tag |}.

Definition google_results (ws : list Google.IWordInfo) : list Google.Result :=
  [{| Google.alternatives :=
        [{| Google.alt_transcript := Some "word word";
            Google.alt_confidence := Some 0.9%float;
            Google.alt_words := ws |}];
      Google.r_isFinal := Some true |}].

(** A Deepgram word with its zero-based speaker and its times in seconds. *)
Definition deepgram_word (speaker : Z) (s e : number) : Deepgram.WordInfo :=
  {| Deepgram.wi_word := Some "word"; Deepgram.wi_punctuated_word := Some "Word";
     Deepgram.wi_speaker := Some speaker;
     Deepgram.wi_start := Some s; Deepgram.wi_end := Some e;
     Deepgram.wi_confidence := Some 0.9%float |}.
Arguments deepgram_word speaker (s e)%_float.

Definition deepgram_data (ws : list Deepgram.WordInfo) : Deepgram.Data :=
  {| Deepgram.channel_alternatives :=
       Some [{| Deepgram.alt_transcript := Some "word word";
                Deepgram.alt_confidence := Some 0.9%float;
                Deepgram.alt_words := ws |}];
     Deepgram.is_final := Some true |}.

(** The utterance of the specification: the word-level tags 1, 1, 2, 1. *)
Definition majority_utterance : list Google.Result :=
  google_results [google_word 1 0 400; google_word 1 400 800;
                  google_word 2 800 1200; google_word 1 1200 1600].

(** The tags of [speakerTagCounts] are kept in order of first occurrence. *)
Definition earlier (p : list Z) (a b : Z) : Prop :=
  (first_index a p < first_index b p)%nat.

(** The closed form of [speakerTagCounts]. *)
Definition entries (f : Z -> Z) (ks : list Z) : Map Z Z := map (fun k => (k, f k)) ks.

(** [speakerTagCounts] after the words with the given tags. *)
Definition counts (tags : list Z) : Map Z Z := fold_left count_tag tags [].

End Normalizer.

(* ================================================================== *)
(** * Provider adapter: feeding audio and restarting the stream
      ([GoogleSpeechService] in [google-speech.service.ts]) *)
(* ================================================================== *)

Module GoogleSpeech.
Import JS.

Definition Buffer := list Init.Byte.byte.

(** A provider stream ([recognizeStream]).  [written] is what it was fed;
    [write_error] is the message of the error its next [write] throws, if it
    throws. *)
Record Stream := {
  destroyed : bool;
  writableEnded : bool;
  written : list Buffer;
  write_error : option string
}.

(** [recognizeStream] holds a reference: the index of the stream among all
    the streams the service ever opened. *)
Record StreamSession := {
  id : string;
  meetingId : string;
  recognizeStream : option nat;
  isActive : bool;
  restartCount : Z;
  audioInputStreamTimestamp : Z
}.

Record Service := {
  sessions : Map string StreamSession;
  streams : list Stream;
  timers : list string;            (* pending restart callbacks, by session id *)
  emitted : list (string * string) (* events emitted, by session id *)
}.

Definition streamingLimit : Z := 290000.

Definition set_session (svc : Service) (s : StreamSession) : Service :=
  {| sessions := Map_set String.eqb (sessions svc) (id s) s;
     streams := streams svc; timers := timers svc; emitted := emitted svc |}.

Fixpoint update_nth (A : Type) (n : nat) (f : A -> A) (l : list A) : list A :=
  match l, n with
  | [], _ => []
  | x :: l', O => f x :: l'
  | x :: l', S n' => x :: update_nth n' f l'
  end.

Definition update_stream (svc : Service) (h : nat) (f : Stream -> Stream) : Service :=
  {| sessions := sessions svc; streams := update_nth h f (streams svc);
     timers := timers svc; emitted := emitted svc |}.

(** [recognizeStream.end()] *)
Definition end_stream (st : Stream) : Stream :=
  {| destroyed := destroyed st; writableEnded := true;
     written := written st; write_error := write_error st |}.

(** [recognizeStream.write(audioData)] when it does not throw. *)
Definition write_stream (audioData : Buffer) (st : Stream) : Stream :=
  {| destroyed := destroyed st; writableEnded := writableEnded st;
     written := written st ++ [audioData]; write_error := write_error st |}.

Definition new_stream : Stream :=
  {| destroyed := false; writableEnded := false; written := []; write_error := None |}.

(** [createRecognizeStream]: a new provider stream, [isActive = true],
    [audioInputStreamTimestamp = Date.now()]. *)
Definition createRecognizeStream (svc : Service) (session : StreamSession) (now : Z)
  : Service :=
  let h := List.length (streams svc) in
  set_session
    {| sessions := sessions svc; streams := streams svc ++ [new_stream];
       timers := timers svc; emitted := emitted svc |}
    {| id := id session; meetingId := meetingId session;
       recognizeStream := Some h; isActive := true;
       restartCount := restartCount session;
       audioInputStreamTimestamp := now |}.

(** [restartStream] up to the [setTimeout]; the callback is queued. *)
Definition restartStream (svc : Service) (session : StreamSession) : Service :=
  if negb (isActive session) then svc
  else
    let svc1 :=
      match recognizeStream session with
      | Some h => update_stream svc h end_stream
      | None => svc
      end in
    let svc2 :=
      set_session svc1
        {| id := id session; meetingId := meetingId session;
           recognizeStream := None; isActive := false;
           restartCount := restartCount session + 1;
           audioInputStreamTimestamp := audioInputStreamTimestamp session |} in
    {| sessions := sessions svc2; streams := streams svc2;
       timers := timers svc2 ++ [id session]; emitted := emitted svc2 |}.

(** The callback of [restartStream], run by the timer 100 ms later. *)
Definition restart_callback (svc : Service) (sessionId : string) (now : Z) : Service :=
  match Map_get String.eqb (sessions svc) sessionId with
  | Some session =>
      let svc' := createRecognizeStream svc session now in
      {| sessions := sessions svc'; streams := streams svc'; timers := timers svc';
         emitted := emitted svc' ++ [(sessionId, "restarted")] |}
  | None => svc
  end.

Definition includes (s sub : string) : bool :=
  match index 0 sub s with Some _ => true | None => false end.

(** [writeAudio(sessionId, audioData)] called when [Date.now()] is [now]. *)
Definition writeAudio (svc : Service) (sessionId : string) (audioData : Buffer) (now : Z)
  : bool * Service :=
  match Map_get String.eqb (sessions svc) sessionId with
  | None => (false, svc)
  | Some session =>
      match recognizeStream session with
      | None => (false, svc)
      | Some h =>
          if negb (isActive session) then (false, svc)
          else
            match nth_error (streams svc) h with
            | None => (false, svc)
            | Some st =>
                if (destroyed st || writableEnded st)%bool then (false, svc)
                else
                  let elapsedTime := now - audioInputStreamTimestamp session in
                  if elapsedTime >? streamingLimit
                  then (true, restartStream svc session)
                  else
                    match write_error st with
                    | None => (true, update_stream svc h (write_stream audioData))
                    | Some message =>
                        if (includes message "write after" || includes message "destroyed")%bool
                        then (false, restartStream svc session)
                        else (false, svc)
                    end
            end
      end
  end.

(** Every frame any provider stream was ever fed. *)
Definition all_written (svc : Service) : list Buffer :=
  List.concat (map written (streams svc)).

(** ** Notions the properties are stated with *)

(** The session is in the Streaming state: registered under its id, active,
    and holding a provider stream that is neither destroyed nor ended. *)
Definition streaming (svc : Service) (sessionId : string) (session : StreamSession) : Prop :=
  Map_get String.eqb (sessions svc) sessionId = Some session /\
  id session = sessionId /\
  isActive session = true /\
  exists h st,
    recognizeStream session = Some h /\
    nth_error (streams svc) h = Some st /\
    destroyed st = false /\ writableEnded st = false.

(** Sample data: a service with one streaming session opened at time 0 whose
    stream was fed one frame. *)
Definition sample_session : StreamSession :=
  {| id := "s1"; meetingId := "m"; recognizeStream := Some 0%nat; isActive := true;
     restartCount := 0; audioInputStreamTimestamp := 0 |}.

Definition sample_service : Service :=
  {| sessions := [("s1", sample_session)];
     streams := [write_stream [Byte.x01; Byte.x02] new_stream];
     timers := []; emitted := [] |}.

(** What happens to the service afterwards: feed calls and restart
    callbacks, in any order. *)
Inductive Event : Type :=
| Feed (sessionId : string) (audioData : Buffer) (now : Z)
| RestartTimer (sessionId : string) (now : Z).

Definition step (svc : Service) (e : Event) : Service :=
  match e with
  | Feed sessionId audioData now => snd (writeAudio svc sessionId audioData now)
  | RestartTimer sessionId now => restart_callback svc sessionId now
  end.

(** The frame is passed to one of the feed calls. *)
Definition fed (audioData : Buffer) (events : list Event) : Prop :=
  exists sessionId now, In (Feed sessionId audioData now) events.

End GoogleSpeech.

(* ================================================================== *)
(** * Regular expressions as the name extractor uses them

    A backtracking matcher with the semantics of JavaScript's: alternatives
    are tried in order, quantifiers are greedy, an iteration of a star that
    consumes nothing is rejected, and a search returns the leftmost match. *)
(* ================================================================== *)

Module Regex.
Import JS.

(** The position of a match attempt: the character before it (for [\b]),
    the input from it on, its index, and the groups captured so far. *)
Record MState := {
  prev : option ascii;
  rest : string;
  pos : nat;
  caps : list (nat * string)
}.

Definition advance (c : ascii) (r : string) (s : MState) : MState :=
  {| prev := Some c; rest := r; pos := S (pos s); caps := caps s |}.

(** The characters [\b] counts as word characters. *)
Definition is_word_char (c : ascii) : bool :=
  (is_letter c || is_digit c || Ascii.eqb c "_")%bool.

Definition is_word (c : option ascii) : bool :=
  match c with Some c' => is_word_char c' | None => false end.

Definition next_char (s : string) : option ascii :=
  match s with String c _ => Some c | EmptyString => None end.

(** [.]: any character but a line terminator. *)
Definition is_dot (c : ascii) : bool :=
  negb (Ascii.eqb c "010" || Ascii.eqb c "013")%bool.

Inductive regex : Type :=
| Empty
| Char (p : ascii -> bool)
| Seq (r1 r2 : regex)
| Alt (r1 r2 : regex)
| Star (r : regex)
| Group (n : nat) (r : regex)
| Bol
| Eol
| WordBoundary.

(** Leaving group [n], entered at [from], at [to]. *)
Definition set_cap (n : nat) (from to : MState) : MState :=
  {| prev := prev to; rest := rest to; pos := pos to;
     caps := (n, substring 0 (pos to - pos from) (rest from)) :: caps to |}.

(** The iterations of a greedy star over [body]: one more iteration that
    consumes something is tried first, then what follows the star.  An
    iteration consumes at least one character, so the length of the input
    bounds their number. *)
Fixpoint star_loop (body : (MState -> option MState) -> MState -> option MState)
  (k : MState -> option MState) (fuel : nat) (s : MState) {struct fuel}
  : option MState :=
  match fuel with
  | O => k s
  | S fuel' =>
      match body (fun s' => if (pos s <? pos s')%nat then star_loop body k fuel' s'
                            else None) s with
      | Some s' => Some s'
      | None => k s
      end
  end.

(** [run r k s]: match [r] at [s] so that the continuation [k] succeeds on
    what follows; [None] when every way of matching [r] fails. *)
Fixpoint run (r : regex) (k : MState -> option MState) (s : MState) {struct r}
  : option MState :=
  match r with
  | Empty => k s
  | Char p =>
      match rest s with
      | String c r' => if p c then k (advance c r' s) else None
      | EmptyString => None
      end
  | Seq r1 r2 => run r1 (run r2 k) s
  | Alt r1 r2 =>
      match run r1 k s with
      | Some s' => Some s'
      | None => run r2 k s
      end
  | Star r1 => star_loop (run r1) k (String.length (rest s)) s
  | Group n r1 => run r1 (fun s' => k (set_cap n s s')) s
  | Bol => if (pos s =? 0)%nat then k s else None
  | Eol => match rest s with EmptyString => k s | _ => None end
  | WordBoundary =>
      if xorb (is_word (prev s)) (is_word (next_char (rest s))) then k s else None
  end.

(** ** Building patterns *)

Definition Plus (r : regex) : regex := Seq r (Star r).
Definition Opt (r : regex) : regex := Alt r Empty.

(** A literal character; under the [i] flag it matches both cases. *)
Definition lit_char (ignoreCase : bool) (c : ascii) : regex :=
  Char (fun x => if ignoreCase then Ascii.eqb (lower_char x) (lower_char c)
                 else Ascii.eqb x c).

Fixpoint lit (ignoreCase : bool) (s : string) : regex :=
  match s with
  | EmptyString => Empty
  | String c EmptyString => lit_char ignoreCase c
  | String c s' => Seq (lit_char ignoreCase c) (lit ignoreCase s')
  end.

(** [a|b|...] for literal alternatives. *)
Fixpoint alts (ignoreCase : bool) (l : list string) : regex :=
  match l with
  | [] => Empty
  | [s] => lit ignoreCase s
  | s :: l' => Alt (lit ignoreCase s) (alts ignoreCase l')
  end.

(** ** Searching *)

Record Match := {
  index : nat;          (* where the match starts *)
  matched : string;     (* [match[0]] *)
  groups : list (nat * string);
  last : option ascii;  (* the character before the end of the match *)
  after : string;       (* the input after the match *)
  stop : nat            (* where the match ends *)
}.

Definition group (m : Match) (n : nat) : option string :=
  option_map snd (List.find (fun g => (fst g =? n)%nat) (groups m)).

(** The match of [r] that starts exactly at the given position. *)
Definition match_at (r : regex) (p : option ascii) (s : string) (i : nat) : option Match :=
  match run r Some {| prev := p; rest := s; pos := i; caps := [] |} with
  | Some st =>
      Some {| index := i; matched := substring 0 (pos st - i) s; groups := caps st;
              last := prev st; after := rest st; stop := pos st |}
  | None => None
  end.

(** The leftmost match at or after the given position. *)
Fixpoint search (r : regex) (p : option ascii) (s : string) (i : nat) : option Match :=
  match match_at r p s i with
  | Some m => Some m
  | None =>
      match s with
      | EmptyString => None
      | String c s' => search r (Some c) s' (S i)
      end
  end.

(** [r.exec(s)] for a pattern without the [g] flag. *)
Definition exec (r : regex) (s : string) : option Match := search r None s 0.

(** [r.test(s)] *)
Definition test (r : regex) (s : string) : bool :=
  match exec r s with Some _ => true | None => false end.

(** The successive matches of a pattern with the [g] flag: the search resumes
    where the last match stopped, one character further after an empty one. *)
Fixpoint match_all_from (fuel : nat) (r : regex) (p : option ascii) (s : string) (i : nat)
  : list Match :=
  match fuel with
  | O => []
  | S fuel' =>
      match search r p s i with
      | None => []
      | Some m =>
          if (stop m =? index m)%nat then
            match after m with
            | EmptyString => [m]
            | String c a => m :: match_all_from fuel' r (Some c) a (S (stop m))
            end
          else m :: match_all_from fuel' r (last m) (after m) (stop m)
      end
  end.

Definition match_all (r : regex) (s : string) : list Match :=
  match_all_from (S (String.length s)) r None s 0.

(** [s.match(r)] for a pattern with the [g] flag: the matched strings, or
    [null] when there is none. *)
Definition match_g (r : regex) (s : string) : option (list string) :=
  match match_all r s with
  | [] => None
  | l => Some (map matched l)
  end.

(** [s.replace(r, replacement)] for a pattern without the [g] flag and a
    replacement without [$]. *)
Definition replace (r : regex) (s replacement : string) : string :=
  match exec r s with
  | Some m => (substring 0 (index m) s ++ replacement ++ after m)%string
  | None => s
  end.

(** [s.replace(r, replacement)] for a pattern with the [g] flag. *)
Fixpoint replace_all_from (fuel : nat) (r : regex) (replacement : string)
  (p : option ascii) (s : string) (i : nat) : string :=
  match fuel with
  | O => s
  | S fuel' =>
      match search r p s i with
      | None => s
      | Some m =>
          (substring 0 (index m - i) s ++ replacement ++
           (if (stop m =? index m)%nat then
              match after m with
              | EmptyString => EmptyString
              | String c a =>
                  String c (replace_all_from fuel' r replacement (Some c) a (S (stop m)))
              end
            else replace_all_from fuel' r replacement (last m) (after m) (stop m)))%string
      end
  end.

Definition replace_g (r : regex) (s replacement : string) : string :=
  replace_all_from (S (String.length s)) r replacement None s 0.

(** [s.split(r)]: [piece] is the input between the end of the last separator
    and the position [q] under examination. *)
Fixpoint split_loop (fuel : nat) (r : regex) (p : option ascii) (piece s : string) (q : nat)
  : list string :=
  match fuel with
  | O => [(piece ++ s)%string]
  | S fuel' =>
      match s with
      | EmptyString => [piece]
      | String c s' =>
          match match_at r p s q with
          | None => split_loop fuel' r (Some c) (piece ++ String c EmptyString)%string s' (S q)
          | Some m =>
              if ((stop m =? q)%nat && String.eqb piece "")%bool
              then split_loop fuel' r (Some c) (piece ++ String c EmptyString)%string s' (S q)
              else piece :: split_loop fuel' r (last m) "" (after m) (stop m)
          end
      end
  end.

Definition split (r : regex) (s : string) : list string :=
  match s with
  | EmptyString =>
      match match_at r None "" 0 with Some _ => [] | None => [""] end
  | _ => split_loop (S (2 * String.length s)) r None "" s 0
  end.

End Regex.

(* ================================================================== *)
(** * Name extractor ([utils/name-extractor.ts]) *)
(* ================================================================== *)

Module NameExtractor.
Import JS Regex.

Definition PHONETIC_ALPHABET : list (string * string) :=
  [ ("alpha", "A"); ("alfa", "A"); ("bravo", "B"); ("charlie", "C");
    ("delta", "D"); ("echo", "E"); ("foxtrot", "F"); ("golf", "G");
    ("hotel", "H"); ("india", "I"); ("juliet", "J"); ("juliett", "J");
    ("kilo", "K"); ("lima", "L"); ("mike", "M"); ("november", "N");
    ("oscar", "O"); ("papa", "P"); ("quebec", "Q"); ("romeo", "R");
    ("sierra", "S"); ("tango", "T"); ("uniform", "U"); ("victor", "V");
    ("whiskey", "W"); ("whisky", "W"); ("xray", "X"); ("x-ray", "X");
    ("yankee", "Y"); ("zulu", "Z"); ("apple", "A"); ("adam", "A"); ("able", "A");
    ("boy", "B"); ("baker", "B"); ("bob", "B"); ("cat", "C"); ("carol", "C");
    ("dog", "D"); ("david", "D"); ("edward", "E"); ("easy", "E"); ("egg", "E");
    ("frank", "F"); ("fox", "F"); ("freddy", "F"); ("george", "G");
    ("girl", "G"); ("henry", "H"); ("harry", "H"); ("how", "H"); ("ida", "I");
    ("item", "I"); ("ice", "I"); ("john", "J"); ("jack", "J"); ("james", "J");
    ("king", "K"); ("kate", "K"); ("kevin", "K"); ("larry", "L"); ("love", "L");
    ("london", "L"); ("mary", "M"); ("mother", "M"); ("michael", "M");
    ("nancy", "N"); ("nora", "N"); ("nick", "N"); ("ocean", "O");
    ("oliver", "O"); ("orange", "O"); ("peter", "P"); ("paul", "P");
    ("pink", "P"); ("queen", "Q"); ("robert", "R"); ("roger", "R"); ("red", "R");
    ("sam", "S"); ("sugar", "S"); ("steve", "S"); ("tom", "T"); ("tommy", "T");
    ("tiger", "T"); ("uncle", "U"); ("union", "U"); ("victory", "V");
    ("vincent", "V"); ("william", "W"); ("walter", "W"); ("xerox", "X");
    ("yellow", "Y"); ("young", "Y"); ("yoke", "Y"); ("zebra", "Z");
    ("zero", "Z"); ("zoo", "Z") ].

Definition LETTER_PRONUNCIATIONS : list (string * string) :=
  [ ("ay", "A"); ("aye", "A"); ("eh", "A"); ("bee", "B"); ("be", "B");
    ("see", "C"); ("sea", "C"); ("cee", "C"); ("dee", "D"); ("de", "D");
    ("ee", "E"); ("e", "E"); ("eff", "F"); ("ef", "F"); ("gee", "G");
    ("jee", "G"); ("aitch", "H"); ("ach", "H"); ("haitch", "H"); ("h", "H");
    ("eye", "I"); ("i", "I"); ("jay", "J"); ("jey", "J"); ("kay", "K");
    ("key", "K"); ("k", "K"); ("el", "L"); ("ell", "L"); ("em", "M");
    ("en", "N"); ("oh", "O"); ("o", "O"); ("pee", "P"); ("pe", "P");
    ("cue", "Q"); ("queue", "Q"); ("kew", "Q"); ("ar", "R"); ("are", "R");
    ("ess", "S"); ("es", "S"); ("tee", "T"); ("te", "T"); ("you", "U");
    ("yu", "U"); ("vee", "V"); ("ve", "V"); ("double you", "W");
    ("double u", "W"); ("doubleyou", "W"); ("ex", "X"); ("why", "Y");
    ("wy", "Y"); ("wye", "Y"); ("zee", "Z"); ("zed", "Z"); ("zet", "Z") ].

(** [table[key]] on an object literal: an own property, or the one property
    of [Object.prototype] whose name consists of lower-case letters, the
    [constructor] function; [+=] appends the text of that function. *)
Definition lookup (table : list (string * string)) (key : string) : option string :=
  match List.find (fun e => String.eqb (fst e) key) table with
  | Some e => Some (snd e)
  | None =>
      if String.eqb key "constructor" then Some "function Object() { [native code] }"
      else None
  end.

Inductive Confidence := high | medium | low.
Inductive Method := spelled | phonetic | nato | combined.

Record Debug := {
  d_spelledName : option string;
  d_phoneticName : option string;
  d_natoName : option string
}.

Record NameExtractionResult := {
  name : string;
  confidence : Confidence;
  method : Method;
  originalText : string;
  debug : Debug
}.

(** A string or [null] in a condition: [null] and [''] are falsy. *)
Definition truthy (s : option string) : option string :=
  match s with
  | Some EmptyString | None => None
  | Some s' => Some s'
  end.

(** ** Patterns *)

Definition letter : regex := Char is_letter.                         (* [[a-z]] with [i] *)
Definition space : regex := Char is_space.                           (* [\s] *)

(** The class [[-,.\s]] and, in it, the punctuation marks. *)
Definition is_punctuation (c : ascii) : bool :=
  (Ascii.eqb c "-" || Ascii.eqb c "," || Ascii.eqb c ".")%bool.

Definition is_separator_char (c : ascii) : bool :=
  (is_punctuation c || is_space c)%bool.

Definition separator : regex :=                                      (* [\s*[-,.\s]\s*] *)
  Seq (Star space) (Seq (Char is_separator_char) (Star space)).

(** [/\b([a-z])\s*[-,.\s]\s*([a-z])\s*[-,.\s]\s*([a-z])(?:\s*[-,.\s]\s*([a-z]))*\b/gi] *)
Definition letterPattern : regex :=
  Seq WordBoundary
   (Seq (Group 1 letter)
    (Seq separator
     (Seq (Group 2 letter)
      (Seq separator
       (Seq (Group 3 letter)
        (Seq (Star (Seq separator (Group 4 letter)))
             WordBoundary)))))).

(** [.sort((a, b) => b.length - a.length)]: longer keys first, keys of one
    length in their original order. *)
Fixpoint insert_by_length (x : string) (l : list string) : list string :=
  match l with
  | [] => [x]
  | y :: l' =>
      if (String.length x <? String.length y)%nat then y :: insert_by_length x l'
      else x :: y :: l'
  end.

Definition sort_by_length (l : list string) : list string :=
  fold_right insert_by_length [] l.

(** [buildPronunciationPattern]: between two [\b], two or more times one of
    the keys followed by optional white space, with flags [gi]. *)
Definition buildPronunciationPattern : regex :=
  let pronunciations := sort_by_length (map fst LETTER_PRONUNCIATIONS) in
  let sound := Group 1 (Seq (alts true pronunciations) (Star space)) in
  Seq WordBoundary (Seq sound (Seq sound (Seq (Star sound) WordBoundary))).

(** [/(?:spelled?|that'?s?|it'?s?)\s+([a-z](?:\s*[-,.\s]\s*[a-z])+)/i] *)
Definition spellingCuePattern : regex :=
  Seq (Alt (Seq (lit true "spelle") (Opt (lit true "d")))
        (Alt (Seq (lit true "that") (Seq (Opt (lit true "'")) (Opt (lit true "s"))))
             (Seq (lit true "it") (Seq (Opt (lit true "'")) (Opt (lit true "s"))))))
   (Seq (Plus space)
        (Group 1 (Seq letter (Plus (Seq separator letter))))).

(** The filler phrases in front: [/^(my name is|i'm|i am|this is|it's|call me|they call me)\s+/i] *)
Definition leadingFiller : regex :=
  Seq Bol
   (Seq (Group 1 (alts true ["my name is"; "i'm"; "i am"; "this is"; "it's"; "call me";
                             "they call me"]))
        (Plus space)).

(** [/\s+(here|speaking|and|that's|spelled).*$/i] *)
Definition trailingFiller : regex :=
  Seq (Plus space)
   (Seq (Group 1 (alts true ["here"; "speaking"; "and"; "that's"; "spelled"]))
        (Seq (Star (Char is_dot)) Eol)).

(** [/\s+(here|speaking)$/i] *)
Definition trailingHere : regex :=
  Seq (Plus space) (Seq (Group 1 (alts true ["here"; "speaking"])) Eol).

(** [/[.,!?]+$/g] *)
Definition trailingPunctuation : regex :=
  Seq (Plus (Char (fun c => (Ascii.eqb c "." || Ascii.eqb c "," || Ascii.eqb c "!"
                             || Ascii.eqb c "?")%bool)))
      Eol.

(** [/^([a-z]+(?:\s+[a-z]+)?)/i] *)
Definition namePattern : regex :=
  Seq Bol (Group 1 (Seq (Plus letter) (Opt (Seq (Plus space) (Plus letter))))).

(** [/[^a-z]/g] *)
Definition notLower : regex := Char (fun c => negb (is_lower c)).

(** [/\s+/] *)
Definition spaces : regex := Plus space.

Definition join (sep : string) (l : list string) : string := String.concat sep l.

(** ** [capitalizeFirst] *)

Definition capitalizeWord (w : string) : string :=
  match w with
  | EmptyString => EmptyString
  | String c w' => String (upper_char c) w'
  end.

Definition capitalizeFirst (text : string) : string :=
  join " " (map capitalizeWord (split spaces (toLowerCase text))).

(** ** [extractSpelledName] *)

(** [s.match(/[a-z]/gi)] followed by the test [letters && letters.length >= 2]
    and [letters.join('').toUpperCase()]. *)
Definition joinLetters (s : string) : option string :=
  match match_g letter s with
  | Some letters =>
      if (2 <=? List.length letters)%nat then Some (toUpperCase (join "" letters))
      else None
  | None => None
  end.

Definition convertPronunciationsToLetters (text : string) : string :=
  fold_left
    (fun result w =>
       if ((String.length w =? 1)%nat && test letter w)%bool
       then (result ++ toUpperCase w)%string
       else
         match lookup LETTER_PRONUNCIATIONS w with
         | Some l => (result ++ l)%string
         | None =>
             match lookup PHONETIC_ALPHABET w with
             | Some l => (result ++ l)%string
             | None => result
             end
         end)
    (split spaces (toLowerCase text)) "".

Definition orElse {A} (x : option A) (y : option A) : option A :=
  match x with Some _ => x | None => y end.

Definition spelledByLetters (text : string) : option string :=
  match match_g letterPattern text with
  | Some (m0 :: _) => joinLetters m0
  | _ => None
  end.

Definition spelledBySounds (text : string) : option string :=
  match match_g buildPronunciationPattern text with
  | Some (m0 :: _) =>
      let result := convertPronunciationsToLetters m0 in
      if (2 <=? String.length result)%nat then Some result else None
  | _ => None
  end.

Definition spelledAfterCue (text : string) : option string :=
  match exec spellingCuePattern text with
  | Some m =>
      match group m 1 with
      | Some g => joinLetters g
      | None => None
      end
  | None => None
  end.

(** The three attempts, each returning from the function when it succeeds. *)
Definition extractSpelledName (text : string) : option string :=
  orElse (spelledByLetters text)
    (orElse (spelledBySounds text) (spelledAfterCue text)).

(** ** [extractNatoPhoneticName] *)

(** The loop state: [result], [consecutiveMatches], [maxConsecutive],
    [bestResult]. *)
Definition nato_step (st : string * nat * nat * string) (w : string)
  : string * nat * nat * string :=
  let '(result, consecutiveMatches, maxConsecutive, bestResult) := st in
  let cleaned := replace_g notLower w "" in
  match lookup PHONETIC_ALPHABET cleaned with
  | Some l =>
      let result' := (result ++ l)%string in
      let consecutiveMatches' := S consecutiveMatches in
      if (maxConsecutive <? consecutiveMatches')%nat
      then (result', consecutiveMatches', consecutiveMatches', result')
      else (result', consecutiveMatches', maxConsecutive, bestResult)
  | None => ("", O, maxConsecutive, bestResult)
  end.

Definition extractNatoPhoneticName (text : string) : option string :=
  let '(_, _, maxConsecutive, bestResult) :=
    fold_left nato_step (split spaces (toLowerCase text)) ("", O, O, "") in
  if (2 <=? maxConsecutive)%nat then Some bestResult else None.

(** ** [extractPhoneticName] *)

Definition includes_char (c : ascii) (s : string) : bool :=
  existsb (Ascii.eqb c) (list_ascii_of_string s).

(** [s.split(',')[0]] *)
Fixpoint before_char (c : ascii) (s : string) : string :=
  match s with
  | EmptyString => EmptyString
  | String x s' => if Ascii.eqb x c then EmptyString else String x (before_char c s')
  end.

Definition extractPhoneticName (text : string) : option string :=
  let cleaned := trim (replace trailingFiller (replace leadingFiller text "") "") in
  let cleaned :=
    if includes_char "," cleaned then trim (before_char "," cleaned) else cleaned in
  match exec namePattern cleaned with
  | Some nameMatch => group nameMatch 1
  | None => truthy (Some cleaned)
  end.

(** ** [cleanTranscript] *)

Definition cleanTranscript (text : string) : string :=
  trim (replace_g trailingPunctuation
          (replace trailingHere (replace leadingFiller text "") "") "").

(** ** [extractName] *)

Definition has_two (s : option string) : bool :=
  match truthy s with
  | Some s' => (2 <=? String.length s')%nat
  | None => false
  end.

Definition text_of (s : option string) : string :=
  match s with Some s' => s' | None => "" end.

Definition extractName (transcript : string) : NameExtractionResult :=
  let originalText := trim transcript in
  let normalized := toLowerCase originalText in
  let spelledName := extractSpelledName normalized in
  let natoName := extractNatoPhoneticName normalized in
  let phoneticName := extractPhoneticName normalized in
  let debug :=
    {| d_spelledName := truthy spelledName;
       d_phoneticName := truthy phoneticName;
       d_natoName := truthy natoName |} in
  if has_two spelledName then
    {| name := capitalizeFirst (text_of spelledName); confidence := high;
       method := spelled; originalText := originalText; debug := debug |}
  else if has_two natoName then
    {| name := capitalizeFirst (text_of natoName); confidence := high;
       method := nato; originalText := originalText; debug := debug |}
  else
    match truthy phoneticName with
    | Some p =>
        {| name := capitalizeFirst p; confidence := medium; method := phonetic;
           originalText := originalText; debug := debug |}
    | None =>
        {| name := capitalizeFirst (cleanTranscript originalText); confidence := low;
           method := phonetic; originalText := originalText; debug := debug |}
    end.

(** ** [isValidName] *)

(** [/[a-zA-Z]/] *)
Definition anyLetter : regex := Char is_letter.

(** The class [[a-zA-Z\s'-]]. *)
Definition is_name_char (c : ascii) : bool :=
  (is_letter c || is_space c || Ascii.eqb c "'" || Ascii.eqb c "-")%bool.

(** [/^[a-zA-Z\s'-]+$/] *)
Definition nameCharacters : regex :=
  Seq Bol (Seq (Plus (Char is_name_char)) Eol).

Definition isValidName (name : string) : bool :=
  if (String.eqb name "" || (String.length name <? 1)%nat
      || (50 <? String.length name)%nat)%bool
  then false
  else if negb (test anyLetter name) then false
  else if negb (test nameCharacters name) then false
  else true.

(** ** Notions the properties are stated with *)

(** The characters of a string. *)
Definition chars (s : string) : list ascii := list_ascii_of_string s.

(** A name spelled out: the letter [x], then each letter of [xs] after the
    punctuation mark [sep], as in [J-O-H-N]. *)
Fixpoint spelled_tail (sep : ascii) (xs : list ascii) : string :=
  match xs with
  | [] => EmptyString
  | x :: xs' => String sep (String x (spelled_tail sep xs'))
  end.

Definition spelled_out (sep x : ascii) (xs : list ascii) : string :=
  String x (spelled_tail sep xs).

(** The input goes on with something else than white space. *)
Definition no_space_next (r : string) : Prop :=
  match r with String c _ => is_space c = false | EmptyString => True end.

End NameExtractor.

(* ================================================================== *)
(** * Notions for the single-letter pattern *)
(* ================================================================== *)

Module Spelling.
Import JS Regex NameExtractor.

(** ** What a pattern matches

    [path r s s']: the pattern [r] matches from the position [s] up to the
    position [s'], whatever the order in which the matcher tries the
    alternatives. *)
Inductive path : regex -> MState -> MState -> Prop :=
| path_Empty s : path Empty s s
| path_Char p s c r :
    rest s = String c r -> p c = true -> path (Char p) s (advance c r s)
| path_Seq r1 r2 s s1 s2 : path r1 s s1 -> path r2 s1 s2 -> path (Seq r1 r2) s s2
| path_Alt_l r1 r2 s s' : path r1 s s' -> path (Alt r1 r2) s s'
| path_Alt_r r1 r2 s s' : path r2 s s' -> path (Alt r1 r2) s s'
| path_Star_stop r s : path (Star r) s s
| path_Star_more r s s1 s2 :
    path r s s1 -> (pos s < pos s1)%nat -> path (Star r) s1 s2 -> path (Star r) s s2
| path_Group n r s s' : path r s s' -> path (Group n r) s (set_cap n s s')
| path_Bol s : pos s = 0%nat -> path Bol s s
| path_Eol s : rest s = "" -> path Eol s s
| path_WordBoundary s :
    xorb (Regex.is_word (prev s)) (Regex.is_word (next_char (rest s))) = true ->
    path WordBoundary s s.

(** The position [n] characters further. *)
Definition step (s : MState) : MState :=
  match rest s with
  | String c r => advance c r s
  | EmptyString => s
  end.

Fixpoint adv (n : nat) (s : MState) : MState :=
  match n with
  | O => s
  | S n' => adv n' (step s)
  end.

(** The last character of [s], or [p] when [s] is empty. *)
Fixpoint last_char (p : option ascii) (s : string) : option ascii :=
  match s with
  | EmptyString => p
  | String c s' => last_char (Some c) s'
  end.

(** ** Runs of single-letter tokens *)

(** What separates two tokens: optional white space, then one hyphen, comma,
    period or white-space character, then optional white space. *)
Definition is_separator (sep : string) : bool :=
  (negb (String.eqb sep "") && forallb is_separator_char (chars sep) &&
   (List.length (filter is_punctuation (chars sep)) <=? 1)%nat)%bool.

(** The letter [x], then each letter of [tail] after its separator. *)
Fixpoint tokens_tail (tail : list (string * ascii)) : string :=
  match tail with
  | [] => EmptyString
  | (sep, x) :: tail' => (sep ++ String x (tokens_tail tail'))%string
  end.

Definition tokens (x : ascii) (tail : list (string * ascii)) : string :=
  String x (tokens_tail tail).

Definition letters (x : ascii) (tail : list (string * ascii)) : list ascii :=
  x :: map snd tail.

(** The run in lower case. *)
Definition lower_tail (tail : list (string * ascii)) : list (string * ascii) :=
  map (fun e => (fst e, lower_char (snd e))) tail.

(** Letters between separators. *)
Definition well_separated (tail : list (string * ascii)) : bool :=
  forallb (fun e => (is_separator (fst e) && is_letter (snd e))%bool) tail.

(** A run of three or more single-letter tokens. *)
Definition is_run (x : ascii) (tail : list (string * ascii)) : bool :=
  (is_letter x && well_separated tail && (2 <=? List.length tail)%nat)%bool.

(** The run between [pre] and [post] consists of whole tokens: no letter,
    digit or underscore stands right before or right after it. *)
Definition delimited (pre post : string) : bool :=
  (negb (Regex.is_word (last_char None pre)) &&
   negb (Regex.is_word (next_char post)))%bool.

(** No single-letter token followed by a separator character in [s], which
    comes after the character [p]. *)
Fixpoint token_free (p : option ascii) (s : string) : bool :=
  match s with
  | EmptyString => true
  | String c s' =>
      (negb (is_letter c && negb (Regex.is_word p) &&
             match s' with String d _ => is_separator_char d | EmptyString => false end) &&
       token_free (Some c) s')%bool
  end.

(** No letter in [s]. *)
Definition letter_free (s : string) : bool :=
  forallb (fun c => negb (is_letter c)) (chars s).

(** The letters as a name: the first in upper case, the others in lower
    case. *)
Definition capitalised (l : list ascii) : string :=
  match l with
  | [] => EmptyString
  | x :: xs => String (upper_char x) (string_of_list_ascii (map lower_char xs))
  end.

End Spelling.

(* ================================================================== *)
(** * Notions for the further properties of the batch job *)
(* ================================================================== *)

Module BatchJob.
Import JS BatchDiarization.

(** The computation leaves the segments and the statuses of the meetings
    other than [id] as they were, on every store and whether it resolves or
    rejects. *)
Definition untouched {A} (id : string) (c : M A) : Prop :=
  forall db,
    filter (other_meeting id) (rows (snd (c db))) = filter (other_meeting id) (rows db) /\
    forall id', id' <> id ->
      Map_get String.eqb (statuses (snd (c db))) id' =
      Map_get String.eqb (statuses db) id'.

End BatchJob.

(* ================================================================== *)
(** * Provider adapter: the life of a session
      ([GoogleSpeechService] in [google-speech.service.ts]) *)
(* ================================================================== *)

Module GoogleSession.
Import JS GoogleSpeech.

(** [this.sessions.delete(sessionId)]; a [Map] holds a key once. *)
Definition Map_delete (m : Map string StreamSession) (k : string)
  : Map string StreamSession :=
  filter (fun e => negb (String.eqb (fst e) k)) m.

(** [createStreamSession(sessionId, meetingId)] called when [Date.now()] is
    [now]; [available] is [isAvailable()]. *)
Definition createStreamSession (available : bool) (svc : Service)
  (sessionId meetingId : string) (now : Z) : option StreamSession * Service :=
  if negb available then (None, svc)
  else
    let session :=
      {| id := sessionId; meetingId := meetingId; recognizeStream := None;
         isActive := false; restartCount := 0; audioInputStreamTimestamp := now |} in
    (Some session,
     {| sessions := Map_set String.eqb (sessions svc) sessionId session;
        streams := streams svc; timers := timers svc; emitted := emitted svc |}).

(** [startStreaming(sessionId)]; [speechClient] tells whether the client
    exists; the result tells whether an emitter is returned. *)
Definition startStreaming (speechClient : bool) (svc : Service) (sessionId : string)
  (now : Z) : bool * Service :=
  match Map_get String.eqb (sessions svc) sessionId with
  | None => (false, svc)
  | Some session =>
      if negb speechClient then (false, svc)
      else (true, createRecognizeStream svc session now)
  end.

(** [stopStreaming(sessionId)] *)
Definition stopStreaming (svc : Service) (sessionId : string) : Service :=
  match Map_get String.eqb (sessions svc) sessionId with
  | None => svc
  | Some session =>
      let svc1 :=
        match recognizeStream session with
        | Some h => update_stream svc h end_stream
        | None => svc
        end in
      {| sessions :=
           Map_set String.eqb (sessions svc1) sessionId
             {| id := id session; meetingId := meetingId session;
                recognizeStream := recognizeStream session; isActive := false;
                restartCount := restartCount session;
                audioInputStreamTimestamp := audioInputStreamTimestamp session |};
         streams := streams svc1; timers := timers svc1;
         emitted := emitted svc1 ++ [(sessionId, "stopped")] |}
  end.

(** [destroySession(sessionId)] *)
Definition destroySession (svc : Service) (sessionId : string) : Service :=
  match Map_get String.eqb (sessions svc) sessionId with
  | None => svc
  | Some _ =>
      let svc1 := stopStreaming svc sessionId in
      {| sessions := Map_delete (sessions svc1) sessionId;
         streams := streams svc1; timers := timers svc1; emitted := emitted svc1 |}
  end.

(** [getSession(sessionId)] *)
Definition getSession (svc : Service) (sessionId : string) : option StreamSession :=
  Map_get String.eqb (sessions svc) sessionId.

(** ** Notions the properties are stated with *)

(** Every session is registered under its own id and the stream it holds is
    one the service opened. *)
Definition well_formed (svc : Service) : Prop :=
  forall k session,
    Map_get String.eqb (sessions svc) k = Some session ->
    id session = k /\
    forall h, recognizeStream session = Some h -> (h < List.length (streams svc))%nat.

(** The service before any session is created. *)
Definition no_sessions : Service :=
  {| sessions := []; streams := []; timers := []; emitted := [] |}.

(** What clients and timers do to the service. *)
Inductive Action : Type :=
| Create (available : bool) (sessionId meetingId : string) (now : Z)
| Start (speechClient : bool) (sessionId : string) (now : Z)
| Write (sessionId : string) (audioData : Buffer) (now : Z)
| Timer (sessionId : string) (now : Z)
| Stop (sessionId : string)
| Destroy (sessionId : string).

Definition act (svc : Service) (a : Action) : Service :=
  match a with
  | Create available sessionId meetingId now =>
      snd (createStreamSession available svc sessionId meetingId now)
  | Start speechClient sessionId now => snd (startStreaming speechClient svc sessionId now)
  | Write sessionId audioData now => snd (writeAudio svc sessionId audioData now)
  | Timer sessionId now => restart_callback svc sessionId now
  | Stop sessionId => stopStreaming svc sessionId
  | Destroy sessionId => destroySession svc sessionId
  end.

(** The action registers a session under the id. *)
Definition creates (sessionId : string) (a : Action) : bool :=
  match a with
  | Create available k _ _ => (available && String.eqb k sessionId)%bool
  | _ => false
  end.

(** Feeding frames one after the other: the results of the calls and the
    service afterwards. *)
Fixpoint feed_all (svc : Service) (sessionId : string) (frames : list (Buffer * Z))
  : list bool * Service :=
  match frames with
  | [] => ([], svc)
  | (audioData, now) :: frames' =>
      let (ok, svc1) := writeAudio svc sessionId audioData now in
      let (oks, svc2) := feed_all svc1 sessionId frames' in
      (ok :: oks, svc2)
  end.

End GoogleSession.

(* ================================================================== *)
(** * Whole-file transcription: grouping the words by speaker
      ([transcribeFile] in [google-speech.service.ts]) *)
(* ================================================================== *)

Module TranscribeFile.
Import JS BatchDiarization.

(** [currentSegment] *)
Record CurrentSegment := {
  c_words : list string;
  c_speakerTag : Z;
  c_startTime : number;
  c_endTime : number
}.

(** The segment pushed for [currentSegment]; [confidence] is
    [alternative.confidence || 0]. *)
Definition push (confidence : number) (currentSegment : CurrentSegment)
  : TranscribedSegment :=
  {| t_transcript := String.concat " " (c_words currentSegment);
     t_speakerTag := c_speakerTag currentSegment;
     t_startTime := c_startTime currentSegment;
     t_endTime := c_endTime currentSegment;
     t_confidence := confidence |}.

(** [wordInfo.word || ''] and [wordInfo.speakerTag || 1] *)
Definition word_of (wordInfo : Normalizer.Google.IWordInfo) : string :=
  Normalizer.or_string (Normalizer.Google.wi_word wordInfo) "".

Definition tag_of_word (wordInfo : Normalizer.Google.IWordInfo) : Z :=
  match Normalizer.Google.wi_speakerTag wordInfo with Some t => or_Z t 1 | None => 1 end.

(** One iteration of [for (const wordInfo of alternative.words)]; the state
    is [currentSegment] and [segments]. *)
Definition group_step (confidence : number)
  (st : option CurrentSegment * list TranscribedSegment)
  (wordInfo : Normalizer.Google.IWordInfo)
  : option CurrentSegment * list TranscribedSegment :=
  let word := word_of wordInfo in
  let speakerTag := tag_of_word wordInfo in
  let startTime :=
    Normalizer.Google.durationToSeconds (Normalizer.Google.wi_startTime wordInfo) in
  let endTime :=
    Normalizer.Google.durationToSeconds (Normalizer.Google.wi_endTime wordInfo) in
  let started :=
    {| c_words := [word]; c_speakerTag := speakerTag;
       c_startTime := startTime; c_endTime := endTime |} in
  match st with
  | (None, segments) => (Some started, segments)
  | (Some currentSegment, segments) =>
      if negb (c_speakerTag currentSegment =? speakerTag)
      then (Some started, segments ++ [push confidence currentSegment])
      else (Some {| c_words := c_words currentSegment ++ [word];
                    c_speakerTag := c_speakerTag currentSegment;
                    c_startTime := c_startTime currentSegment;
                    c_endTime := endTime |},
            segments)
  end.

(** The segments once the loop is over ("Don't forget the last segment"). *)
Definition finish (confidence : number)
  (st : option CurrentSegment * list TranscribedSegment) : list TranscribedSegment :=
  match st with
  | (Some currentSegment, segments) => segments ++ [push confidence currentSegment]
  | (None, segments) => segments
  end.

Definition word_segments (alternative : Normalizer.Google.Alternative)
  : list TranscribedSegment :=
  let confidence :=
    Normalizer.or_option_number (Normalizer.Google.alt_confidence alternative) 0%float in
  finish confidence
    (fold_left (group_step confidence) (Normalizer.Google.alt_words alternative) (None, [])).

(** The branch without word-level information: one segment of speaker 1 for
    each result whose first alternative has a transcript. *)
Definition plain_segment (result : Normalizer.Google.Result) : list TranscribedSegment :=
  match Normalizer.Google.alternatives result with
  | alt :: _ =>
      match Normalizer.Google.alt_transcript alt with
      | Some (String _ _ as transcript) =>
          [{| t_transcript := transcript; t_speakerTag := 1;
              t_startTime := 0%float; t_endTime := 0%float;
              t_confidence :=
                Normalizer.or_option_number (Normalizer.Google.alt_confidence alt) 0%float |}]
      | _ => []
      end
  | [] => []
  end.

Definition plain_segments (results : list Normalizer.Google.Result)
  : list TranscribedSegment :=
  flat_map plain_segment results.

(** [response.results[response.results.length - 1].alternatives?.[0]] with
    word-level information, if there is one. *)
Definition diarized_alternative (results : list Normalizer.Google.Result)
  : option Normalizer.Google.Alternative :=
  match rev results with
  | [] => None
  | lastResult :: _ =>
      match Normalizer.Google.alternatives lastResult with
      | alternative :: _ =>
          match Normalizer.Google.alt_words alternative with
          | _ :: _ => Some alternative
          | [] => None
          end
      | [] => None
      end
  end.

(** The [segments] that [transcribeFile] returns for [response.results]. *)
Definition segments_of (results : list Normalizer.Google.Result)
  : list TranscribedSegment :=
  match diarized_alternative results with
  | Some alternative => word_segments alternative
  | None => plain_segments results
  end.

(** The [transcript] that [transcribeFile] returns. *)
Definition transcript_of (results : list Normalizer.Google.Result) : string :=
  match diarized_alternative results with
  | Some alternative =>
      match Normalizer.Google.alt_transcript alternative with
      | Some (String _ _ as transcript) => transcript
      | _ => String.concat " " (map t_transcript (word_segments alternative))
      end
  | None =>
      trim (fold_left (fun fullTranscript s => (fullTranscript ++ t_transcript s ++ " ")%string)
                      (plain_segments results) "")
  end.

End TranscribeFile.

(* ================================================================== *)
(** * Notions for the further properties of the normalizers *)
(* ================================================================== *)

Module Payload.
Import JS Normalizer.

(** The words of the payload a normalizer reads: those of the first
    alternative of the first result (Google), of the first alternative of
    the channel (Deepgram). *)
Definition google_words (results : list Google.Result) : list Google.IWordInfo :=
  match results with
  | result :: _ =>
      match Google.alternatives result with
      | alternative :: _ => Google.alt_words alternative
      | [] => []
      end
  | [] => []
  end.

Definition deepgram_words (data : Deepgram.Data) : list Deepgram.WordInfo :=
  match Deepgram.channel_alternatives data with
  | Some (alternative :: _) => Deepgram.alt_words alternative
  | _ => []
  end.

(** The provider numbers its speakers from 0 (Deepgram) or from 1 with 0 for
    "unknown" (Google): no speaker number is negative. *)
Definition google_tag_ok (w : Google.IWordInfo) : Prop :=
  match Google.wi_speakerTag w with Some t => 0 <= t | None => True end.

Definition deepgram_speaker_ok (w : Deepgram.WordInfo) : Prop :=
  match Deepgram.wi_speaker w with Some s => 0 <= s | None => True end.

(** The event comes from a payload whose speaker numbers are not negative. *)
Definition normalised (r : TranscriptResult) : Prop :=
  (exists results,
     Google.handleStreamData results = Some r /\
     Forall google_tag_ok (google_words results)) \/
  (exists data,
     Deepgram.handleTranscript data = Some r /\
     Forall deepgram_speaker_ok (deepgram_words data)).

End Payload.

(* ================================================================== *)
(** * Notions for the further properties of the name extractor *)
(* ================================================================== *)

Module Names.
Import JS Regex NameExtractor.

(** The code words of [PHONETIC_ALPHABET] written with the letters [a-z]
    only (all but [x-ray]). *)
Definition code_words : list string :=
  filter (fun w => forallb is_lower (chars w)) (map fst PHONETIC_ALPHABET).

(** The first letter of a word, in upper case. *)
Definition initial (w : string) : string :=
  match w with
  | String c _ => String (upper_char c) EmptyString
  | EmptyString => EmptyString
  end.

(** What follows the first of the words joined by single spaces. *)
Fixpoint spaced (ws : list string) : string :=
  match ws with
  | [] => EmptyString
  | w :: ws' => String " " (w ++ spaced ws')
  end.

(** A non-empty word without white space. *)
Definition is_plain_word (w : string) : bool :=
  (negb (String.eqb w "") && forallb (fun c => negb (is_space c)) (chars w))%bool.

(** Only white space. *)
Definition blank (s : string) : bool := forallb is_space (chars s).

End Names.

(* ================================================================== *)
(** * The gateway: what becomes of a transcript event *)
(* ================================================================== *)

(** [TranscriptionGateway.handleTranscriptResult]
    (backend/src/transcription/google-speech.service.ts, the gateway class).
    The handler reads the session of the client, looks the speaker up in the
    cache of the session, enrols the speaker in enrollment mode when a valid
    name is extracted, emits the transcript to the client and to the room of
    the meeting, and saves the segment in transcription mode.  The two
    services it awaits are not modelled: a call is recorded, and whether
    [saveSpeakerMapping] resolves is an input.  ([saveSegment] is called
    inside [try]: its failure is logged and changes nothing else.) *)
Module Gateway.
Import JS Normalizer.

Inductive SessionMode := enrollment | transcription.
Inductive TranscriptionProvider := deepgram | google.

Record ClientSession := {
  socketId : string;
  meetingId : string;
  speechSessionId : string;
  isStreaming : bool;
  mode : SessionMode;
  speakerMappings : Map Z string;
  provider : TranscriptionProvider
}.

(** [TranscriptSegmentDto], as the handler fills it. *)
Record TranscriptSegmentDto := {
  dto_speakerTag : Z;
  dto_speakerName : option string;
  dto_transcript : string;
  dto_confidence : number;
  dto_startTime : number;
  dto_endTime : number;
  dto_isFinal : bool
}.

(** The calls on [speakerEnrollmentService] and [transcriptionService]. *)
Inductive Call :=
| saveSpeakerMapping (meetingId : string) (speakerTag : Z) (speakerName : string)
| saveSegment (meetingId : string) (segmentDto : TranscriptSegmentDto).

(** What is emitted: ['speakerEnrolled'] and ['transcript'] to the client,
    ['transcriptUpdate'] to the room.  The ['transcript'] event copies the
    fields of the result and adds [speakerName]. *)
Inductive Emitted :=
| speakerEnrolled (speakerTag : Z) (speakerName : string)
    (confidence : NameExtractor.Confidence) (method : NameExtractor.Method)
| transcript_to_client (result : TranscriptResult) (speakerName : option string)
| transcriptUpdate (room : string) (transcript : string) (speakerTag : Z)
    (speakerName : option string) (isFinal : bool).

(** The session afterwards, the events emitted, the calls made, in order,
    and whether the promise of the handler is rejected. *)
Record Handled := {
  h_session : ClientSession;
  h_emitted : list Emitted;
  h_calls : list Call;
  h_rejected : bool
}.

(** [speakerMappings.set(speakerTag, name)] on the cache of the session. *)
Definition set_mapping (session : ClientSession) (speakerTag : Z) (name : string)
  : ClientSession :=
  {| socketId := socketId session; meetingId := meetingId session;
     speechSessionId := speechSessionId session; isStreaming := isStreaming session;
     mode := mode session;
     speakerMappings := Map_set Z.eqb (speakerMappings session) speakerTag name;
     provider := provider session |}.

Definition is_enrollment (m : SessionMode) : bool :=
  match m with enrollment => true | transcription => false end.

Definition is_transcription (m : SessionMode) : bool :=
  match m with transcription => true | enrollment => false end.

Definition is_null (s : option string) : bool :=
  match s with None => true | Some _ => false end.

(** The second half of the handler: the two events, then the segment. *)
Definition emit_and_save (session : ClientSession) (result : TranscriptResult)
  (speakerName : option string) (emitted : list Emitted) (calls : list Call) : Handled :=
  let emitted :=
    emitted ++
    [transcript_to_client result speakerName;
     transcriptUpdate ("meeting:" ++ meetingId session) (transcript result)
       (speakerTag result) speakerName (isFinal result)] in
  if (is_transcription (mode session) && isFinal result
      && negb (String.eqb (trim (transcript result)) ""))%bool
  then
    let segmentDto :=
      {| dto_speakerTag := speakerTag result;
         dto_speakerName := speakerName;
         dto_transcript := transcript result;
         dto_confidence := confidence result;
         dto_startTime := startTime result;
         dto_endTime := endTime result;
         dto_isFinal := true |} in
    {| h_session := session; h_emitted := emitted;
       h_calls := calls ++ [saveSegment (meetingId session) segmentDto];
       h_rejected := false |}
  else
    {| h_session := session; h_emitted := emitted; h_calls := calls;
       h_rejected := false |}.

(** [handleTranscriptResult(client, session, result)]; [saved] tells whether
    the awaited [saveSpeakerMapping] resolves.  When it does not, the
    handler stops there: the cache is not updated and nothing is emitted. *)
Definition handleTranscriptResult (saved : bool) (session : ClientSession)
  (result : TranscriptResult) : Handled :=
  let speakerName :=
    NameExtractor.truthy
      (Map_get Z.eqb (speakerMappings session) (speakerTag result)) in
  if (is_enrollment (mode session) && isFinal result && is_null speakerName)%bool then
    let extractionResult := NameExtractor.extractName (transcript result) in
    if NameExtractor.isValidName (NameExtractor.name extractionResult) then
      let call :=
        saveSpeakerMapping (meetingId session) (speakerTag result)
          (NameExtractor.name extractionResult) in
      if saved then
        emit_and_save
          (set_mapping session (speakerTag result) (NameExtractor.name extractionResult))
          result (Some (NameExtractor.name extractionResult))
          [speakerEnrolled (speakerTag result) (NameExtractor.name extractionResult)
             (NameExtractor.confidence extractionResult)
             (NameExtractor.method extractionResult)]
          [call]
      else
        {| h_session := session; h_emitted := []; h_calls := [call];
           h_rejected := true |}
    else emit_and_save session result speakerName [] []
  else emit_and_save session result speakerName [] [].

(** ** Notions the properties are stated with *)

Definition is_saveSpeakerMapping (c : Call) : bool :=
  match c with saveSpeakerMapping _ _ _ => true | saveSegment _ _ => false end.

Definition is_saveSegment (c : Call) : bool :=
  match c with saveSegment _ _ => true | saveSpeakerMapping _ _ _ => false end.

(** The two events every handled result ends with. *)
Definition transcript_events (session : ClientSession) (result : TranscriptResult)
  (speakerName : option string) : list Emitted :=
  [transcript_to_client result speakerName;
   transcriptUpdate ("meeting:" ++ meetingId session) (transcript result)
     (speakerTag result) speakerName (isFinal result)].

End Gateway.

(* ================================================================== *)
(** * Proofs: the batch diarization reconciler *)
(* ================================================================== *)

Section MapLemmas.
Import JS.
Variables (K V : Type) (eqb : K -> K -> bool).
Hypothesis eqb_spec : forall a b, eqb a b = true <-> a = b.

Lemma Map_get_set (m : Map K V) (k k' : K) (v : V) :
  Map_get eqb (Map_set eqb m k v) k' = if eqb k k' then Some v else Map_get eqb m k'.
Proof.
  induction m as [|[k0 v0] m IH]; simpl.
  - reflexivity.
  - destruct (eqb k0 k) eqn:E0; simpl.
    + apply eqb_spec in E0. subst k0. destruct (eqb k k'); reflexivity.
    + rewrite IH. destruct (eqb k0 k') eqn:E1; [|reflexivity].
      destruct (eqb k k') eqn:E2; [|reflexivity].
      apply eqb_spec in E1, E2. subst k0 k'.
      assert (eqb k k = true) by (apply eqb_spec; reflexivity). congruence.
Qed.

End MapLemmas.

Section Reassignment.
Import JS BatchDiarization.

Lemma sort_insert_perm x l : Permutation (x :: l) (sort_insert x l).
Proof.
  induction l as [|y l IH]; simpl.
  - apply Permutation_refl.
  - destruct (x <=? y)%string.
    + apply Permutation_refl.
    + eapply perm_trans; [apply perm_swap|]. apply perm_skip, IH.
Qed.

Lemma Array_sort_perm l : Permutation l (Array_sort l).
Proof.
  induction l as [|x l IH]; simpl.
  - apply perm_nil.
  - eapply perm_trans; [apply perm_skip, IH|]. apply sort_insert_perm.
Qed.

Lemma sort_insert_hd z x l :
  string_le z x -> HdRel string_le z l -> HdRel string_le z (sort_insert x l).
Proof.
  intros Hzx Hz. destruct l as [|y l]; simpl.
  - constructor. exact Hzx.
  - destruct (x <=? y)%string; constructor.
    + exact Hzx.
    + inversion Hz; assumption.
Qed.

Lemma sort_insert_sorted x l : Sorted string_le l -> Sorted string_le (sort_insert x l).
Proof.
  induction 1 as [|y l Hs IH Hhd]; simpl.
  - repeat constructor.
  - destruct (x <=? y)%string eqn:E.
    + constructor; [constructor; assumption|]. constructor. exact E.
    + constructor; [exact IH|]. apply sort_insert_hd; [|exact Hhd].
      destruct (String.leb_total x y) as [H|H]; [congruence|exact H].
Qed.

Lemma Array_sort_sorted l : Sorted string_le (Array_sort l).
Proof.
  induction l as [|x l IH]; simpl; [constructor|]. apply sort_insert_sorted, IH.
Qed.

Lemma le_neq_lt a b : string_le a b -> a <> b -> string_lt a b.
Proof.
  unfold string_le, string_lt, String.leb, String.ltb. intros Hle Hne.
  destruct (a ?= b)%string eqn:E; try reflexivity; try discriminate.
  apply String.compare_eq_iff in E. contradiction.
Qed.

Lemma sorted_nodup_strict l : Sorted string_le l -> NoDup l -> Sorted string_lt l.
Proof.
  induction 1 as [|x l Hs IH Hhd]; intros Hnd; [constructor|].
  inversion Hnd as [|? ? Hnin Hnd']; subst.
  constructor; [apply IH, Hnd'|].
  destruct Hhd as [|y l' Hxy]; constructor.
  apply le_neq_lt; [exact Hxy|]. intros ->. apply Hnin. left. reflexivity.
Qed.

Lemma existsb_eqb_In x seen : existsb (String.eqb x) seen = true <-> In x seen.
Proof.
  rewrite existsb_exists. split.
  - intros [y [Hy E]]. apply String.eqb_eq in E. subst. exact Hy.
  - intros H. exists x. split; [exact H|apply String.eqb_refl].
Qed.

Lemma Set_spread_In seen l x :
  In x (Set_spread seen l) <-> In x l /\ ~ In x seen.
Proof.
  revert seen. induction l as [|y l IH]; intros seen; simpl.
  - tauto.
  - destruct (existsb (String.eqb y) seen) eqn:E.
    + apply existsb_eqb_In in E. rewrite IH. split.
      * intros [H1 H2]. tauto.
      * intros [[->|H1] H2]; [contradiction|tauto].
    + assert (Hy : ~ In y seen).
      { intros H. apply existsb_eqb_In in H. congruence. }
      simpl. rewrite IH. simpl. split.
      * intros [->|[H1 H2]]; [tauto|]. split; [tauto|]. intros H. apply H2. right. exact H.
      * intros [[->|H1] H2]; [tauto|].
        destruct (string_dec y x) as [->|Hne]; [tauto|]. right. split; [exact H1|].
        intros [H|H]; [contradiction|contradiction].
Qed.

Lemma Set_spread_NoDup seen l : NoDup (Set_spread seen l).
Proof.
  revert seen. induction l as [|y l IH]; intros seen; simpl.
  - constructor.
  - destruct (existsb (String.eqb y) seen); [apply IH|].
    constructor; [|apply IH]. rewrite Set_spread_In. simpl. tauto.
Qed.

Lemma uniqueSpeakers_In spans l :
  In l (uniqueSpeakers spans) <-> In l (map speaker spans).
Proof.
  unfold uniqueSpeakers. split.
  - intros H. apply Permutation_sym in H || idtac.
    eapply Permutation_in in H; [|apply Permutation_sym, Array_sort_perm].
    apply Set_spread_In in H. tauto.
  - intros H. eapply Permutation_in; [apply Array_sort_perm|].
    apply Set_spread_In. simpl. tauto.
Qed.

Lemma uniqueSpeakers_NoDup spans : NoDup (uniqueSpeakers spans).
Proof.
  unfold uniqueSpeakers. eapply Permutation_NoDup; [apply Array_sort_perm|].
  apply Set_spread_NoDup.
Qed.

Lemma uniqueSpeakers_sorted spans : Sorted string_lt (uniqueSpeakers spans).
Proof.
  apply sorted_nodup_strict; [apply Array_sort_sorted|apply uniqueSpeakers_NoDup].
Qed.

Lemma string_eqb_spec a b : String.eqb a b = true <-> a = b.
Proof. apply String.eqb_eq. Qed.

Lemma forEach_set_other l i m k :
  ~ In k l -> Map_get String.eqb (forEach_set l i m) k = Map_get String.eqb m k.
Proof.
  revert i m. induction l as [|s l IH]; intros i m Hk; simpl; [reflexivity|].
  rewrite IH by (intros H; apply Hk; right; exact H).
  rewrite (Map_get_set String.eqb string_eqb_spec).
  destruct (String.eqb s k) eqn:E; [|reflexivity].
  apply String.eqb_eq in E. subst. exfalso. apply Hk. left. reflexivity.
Qed.

Lemma forEach_set_nth l : forall i m j k,
  NoDup l -> nth_error l j = Some k ->
  Map_get String.eqb (forEach_set l i m) k = Some (Z.of_nat (i + j) + 1).
Proof.
  induction l as [|s l IH]; intros i m j k Hnd Hj.
  - destruct j; discriminate.
  - inversion Hnd as [|? ? Hnin Hnd']; subst. destruct j as [|j]; simpl in *.
    + injection Hj as ->. rewrite forEach_set_other by exact Hnin.
      rewrite (Map_get_set String.eqb string_eqb_spec), String.eqb_refl.
      rewrite Nat.add_0_r. reflexivity.
    + rewrite (IH (S i) _ j k Hnd' Hj). do 2 f_equal. lia.
Qed.

Lemma tag_of_index spans i l :
  nth_error (uniqueSpeakers spans) i = Some l ->
  tag_of (speakerMap spans) l = Z.of_nat i + 1.
Proof.
  intros H. unfold tag_of, speakerMap.
  rewrite (forEach_set_nth 0 [] i (uniqueSpeakers_NoDup spans) H). simpl.
  unfold or_Z. destruct (Z.of_nat i + 1 =? 0) eqn:E; [lia|reflexivity].
Qed.

Lemma tag_of_absent spans l :
  ~ In l (uniqueSpeakers spans) -> tag_of (speakerMap spans) l = 1.
Proof.
  intros H. unfold tag_of, speakerMap. rewrite forEach_set_other by exact H.
  reflexivity.
Qed.

Lemma scan_spans_find spans mid d :
  scan_spans spans mid d =
  match List.find (fun ps => contains ps mid) spans with
  | Some ps => speaker ps
  | None => d
  end.
Proof.
  induction spans as [|ps spans IH]; simpl; [reflexivity|].
  destruct (contains ps mid); [reflexivity|exact IH].
Qed.

End Reassignment.

Section StringLemmas.

Lemma append_assoc (a b c : string) : ((a ++ b) ++ c = a ++ (b ++ c))%string.
Proof. induction a as [|x a IH]; simpl; [reflexivity|]. rewrite IH. reflexivity. Qed.

Lemma append_nil_r (a : string) : (a ++ "")%string = a.
Proof. induction a as [|x a IH]; simpl; [reflexivity|]. rewrite IH. reflexivity. Qed.

Lemma length_append (a b : string) :
  String.length (a ++ b) = (String.length a + String.length b)%nat.
Proof. induction a as [|x a IH]; simpl; [reflexivity|]. rewrite IH. reflexivity. Qed.

End StringLemmas.

Section Merge.
Import JS BatchDiarization.

Lemma merge_loop_snoc p x : merge_loop (p ++ [x]) = merge_step (merge_loop p) x.
Proof. unfold merge_loop. rewrite fold_left_app. reflexivity. Qed.

Lemma fuse_snoc h t x : fuse h (t ++ [x]) = absorb (fuse h t) x.
Proof. unfold fuse. rewrite fold_left_app. reflexivity. Qed.

Lemma fuse_speakerTag h t : m_speakerTag (fuse h t) = speakerTag h.
Proof.
  induction t as [|x t IH] using rev_ind; [reflexivity|].
  rewrite fuse_snoc. exact IH.
Qed.

Lemma fuse_startTime h t : m_startTime (fuse h t) = startTime h.
Proof.
  induction t as [|x t IH] using rev_ind; [reflexivity|].
  rewrite fuse_snoc. exact IH.
Qed.

Lemma fuse_endTime h t : m_endTime (fuse h t) = endTime (last t h).
Proof.
  induction t as [|x t IH] using rev_ind; [reflexivity|].
  rewrite fuse_snoc, last_last. reflexivity.
Qed.

Lemma concat_snoc sep l x :
  l <> [] -> String.concat sep (l ++ [x]) = (String.concat sep l ++ sep ++ x)%string.
Proof.
  induction l as [|a l IH]; intros Hne; [contradiction|].
  destruct l as [|b l].
  - reflexivity.
  - change ((a :: b :: l) ++ [x]) with (a :: ((b :: l) ++ [x])).
    change (String.concat sep (a :: (b :: l) ++ [x]))
      with (a ++ sep ++ String.concat sep ((b :: l) ++ [x]))%string.
    rewrite IH by discriminate.
    change (String.concat sep (a :: b :: l))
      with (a ++ sep ++ String.concat sep (b :: l))%string.
    rewrite !append_assoc. reflexivity.
Qed.

Lemma fuse_transcript h t :
  m_transcript (fuse h t) = String.concat " " (map transcript (h :: t)).
Proof.
  induction t as [|x t IH] using rev_ind; [reflexivity|].
  rewrite fuse_snoc. simpl m_transcript. rewrite IH.
  change (h :: t ++ [x]) with ((h :: t) ++ [x]). rewrite map_app.
  simpl (map transcript [x]). rewrite concat_snoc by discriminate. reflexivity.
Qed.

Lemma fuse_confidence h t : m_confidence (fuse h t) = min_confidence h t.
Proof.
  induction t as [|x t IH] using rev_ind; [reflexivity|].
  rewrite fuse_snoc. unfold min_confidence. rewrite fold_left_app. simpl.
  rewrite IH. reflexivity.
Qed.

Lemma adjacent_distinct_snoc l a b :
  adjacent_distinct (l ++ [a]) -> a <> b -> adjacent_distinct ((l ++ [a]) ++ [b]).
Proof.
  induction l as [|x l IH]; simpl; intros H Hab.
  - tauto.
  - destruct l as [|y l]; simpl in *.
    + tauto.
    + destruct H as [Hxy H]. split; [exact Hxy|]. apply IH; assumption.
Qed.

Lemma Forall2_snoc (A B : Type) (R : A -> B -> Prop) l1 l2 a b :
  Forall2 R l1 l2 -> R a b -> Forall2 R (l1 ++ [a]) (l2 ++ [b]).
Proof. intros H1 H2. apply Forall2_app; [exact H1|]. constructor; [exact H2|constructor]. Qed.

Lemma merge_loop_inv p : merge_inv p (merge_loop p).
Proof.
  induction p as [|x p IH] using rev_ind.
  - simpl. split; reflexivity.
  - rewrite merge_loop_snoc. destruct (merge_loop p) as [[current|] merged]; simpl in *.
    + destruct IH as (blocks & block & Hp & Hbs & Hb & Had).
      destruct (speakerTag x =? m_speakerTag current) eqn:E.
      * apply Z.eqb_eq in E. inversion Hb as [h t Hall]; subst block current.
        exists blocks, (h :: t ++ [x]). split; [|split; [|split]].
        -- rewrite Hp, <- app_assoc. reflexivity.
        -- exact Hbs.
        -- rewrite <- fuse_snoc. constructor. apply Forall_app. split; [exact Hall|].
           constructor; [|constructor]. rewrite E. apply fuse_speakerTag.
        -- rewrite map_app in *. simpl. exact Had.
      * apply Z.eqb_neq in E. exists (blocks ++ [block]), [x]. split; [|split; [|split]].
        -- rewrite concat_app. simpl. rewrite app_nil_r, Hp. reflexivity.
        -- apply Forall2_snoc; assumption.
        -- apply (@fuses_block x []). constructor.
        -- rewrite !map_app in *. simpl in *. apply adjacent_distinct_snoc; [exact Had|].
           intros H. apply E. symmetry. exact H.
    + destruct IH as [-> ->]. exists [], [x]. split; [|split; [|split]].
      * reflexivity.
      * constructor.
      * apply (@fuses_block x []). constructor.
      * exact I.
Qed.

Lemma mergeSegments_blocks l :
  adjacent_distinct (map m_speakerTag (mergeSegments l)) /\
  exists blocks, List.concat blocks = l /\ Forall2 fuses blocks (mergeSegments l).
Proof.
  unfold mergeSegments. pose proof (merge_loop_inv l) as H.
  destruct (merge_loop l) as [[current|] merged]; simpl in H.
  - destruct H as (blocks & block & Hp & Hbs & Hb & Had). split; [exact Had|].
    exists (blocks ++ [block]). split.
    + rewrite concat_app. simpl. rewrite app_nil_r. symmetry. exact Hp.
    + apply Forall2_snoc; assumption.
  - destruct H as [-> ->]. split; [exact I|]. exists []. split; constructor.
Qed.

(** A step of either merge loop on a segment that carries the tag of
    [current]. *)
Lemma merge_step_same current merged segment :
  speakerTag segment = m_speakerTag current ->
  merge_step (Some current, merged) segment =
  (Some {| m_speakerTag := m_speakerTag current;
           m_transcript := (m_transcript current ++ " " ++ transcript segment)%string;
           m_startTime := m_startTime current;
           m_endTime := endTime segment;
           m_confidence := Math_min (m_confidence current) (confidence segment) |},
   merged).
Proof. intros H. simpl. rewrite H, Z.eqb_refl. reflexivity. Qed.

Lemma d_merge_step_same current merged segment :
  d_speakerTag segment = d_speakerTag current ->
  d_merge_step (current, merged) segment =
  ({| d_speakerTag := d_speakerTag current; d_speaker := d_speaker current;
      d_transcript := (d_transcript current ++ " " ++ d_transcript segment)%string;
      d_startTime := d_startTime current;
      d_endTime := d_endTime segment;
      d_confidence := d_confidence current |},
   merged).
Proof. intros H. simpl. rewrite H, Z.eqb_refl. reflexivity. Qed.

End Merge.

Section Persist.
Import JS BatchDiarization.

Lemma carried_out_le fs n : (carried_out fs n <= n)%nat.
Proof.
  revert fs. induction n as [|n IH]; intros fs; simpl; [lia|].
  destruct fs as [|[|] fs]; simpl; [specialize (IH [])|lia|specialize (IH fs)]; simpl in IH; lia.
Qed.

Lemma segmentRepository_call_bind (A B : Type)
  (run : list TranscriptSegment -> A * list TranscriptSegment) (k : A -> M B) db :
  bind (segmentRepository_call run) k db =
  match faults db with
  | true :: fs =>
      (Rejected "QueryFailedError",
       {| rows := rows db; statuses := statuses db; faults := fs |})
  | fs =>
      k (fst (run (rows db)))
        {| rows := snd (run (rows db)); statuses := statuses db; faults := tl fs |}
  end.
Proof.
  unfold bind, segmentRepository_call.
  destruct (faults db) as [|[|] fs]; simpl; try reflexivity;
    destruct (run (rows db)); reflexivity.
Qed.

Lemma save_all_spec l : forall db,
  let k := carried_out (faults db) (List.length l) in
  rows (snd (save_all l db)) = rows db ++ firstn k l /\
  statuses (snd (save_all l db)) = statuses db /\
  fst (save_all l db) =
    if (k =? List.length l)%nat then Resolved tt else Rejected "QueryFailedError".
Proof.
  induction l as [|s l IH]; intros db; simpl.
  - rewrite app_nil_r. repeat split.
  - unfold save. rewrite segmentRepository_call_bind.
    destruct (faults db) as [|[|] fs] eqn:Ef; simpl.
    + specialize (IH {| rows := rows db ++ [s]; statuses := statuses db; faults := [] |}).
      simpl in IH. destruct IH as (H1 & H2 & H3).
      split; [rewrite H1, <- app_assoc; reflexivity|split; [exact H2|exact H3]].
    + rewrite app_nil_r. repeat split.
    + specialize (IH {| rows := rows db ++ [s]; statuses := statuses db; faults := fs |}).
      simpl in IH. destruct IH as (H1 & H2 & H3).
      split; [rewrite H1, <- app_assoc; reflexivity|split; [exact H2|exact H3]].
Qed.

Lemma filter_of_meeting_created id l :
  filter (of_meeting id) (map (create id) l) = map (create id) l.
Proof.
  induction l as [|m l IH]; simpl; [reflexivity|].
  unfold of_meeting at 1. simpl. rewrite String.eqb_refl, IH. reflexivity.
Qed.

Lemma filter_firstn_all (A : Type) (f : A -> bool) (l : list A) k :
  filter f l = l -> filter f (firstn k l) = firstn k l.
Proof.
  revert k. induction l as [|x l IH]; intros k H; destruct k; simpl in *; try reflexivity.
  destruct (f x) eqn:E.
  - injection H as H. rewrite IH by exact H. reflexivity.
  - exfalso. assert (Hlen : (List.length (filter f l) <= List.length l)%nat)
      by apply filter_length_le.
    rewrite H in Hlen. simpl in Hlen. lia.
Qed.

Lemma filter_none (A : Type) (f : A -> bool) (l : list A) :
  filter f l = l -> filter (fun x => negb (f x)) l = [].
Proof.
  induction l as [|x l IH]; intros H; simpl in *; [reflexivity|].
  destruct (f x) eqn:E; simpl.
  - injection H as H. apply IH, H.
  - exfalso. assert (Hlen : (List.length (filter f l) <= List.length l)%nat)
      by apply filter_length_le.
    rewrite H in Hlen. simpl in Hlen. lia.
Qed.

Lemma filter_filter_neg (A : Type) (f : A -> bool) (l : list A) :
  filter f (filter (fun x => negb (f x)) l) = [].
Proof.
  induction l as [|x l IH]; simpl; [reflexivity|].
  destruct (f x) eqn:E; simpl; [exact IH|]. rewrite E. exact IH.
Qed.

Lemma filter_idem (A : Type) (f : A -> bool) (l : list A) :
  filter f (filter f l) = filter f l.
Proof.
  induction l as [|x l IH]; simpl; [reflexivity|].
  destruct (f x) eqn:E; simpl; [rewrite E, IH; reflexivity|exact IH].
Qed.

End Persist.

Section BatchClaims.
Import JS BatchDiarization.

Lemma StronglySorted_app_r (A : Type) (R : A -> A -> Prop) l1 l2 :
  StronglySorted R (l1 ++ l2) -> StronglySorted R l2.
Proof.
  induction l1 as [|x l1 IH]; simpl; intros H; [exact H|].
  inversion H; subst. apply IH. assumption.
Qed.

(** The start times of the merged segments are those of the first segments
    of the blocks. *)
Lemma fuses_startTimes blocks merged :
  Forall2 fuses blocks merged ->
  exists rest,
    Forall2 (fun block r => exists h t, block = h :: t /\ r = (h, t)) blocks rest /\
    map m_startTime merged = map (fun r => startTime (fst r)) rest.
Proof.
  induction 1 as [|block m blocks merged Hf Hfs IH].
  - exists []. split; constructor.
  - destruct IH as (rest & Hr & Hm). inversion Hf as [h t Hall]; subst.
    exists ((h, t) :: rest). split.
    + constructor; [exists h, t; split; reflexivity|exact Hr].
    + simpl. rewrite fuse_startTime, Hm. reflexivity.
Qed.

Lemma sorted_block_heads (R : number -> number -> Prop) blocks rest :
  Forall2 (fun block r => exists h t, block = h :: t /\ r = (h, t)) blocks rest ->
  StronglySorted R (map startTime (List.concat blocks)) ->
  StronglySorted R (map (fun r : TranscriptSegment * list TranscriptSegment =>
                           startTime (fst r)) rest).
Proof.
  induction 1 as [|block r blocks rest (h & t & -> & ->) Hfs IH]; intros Hs.
  - constructor.
  - simpl in *. inversion Hs as [|? ? Hs' Hall]; subst.
    rewrite map_app in Hs', Hall. constructor.
    + apply IH. eapply StronglySorted_app_r. exact Hs'.
    + apply Forall_app in Hall. destruct Hall as [_ Hall].
      clear -Hfs Hall. induction Hfs as [|block r blocks rest (h' & t' & -> & ->) Hfs IH'].
      * constructor.
      * simpl in *. inversion Hall as [|? ? Hh Hall']; subst. constructor; [exact Hh|].
        apply IH'. rewrite map_app in Hall'. apply Forall_app in Hall'. tauto.
Qed.

Lemma startTimes_kept segments l :
  Forall2 (fun s s' => s' = with_speakerTag s (speakerTag s')) segments l ->
  map startTime l = map startTime segments.
Proof.
  induction 1 as [|s s' segments l Hs Hl IH]; simpl; [reflexivity|].
  rewrite IH, Hs. reflexivity.
Qed.

(** C2, as amended.  The distinct span labels are sorted in ascending order
    and the tag of a label is its index in that order plus one (a label that
    is no span's label has tag 1); every segment gets the tag of the first
    span, in the given order, whose closed interval contains the segment's
    midpoint, and a segment whose midpoint lies in no span gets the tag of the
    label [SPEAKER_00], which is 1 only when that label is absent or sorts
    first. *)
Theorem reassignment_rule (spans : list PyannoteSegment) (segments : list TranscriptSegment) :
  let labels := uniqueSpeakers spans in
  let tag := tag_of (speakerMap spans) in
  Sorted string_lt labels /\
  (forall l, In l labels <-> In l (map speaker spans)) /\
  (forall i l, nth_error labels i = Some l -> tag l = Z.of_nat i + 1) /\
  (forall l, ~ In l labels -> tag l = 1) /\
  map speakerTag (segmentsWithSpeakers segments spans) =
  map (fun segment =>
         match List.find (fun ps => contains ps (segmentMid segment)) spans with
         | Some ps => tag (speaker ps)
         | None => tag "SPEAKER_00"
         end) segments.
Proof.
  intros labels tag. split; [apply uniqueSpeakers_sorted|].
  split; [intros l; apply uniqueSpeakers_In|].
  split; [intros i l; apply tag_of_index|].
  split; [intros l; apply tag_of_absent|].
  unfold segmentsWithSpeakers. rewrite map_map. apply map_ext. intros segment.
  simpl. unfold assignedSpeaker. rewrite scan_spans_find.
  destruct (List.find _ spans); reflexivity.
Qed.

(** C2 fails as stated: with the span labels [A] and [SPEAKER_00], a segment
    whose midpoint 2.5 lies in no span gets tag 2. *)
Lemma unmatched_segment_gets_tag_2 :
  let spans := [span "A" 0 1; span "SPEAKER_00" 5 6] in
  let segment := live 1 "Hello" 0.9 2 3 in
  List.find (fun ps => contains ps (segmentMid segment)) spans = None /\
  map speakerTag (segmentsWithSpeakers [segment] spans) = [2] /\
  map speakerTag (segmentsWithSpeakers [segment] spans) <> [1].
Proof.
  split; [reflexivity|]. split; [reflexivity|]. discriminate.
Qed.

(** C3 at the failing input: two adjacent segments of one speaker with the
    confidences 0.9 and 0.4, as [transcribeFile] returns them for two results
    without word-level timing.  The merge after diarization joins the texts
    with one space, takes the later end time and the smaller confidence 0.4;
    the merge of the whole-file transcription path joins the texts and takes
    the later end time alike, but keeps the first confidence 0.9. *)
Theorem batch_merge_keeps_first_confidence :
  mergeSegments [live 1 "Hello" 0.9 0 1; live 1 "World" 0.4 1 2] =
    [{| m_speakerTag := 1; m_transcript := "Hello World"; m_startTime := 0%float;
        m_endTime := 2%float; m_confidence := 0.4%float |}] /\
  mergeConsecutiveSpeakerSegments
    (map toDiarizedSegment [transcribed "Hello" 0.9; transcribed "World" 0.4]) =
    [{| d_speakerTag := 1; d_speaker := "SPEAKER_01"; d_transcript := "Hello World";
        d_startTime := 0%float; d_endTime := 0%float;
        d_confidence := Some 0.9%float |}] /\
  Math_min 0.9%float 0.4%float = 0.4%float.
Proof. repeat split. Qed.

(** C4, as amended.  [assignSpeakersAndMergeSegments] deletes the meeting's
    segments and then saves the merged segments one by one, outside any
    transaction.  When the delete is rejected the table is as it was.
    Otherwise the meeting's persisted segments are the first [k] merged
    segments, [k] being the number of saves carried out before the first
    rejected one; the call resolves when all were carried out and rejects
    otherwise.  The segments of other meetings and the meeting statuses are
    never touched. *)
Theorem replace_is_delete_then_insert (id : string) (segments : list TranscriptSegment)
  (spans : list PyannoteSegment) (db : Db) :
  let merged := map (create id) (reconcile segments spans) in
  let run := assignSpeakersAndMergeSegments id segments spans db in
  statuses (snd run) = statuses db /\
  filter (other_meeting id) (rows (snd run)) = filter (other_meeting id) (rows db) /\
  match faults db with
  | true :: _ => rows (snd run) = rows db /\ fst run = Rejected "QueryFailedError"
  | fs =>
      let k := carried_out (tl fs) (List.length merged) in
      filter (of_meeting id) (rows (snd run)) = firstn k merged /\
      fst run = if (k =? List.length merged)%nat then Resolved tt
                else Rejected "QueryFailedError"
  end.
Proof.
  intros merged run. subst run. unfold assignSpeakersAndMergeSegments, delete.
  fold merged. rewrite segmentRepository_call_bind.
  assert (Hm : filter (of_meeting id) merged = merged)
    by apply filter_of_meeting_created.
  assert (Hgen : forall fs,
    let db1 := {| rows := filter (fun s => negb (of_meeting id s)) (rows db);
                  statuses := statuses db; faults := fs |} in
    let k := carried_out fs (List.length merged) in
    statuses (snd (save_all merged db1)) = statuses db /\
    filter (other_meeting id) (rows (snd (save_all merged db1))) =
      filter (other_meeting id) (rows db) /\
    filter (of_meeting id) (rows (snd (save_all merged db1))) = firstn k merged /\
    fst (save_all merged db1) =
      if (k =? List.length merged)%nat then Resolved tt else Rejected "QueryFailedError").
  { intros fs db1 k. destruct (save_all_spec merged db1) as (H1 & H2 & H3).
    simpl in H1, H2, H3. fold k in H1, H3. split; [exact H2|].
    rewrite H1, !filter_app. unfold other_meeting.
    rewrite filter_idem, filter_filter_neg.
    rewrite (@filter_firstn_all _ _ _ k Hm).
    assert (Hn : filter (fun s => negb (of_meeting id s)) (firstn k merged) = []).
    { apply filter_none. apply filter_firstn_all. exact Hm. }
    rewrite Hn, app_nil_r. simpl. repeat split. exact H3. }
  destruct (faults db) as [|[|] fs] eqn:Ef; simpl.
  - destruct (Hgen []) as (H1 & H2 & H3 & H4). repeat split; assumption.
  - repeat split.
  - destruct (Hgen fs) as (H1 & H2 & H3 & H4). repeat split; assumption.
Qed.

(** C4 fails as stated: two live segments, diarization spans [A] and [B],
    and a database that rejects the second save.  The table is left with the
    first merged segment only, which is neither the original list nor the
    merged list, and the run ends with the status [completed]. *)
Lemma partial_update_and_completed :
  let original := [live 1 "Hello" 0.9 0 1; live 2 "World" 0.8 1 2] in
  let spans := [span "A" 0 1; span "B" 1 2] in
  let env := {| isDiarizationAvailable := true; convertToWav := Resolved tt;
                callPyannoteDiarization := Resolved spans; isAvailable := true;
                transcribeFile := Resolved []; getSpeakerMappings := [] |} in
  let db := {| rows := original; statuses := [("m", "processing")];
               faults := [false; false; false; true] |} in
  let merged := map (create "m") (reconcile original spans) in
  let db' := snd (processAudioFile env "m" db) in
  List.length merged = 2%nat /\
  rows db' = firstn 1 merged /\
  rows db' <> original /\
  rows db' <> merged /\
  Map_get String.eqb (statuses db') "m" = Some "completed".
Proof.
  cbv zeta. split; [reflexivity|]. split; [reflexivity|].
  split; [|split]; [vm_compute; discriminate|vm_compute; discriminate|reflexivity].
Qed.

(** C5.  Whatever the spans and the segments, no two adjacent segments of the
    reconciled list carry one speaker tag, and the list keeps the order of the
    segments: it is, block by block, the fusion of consecutive blocks of the
    reassigned segments, which are the given segments in their order with new
    tags; so when the segments are ordered by start time (whatever order [R]
    is meant), the reconciled list is too. *)
Theorem reconcile_ordered_no_adjacent_same_tag
  (segments : list TranscriptSegment) (spans : list PyannoteSegment) :
  let merged := reconcile segments spans in
  adjacent_distinct (map m_speakerTag merged) /\
  (exists blocks,
     Forall2 (fun s s' => s' = with_speakerTag s (speakerTag s'))
             segments (List.concat blocks) /\
     Forall2 fuses blocks merged) /\
  (forall R : number -> number -> Prop,
     StronglySorted R (map startTime segments) ->
     StronglySorted R (map m_startTime merged)).
Proof.
  intros merged. subst merged. unfold reconcile.
  destruct (mergeSegments_blocks (segmentsWithSpeakers segments spans))
    as (Had & blocks & Hc & Hf).
  assert (Hk : Forall2 (fun s s' => s' = with_speakerTag s (speakerTag s'))
                 segments (List.concat blocks)).
  { rewrite Hc. unfold segmentsWithSpeakers. clear.
    induction segments as [|s l IH]; simpl; [constructor|].
    constructor; [reflexivity|exact IH]. }
  split; [exact Had|]. split; [exists blocks; split; assumption|].
  intros R Hs. destruct (fuses_startTimes Hf) as (rest & Hr & Hm).
  rewrite Hm. apply (sorted_block_heads Hr).
  rewrite (startTimes_kept Hk). exact Hs.
Qed.

End BatchClaims.

(* ================================================================== *)
(** * Proofs: the result normalizers *)
(* ================================================================== *)

Section Dominant.
Import JS Normalizer.

Lemma Z_eqb_spec a b : Z.eqb a b = true <-> a = b.
Proof. apply Z.eqb_eq. Qed.

Lemma existsb_Zeqb_In t ks : existsb (Z.eqb t) ks = true <-> In t ks.
Proof.
  rewrite existsb_exists. split.
  - intros [y [Hy E]]. apply Z.eqb_eq in E. subst. exact Hy.
  - intros H. exists t. split; [exact H|apply Z.eqb_refl].
Qed.

Lemma firsts_snoc p t : firsts (p ++ [t]) = firsts_step (firsts p) t.
Proof. unfold firsts. rewrite fold_left_app. reflexivity. Qed.

Lemma firsts_In p k : In k (firsts p) <-> In k p.
Proof.
  induction p as [|t p IH] using rev_ind; [simpl; tauto|].
  rewrite firsts_snoc, in_app_iff. unfold firsts_step.
  destruct (existsb (Z.eqb t) (firsts p)) eqn:E.
  - apply (proj1 (existsb_Zeqb_In _ _)) in E. simpl. rewrite IH. split; [tauto|].
    intros [H|[->|[]]]; [exact H|]. apply IH. exact E.
  - rewrite in_app_iff, IH. tauto.
Qed.

Lemma firsts_NoDup p : NoDup (firsts p).
Proof.
  induction p as [|t p IH] using rev_ind; [constructor|].
  rewrite firsts_snoc. unfold firsts_step.
  destruct (existsb (Z.eqb t) (firsts p)) eqn:E; [exact IH|].
  assert (Hn : ~ In t (firsts p)).
  { intros H. apply (proj2 (existsb_Zeqb_In _ _)) in H. congruence. }
  clear E. induction (firsts p) as [|x l IHl]; simpl.
  - constructor; [intros []|constructor].
  - inversion IH as [|? ? Hx Hl]; subst. constructor.
    + rewrite in_app_iff. simpl. intros [H|[H|[]]]; [contradiction|].
      apply Hn. left. symmetry. exact H.
    + apply IHl; [exact Hl|]. intros H. apply Hn. right. exact H.
Qed.

Lemma occurrences_snoc p t k :
  occurrences k (p ++ [t]) = (occurrences k p + if Z.eqb t k then 1 else 0)%nat.
Proof. induction p as [|x p IH]; simpl; [lia|]. rewrite IH. lia. Qed.

Lemma occurrences_pos p k : In k p -> (0 < occurrences k p)%nat.
Proof.
  induction p as [|x p IH]; simpl; [intros []|].
  intros [->|H]; [rewrite Z.eqb_refl; lia|]. specialize (IH H). lia.
Qed.

Lemma first_index_lt p k : In k p -> (first_index k p < List.length p)%nat.
Proof.
  induction p as [|x p IH]; simpl; [intros []|]. intros H.
  destruct (x =? k) eqn:E; [lia|]. apply Z.eqb_neq in E.
  destruct H as [H|H]; [contradiction|]. specialize (IH H). lia.
Qed.

Lemma first_index_absent p k : ~ In k p -> first_index k p = List.length p.
Proof.
  induction p as [|x p IH]; simpl; [reflexivity|]. intros H.
  destruct (x =? k) eqn:E.
  - apply Z.eqb_eq in E. exfalso. apply H. left. exact E.
  - rewrite IH; [reflexivity|]. intros H'. apply H. right. exact H'.
Qed.

Lemma first_index_app_l p q k : In k p -> first_index k (p ++ q) = first_index k p.
Proof.
  induction p as [|x p IH]; simpl; [intros []|]. intros H.
  destruct (x =? k) eqn:E; [reflexivity|]. apply Z.eqb_neq in E.
  destruct H as [H|H]; [contradiction|]. rewrite IH by exact H. reflexivity.
Qed.

Lemma first_index_app_r p q k :
  ~ In k p -> first_index k (p ++ q) = (List.length p + first_index k q)%nat.
Proof.
  induction p as [|x p IH]; simpl; [reflexivity|]. intros H.
  destruct (x =? k) eqn:E.
  - apply Z.eqb_eq in E. exfalso. apply H. left. exact E.
  - rewrite IH; [reflexivity|]. intros H'. apply H. right. exact H'.
Qed.

Lemma StronglySorted_snoc (A : Type) (R : A -> A -> Prop) l x :
  StronglySorted R l -> Forall (fun a => R a x) l -> StronglySorted R (l ++ [x]).
Proof.
  induction 1 as [|a l Hs IH Ha]; intros Hx; simpl.
  - constructor; constructor.
  - inversion Hx; subst. constructor; [apply IH; assumption|].
    apply Forall_app. split; [exact Ha|]. constructor; [assumption|constructor].
Qed.

Lemma StronglySorted_weaken (A : Type) (R R' : A -> A -> Prop) l :
  (forall a b, In a l -> In b l -> R a b -> R' a b) ->
  StronglySorted R l -> StronglySorted R' l.
Proof.
  intros HR. induction 1 as [|a l Hs IH Ha]; [constructor|].
  constructor.
  - apply IH. intros x y Hx Hy. apply HR; right; assumption.
  - rewrite Forall_forall in *. intros x Hx. apply HR; [left; reflexivity|right; exact Hx|].
    apply Ha, Hx.
Qed.

Lemma StronglySorted_split (A : Type) (R : A -> A -> Prop) l1 a l2 :
  StronglySorted R (l1 ++ a :: l2) -> Forall (R a) l2.
Proof.
  induction l1 as [|x l1 IH]; simpl; intros H; inversion H; subst; [assumption|].
  apply IH. assumption.
Qed.

Lemma firsts_sorted p : StronglySorted (earlier p) (firsts p).
Proof.
  induction p as [|t p IH] using rev_ind; [constructor|].
  rewrite firsts_snoc. unfold firsts_step.
  assert (Hw : StronglySorted (earlier (p ++ [t])) (firsts p)).
  { eapply StronglySorted_weaken; [|exact IH]. intros a b Ha Hb. unfold earlier.
    apply (proj1 (firsts_In _ _)) in Ha, Hb.
    rewrite !first_index_app_l by assumption. exact (fun H => H). }
  destruct (existsb (Z.eqb t) (firsts p)) eqn:E; [exact Hw|].
  assert (Hn : ~ In t p).
  { intros H. apply (proj2 (firsts_In _ _)), (proj2 (existsb_Zeqb_In _ _)) in H. congruence. }
  apply StronglySorted_snoc; [exact Hw|].
  apply Forall_forall. intros a Ha. apply (proj1 (firsts_In _ _)) in Ha. unfold earlier.
  rewrite first_index_app_l by exact Ha. rewrite first_index_app_r by exact Hn.
  pose proof (first_index_lt _ _ Ha). lia.
Qed.

Lemma Map_get_entries f ks t :
  Map_get Z.eqb (entries f ks) t = if existsb (Z.eqb t) ks then Some (f t) else None.
Proof.
  induction ks as [|k ks IH]; simpl; [reflexivity|].
  rewrite (Z.eqb_sym t k). destruct (k =? t) eqn:E.
  - apply Z.eqb_eq in E. subst. reflexivity.
  - exact IH.
Qed.

Lemma Map_set_entries_absent f g ks t v :
  existsb (Z.eqb t) ks = false ->
  (forall k, In k ks -> g k = f k) -> g t = v ->
  Map_set Z.eqb (entries f ks) t v = entries g (ks ++ [t]).
Proof.
  induction ks as [|k ks IH]; simpl; intros E Hg Hv.
  - rewrite Hv. reflexivity.
  - apply orb_false_iff in E. destruct E as [E1 E2]. rewrite Z.eqb_sym in E1. rewrite E1.
    rewrite (Hg k) by (left; reflexivity). f_equal.
    apply IH; [exact E2| |exact Hv]. intros k' Hk'. apply Hg. right. exact Hk'.
Qed.

Lemma Map_set_entries_present f g ks t v :
  NoDup ks -> In t ks ->
  (forall k, In k ks -> k <> t -> g k = f k) -> g t = v ->
  Map_set Z.eqb (entries f ks) t v = entries g ks.
Proof.
  induction ks as [|k ks IH]; simpl; intros Hnd Hin Hg Hv; [contradiction|].
  apply NoDup_cons_iff in Hnd. destruct Hnd as [Hk Hnd']. destruct (k =? t) eqn:E.
  - apply Z.eqb_eq in E. subst k. rewrite Hv. f_equal. unfold entries.
    apply map_ext_in. intros k Hk'. rewrite Hg; [reflexivity|right; exact Hk'|].
    intros ->. contradiction.
  - apply Z.eqb_neq in E. rewrite (Hg k) by (try left; auto). f_equal.
    destruct Hin as [Hin|Hin]; [contradiction|].
    apply IH; [exact Hnd'|exact Hin| |exact Hv].
    intros k' Hk' Hne. apply Hg; [right; exact Hk'|exact Hne].
Qed.

Lemma counts_closed_form p :
  counts p = entries (fun k => Z.of_nat (occurrences k p)) (firsts p).
Proof.
  induction p as [|t p IH] using rev_ind; [reflexivity|].
  unfold counts in *. rewrite fold_left_app. simpl. rewrite IH.
  unfold count_tag. rewrite Map_get_entries, firsts_snoc. unfold firsts_step.
  destruct (existsb (Z.eqb t) (firsts p)) eqn:E.
  - apply Map_set_entries_present.
    + apply firsts_NoDup.
    + apply existsb_Zeqb_In. exact E.
    + intros k _ Hne. rewrite occurrences_snoc.
      destruct (t =? k) eqn:Ek; [apply Z.eqb_eq in Ek; congruence|].
      rewrite Nat.add_0_r. reflexivity.
    + rewrite occurrences_snoc, Z.eqb_refl. unfold or_Z.
      destruct (Z.of_nat (occurrences t p) =? 0) eqn:E0; [apply Z.eqb_eq in E0|]; lia.
  - apply Map_set_entries_absent.
    + exact E.
    + intros k Hk. rewrite occurrences_snoc.
      destruct (t =? k) eqn:Ek.
      * apply Z.eqb_eq in Ek. subst k. apply (proj2 (existsb_Zeqb_In _ _)) in Hk. congruence.
      * rewrite Nat.add_0_r. reflexivity.
    + rewrite occurrences_snoc, Z.eqb_refl.
      assert (Hn : ~ In t p).
      { intros H. apply (proj2 (firsts_In _ _)), (proj2 (existsb_Zeqb_In _ _)) in H. congruence. }
      assert (occurrences t p = 0%nat).
      { clear -Hn. induction p as [|x p IH]; simpl; [reflexivity|].
        destruct (x =? t) eqn:E.
        - apply Z.eqb_eq in E. exfalso. apply Hn. left. exact E.
        - apply IH. intros H. apply Hn. right. exact H. }
      lia.
Qed.

(** The loop that picks the dominant tag returns the first entry with the
    highest count, when a count exceeds the initial [maxCount]. *)
Lemma dominant_loop_first_max f ks : forall t0 c0,
  let r := fold_left dominant_step (entries f ks) (t0, c0) in
  (r = (t0, c0) /\ Forall (fun k => f k <= c0) ks) \/
  (exists l1 l2, ks = l1 ++ fst r :: l2 /\ snd r = f (fst r) /\ c0 < f (fst r) /\
     Forall (fun k => f k < f (fst r)) l1 /\ Forall (fun k => f k <= f (fst r)) l2).
Proof.
  induction ks as [|k ks IH]; intros t0 c0; simpl.
  - left. split; [reflexivity|constructor].
  - destruct (f k >? c0) eqn:E.
    + apply Z.gtb_lt in E. specialize (IH k (f k)). simpl in IH.
      destruct IH as [[Hr Hall]|(l1 & l2 & Hks & Hs & Hc & H1 & H2)].
      * right. rewrite Hr. simpl. exists [], ks. repeat split; try assumption; constructor.
      * right. exists (k :: l1), l2. repeat split; try assumption.
        -- simpl. rewrite <- Hks. reflexivity.
        -- lia.
        -- constructor; [lia|exact H1].
    + assert (Hle : f k <= c0).
      { destruct (Z.gtb_spec (f k) c0); [discriminate|lia]. }
      specialize (IH t0 c0). simpl in IH.
      destruct IH as [[Hr Hall]|(l1 & l2 & Hks & Hs & Hc & H1 & H2)].
      * left. split; [exact Hr|]. constructor; assumption.
      * right. exists (k :: l1), l2. repeat split; try assumption.
        -- simpl. rewrite <- Hks. reflexivity.
        -- constructor; [lia|exact H1].
Qed.

Lemma dominant_counts_is_dominant tags :
  tags <> [] -> is_dominant (dominant (counts tags)) tags.
Proof.
  intros Hne. unfold dominant. rewrite counts_closed_form.
  set (f := fun k => Z.of_nat (occurrences k tags)).
  destruct (dominant_loop_first_max f (firsts tags) 1 0)
    as [[Hr Hall]|(l1 & l2 & Hks & Hs & Hc & H1 & H2)].
  - exfalso. destruct tags as [|x tags]; [contradiction|].
    rewrite Forall_forall in Hall. specialize (Hall x).
    assert (Hx : In x (firsts (x :: tags))) by (apply firsts_In; left; reflexivity).
    specialize (Hall Hx). unfold f in Hall.
    pose proof (occurrences_pos (x :: tags) x (or_introl eq_refl)). lia.
  - set (t := fst (fold_left dominant_step (entries f (firsts tags)) (1, 0))) in *.
    assert (Ht : In t (firsts tags)).
    { rewrite Hks. apply in_elt. }
    split; [apply firsts_In; exact Ht|].
    intros t' Ht'. apply (proj2 (firsts_In _ _)) in Ht'. rewrite Hks in Ht'.
    pose proof (firsts_sorted tags) as Hsort. rewrite Hks in Hsort.
    apply StronglySorted_split in Hsort. rewrite Forall_forall in H1, H2, Hsort.
    apply in_app_or in Ht'. destruct Ht' as [Ht'|[<-|Ht']].
    + specialize (H1 t' Ht'). unfold f in H1. split; [lia|]. intros Heq. lia.
    + split; [lia|]. intros _. lia.
    + specialize (H2 t' Ht'). specialize (Hsort t' Ht'). unfold f in H2.
      unfold earlier in Hsort. split; [lia|]. intros _. lia.
Qed.

Lemma word_loop ws : forall acc,
  a_words (fold_left word_step ws acc) = a_words acc ++ ws /\
  a_counts (fold_left word_step ws acc) =
    fold_left count_tag (map w_speakerTag ws) (a_counts acc).
Proof.
  induction ws as [|w ws IH]; intros acc; simpl.
  - rewrite app_nil_r. split; reflexivity.
  - destruct (IH (word_step acc w)) as [H1 H2]. rewrite H1, H2. simpl.
    rewrite <- app_assoc. split; reflexivity.
Qed.

Lemma word_loop_dominant ws :
  ws <> [] ->
  let acc := fold_left word_step ws acc0 in
  is_dominant (dominant (a_counts acc)) (map w_speakerTag (a_words acc)).
Proof.
  intros Hne acc. subst acc. destruct (word_loop ws acc0) as [H1 H2].
  rewrite H1, H2. simpl. apply dominant_counts_is_dominant.
  destruct ws; [contradiction|discriminate].
Qed.

End Dominant.

Section NormalizerClaims.
Import JS Normalizer.

(** C1, as amended.  In every event either normalizer emits with a non-empty
    word list, the dominant speaker tag is a tag with the highest word count
    among the word-level tags, and among the tags with that count it is the
    one whose first word comes first. *)
Theorem dominant_speaker_majority_first_seen (r : TranscriptResult) :
  (exists results, Google.handleStreamData results = Some r) \/
  (exists data, Deepgram.handleTranscript data = Some r) ->
  words r <> [] ->
  is_dominant (speakerTag r) (tags_of r).
Proof.
  intros [[results H]|[data H]] Hw.
  - unfold Google.handleStreamData in H.
    destruct results as [|result ?]; [discriminate|].
    destruct (Google.alternatives result) as [|alternative ?]; [discriminate|].
    injection H as <-. unfold tags_of. simpl in *.
    apply word_loop_dominant. intros E. rewrite E in Hw. apply Hw. reflexivity.
  - unfold Deepgram.handleTranscript in H.
    destruct (Deepgram.channel_alternatives data) as [[|alternative ?]|]; try discriminate.
    destruct (Deepgram.alt_transcript alternative) as [transcript0|]; [|discriminate].
    destruct (String.eqb (trim transcript0) ""); [discriminate|].
    injection H as <-. unfold tags_of. simpl in *.
    apply word_loop_dominant. intros E. rewrite E in Hw. apply Hw. reflexivity.
Qed.

(** The utterance of the specification, with the word-level tags 1, 1, 2, 1:
    the dominant speaker is 1. *)
Lemma dominant_speaker_majority_example :
  exists r,
    Google.handleStreamData majority_utterance = Some r /\
    tags_of r = [1; 1; 2; 1] /\ speakerTag r = 1 /\
    is_dominant (speakerTag r) (tags_of r).
Proof.
  eexists. split; [reflexivity|]. split; [reflexivity|]. split; [reflexivity|].
  apply dominant_speaker_majority_first_seen.
  - left. exists majority_utterance. reflexivity.
  - discriminate.
Defined.

(** C1 fails as stated: when the tags 2 and 1 have one word each and the word
    of tag 2 comes first, both normalizers emit the dominant speaker 2, not
    the lower tag 1. *)
Lemma tie_goes_to_first_seen_tag :
  let tags := [2; 1] in
  option_map (fun r => (tags_of r, speakerTag r))
    (Google.handleStreamData (google_results [google_word 2 0 500; google_word 1 500 900]))
    = Some (tags, 2) /\
  option_map (fun r => (tags_of r, speakerTag r))
    (Deepgram.handleTranscript (deepgram_data [deepgram_word 1 0 0.5; deepgram_word 0 0.5 0.9]))
    = Some (tags, 2) /\
  occurrences 1 tags = occurrences 2 tags /\ 1 < 2.
Proof. repeat split. Qed.

(** Once set to a non-zero time, [startTime] is kept. *)
Lemma word_loop_startTime_kept ws : forall acc,
  is_zero_number (a_startTime acc) = false ->
  a_startTime (fold_left word_step ws acc) = a_startTime acc.
Proof.
  induction ws as [|w ws IH]; intros acc H; simpl; [reflexivity|].
  rewrite IH; simpl; rewrite H; [reflexivity|exact H].
Qed.

(** What holds of the segment times: without words both are 0; the end is
    the end time of the last word; the start is the start time of the first
    word when that time is not 0. *)
Lemma segment_times (ws : list Word) :
  let acc := fold_left word_step ws acc0 in
  (ws = [] -> a_startTime acc = 0%float /\ a_endTime acc = 0%float) /\
  (forall ws' w, ws = ws' ++ [w] -> a_endTime acc = w_endTime w) /\
  (forall w ws', ws = w :: ws' -> is_zero_number (w_startTime w) = false ->
     a_startTime acc = w_startTime w).
Proof.
  intros acc. subst acc. split; [|split].
  - intros ->. split; reflexivity.
  - intros ws' w ->. rewrite fold_left_app. reflexivity.
  - intros w ws' -> H. simpl. rewrite word_loop_startTime_kept; simpl; [reflexivity|exact H].
Qed.

(** C6 at the failing input: an utterance of two words, the first from 0 s
    to 0.5 s and the second from 0.5 s to 1 s.  Both normalizers emit the
    start time 0.5, the start of the second word, and the end time 1. *)
Theorem start_time_skips_leading_zero :
  option_map (fun r => (map w_startTime (words r), startTime r, endTime r))
    (Google.handleStreamData (google_results [google_word 1 0 500; google_word 1 500 1000]))
    = Some ([0; 0.5], 0.5, 1)%float /\
  option_map (fun r => (map w_startTime (words r), startTime r, endTime r))
    (Deepgram.handleTranscript (deepgram_data [deepgram_word 0 0 0.5; deepgram_word 0 0.5 1]))
    = Some ([0; 0.5], 0.5, 1)%float.
Proof. split; reflexivity. Qed.

End NormalizerClaims.

(* ================================================================== *)
(** * Proofs: the provider adapter *)
(* ================================================================== *)

Section Restart.
Import JS GoogleSpeech.

Lemma written_update_end h l :
  map written (update_nth h end_stream l) = map written l.
Proof.
  revert h. induction l as [|x l IH]; intros h; destruct h; simpl; try reflexivity.
  rewrite IH. reflexivity.
Qed.

Lemma Map_get_set_same (m : Map string StreamSession) k v :
  Map_get String.eqb (Map_set String.eqb m k v) k = Some v.
Proof. rewrite (Map_get_set String.eqb string_eqb_spec), String.eqb_refl. reflexivity. Qed.

(** A feed call on a session whose [isActive] is cleared is rejected and
    changes nothing. *)
Lemma writeAudio_inactive svc sessionId session audioData now :
  Map_get String.eqb (sessions svc) sessionId = Some session ->
  isActive session = false ->
  writeAudio svc sessionId audioData now = (false, svc).
Proof.
  intros Hs Ha. unfold writeAudio. rewrite Hs.
  destruct (recognizeStream session); [|reflexivity]. rewrite Ha. reflexivity.
Qed.

Lemma written_update_write h audioData l x :
  In x (List.concat (map written (update_nth h (write_stream audioData) l))) ->
  In x (List.concat (map written l)) \/ x = audioData.
Proof.
  revert h. induction l as [|st l IH]; intros h; destruct h; simpl; try tauto.
  - rewrite !in_app_iff. simpl. intros [[H|[H|[]]]|H]; auto.
  - rewrite !in_app_iff. intros [H|H]; [tauto|]. apply IH in H. tauto.
Qed.

Lemma restartStream_written svc session :
  all_written (restartStream svc session) = all_written svc.
Proof.
  unfold restartStream. destruct (isActive session); [|reflexivity].
  destruct (recognizeStream session); unfold all_written; simpl;
    [rewrite written_update_end|]; reflexivity.
Qed.

(** A feed call writes nothing but the frame passed to it. *)
Lemma writeAudio_written svc sessionId audioData now x :
  In x (all_written (snd (writeAudio svc sessionId audioData now))) ->
  In x (all_written svc) \/ x = audioData.
Proof.
  unfold writeAudio.
  destruct (Map_get String.eqb (sessions svc) sessionId) as [session|]; [|tauto].
  destruct (recognizeStream session) as [h|] eqn:Eh; [|tauto].
  destruct (isActive session) eqn:Ea; [|tauto]. cbn [negb].
  destruct (nth_error (streams svc) h) as [st|]; [|tauto].
  destruct (destroyed st || writableEnded st)%bool; [tauto|].
  destruct (now - audioInputStreamTimestamp session >? streamingLimit).
  - cbn [snd]. rewrite restartStream_written. tauto.
  - destruct (write_error st) as [message|].
    + destruct (includes message "write after" || includes message "destroyed")%bool;
        cbn [snd]; [rewrite restartStream_written|]; tauto.
    + cbn [snd]. unfold all_written, update_stream. cbn [streams].
      apply written_update_write.
Qed.

(** The restart callback writes nothing. *)
Lemma restart_callback_written svc sessionId now :
  all_written (restart_callback svc sessionId now) = all_written svc.
Proof.
  unfold restart_callback.
  destruct (Map_get String.eqb (sessions svc) sessionId) as [session|]; [|reflexivity].
  unfold all_written, createRecognizeStream. cbn.
  rewrite map_app, concat_app. cbn. apply app_nil_r.
Qed.

(** Whatever comes later, a stream only holds frames that were passed to a
    feed call. *)
Lemma written_frames_were_fed events : forall svc x,
  In x (all_written (fold_left step events svc)) ->
  In x (all_written svc) \/ fed x events.
Proof.
  induction events as [|e events IH]; intros svc x H; simpl in H; [tauto|].
  apply IH in H. destruct H as [H|(sessionId & now & H)].
  - destruct e as [sessionId audioData now|sessionId now]; simpl in H.
    + apply writeAudio_written in H. destruct H as [H | ->]; [tauto|].
      right. exists sessionId, now. left. reflexivity.
    + rewrite restart_callback_written in H. tauto.
  - right. exists sessionId, now. right. exact H.
Qed.

(** C10.  A feed call on a streaming session that arrives more than
    [streamingLimit] = 290000 ms after the stream was opened returns [true],
    feeds no provider stream, clears [isActive], counts a restart and queues
    the restart callback; every feed call after it is rejected with [false]
    and changes nothing as long as [isActive] stays cleared, the stream the
    callback opens starts empty, and whatever feed calls and restarts follow,
    no provider stream ever holds the frame unless it is fed again. *)
Theorem feed_past_limit_is_dropped (svc : Service) (sessionId : string)
  (session : StreamSession) (audioData : Buffer) (now : Z) :
  streaming svc sessionId session ->
  now - audioInputStreamTimestamp session > streamingLimit ->
  let svc' := snd (writeAudio svc sessionId audioData now) in
  fst (writeAudio svc sessionId audioData now) = true /\
  all_written svc' = all_written svc /\
  timers svc' = timers svc ++ [sessionId] /\
  (exists session',
     Map_get String.eqb (sessions svc') sessionId = Some session' /\
     isActive session' = false /\ recognizeStream session' = None /\
     restartCount session' = restartCount session + 1) /\
  (forall audioData' now', writeAudio svc' sessionId audioData' now' = (false, svc')) /\
  (forall now', all_written (restart_callback svc' sessionId now') = all_written svc) /\
  (forall events,
     ~ In audioData (all_written svc) -> ~ fed audioData events ->
     ~ In audioData (all_written (fold_left step events svc'))).
Proof.
  intros (Hs & Hid & Ha & h & st & Hh & Hst & Hd & He) Hlim svc'. subst svc'.
  assert (Hgt : (now - audioInputStreamTimestamp session >? streamingLimit) = true)
    by (apply Z.gtb_lt; lia).
  assert (Hrun : writeAudio svc sessionId audioData now = (true, restartStream svc session)).
  { unfold writeAudio. rewrite Hs, Hh, Ha, Hst, Hd, He. simpl. rewrite Hgt. reflexivity. }
  rewrite Hrun. cbn [fst snd].
  assert (HR : restartStream svc session =
               {| sessions := Map_set String.eqb (sessions svc) sessionId
                    {| id := sessionId; meetingId := meetingId session;
                       recognizeStream := None; isActive := false;
                       restartCount := restartCount session + 1;
                       audioInputStreamTimestamp := audioInputStreamTimestamp session |};
                  streams := update_nth h end_stream (streams svc);
                  timers := timers svc ++ [sessionId];
                  emitted := emitted svc |}).
  { unfold restartStream. rewrite Ha, Hh, Hid. reflexivity. }
  rewrite HR. clear HR Hrun.
  assert (Hw : all_written
                 {| sessions := Map_set String.eqb (sessions svc) sessionId
                      {| id := sessionId; meetingId := meetingId session;
                         recognizeStream := None; isActive := false;
                         restartCount := restartCount session + 1;
                         audioInputStreamTimestamp := audioInputStreamTimestamp session |};
                    streams := update_nth h end_stream (streams svc);
                    timers := timers svc ++ [sessionId];
                    emitted := emitted svc |} = all_written svc).
  { unfold all_written. cbn [streams]. rewrite written_update_end. reflexivity. }
  split; [reflexivity|]. split; [exact Hw|split; [reflexivity|split; [|split; [|split]]]].
  - eexists. split; [apply Map_get_set_same|]. cbn. repeat split.
  - intros audioData' now'. eapply writeAudio_inactive; [apply Map_get_set_same|reflexivity].
  - intros now'. rewrite restart_callback_written. exact Hw.
  - intros events Hnew Hfed Hin. apply written_frames_were_fed in Hin.
    rewrite Hw in Hin. tauto.
Qed.

(** A session opened at time 0 and fed at time 290001: the call returns
    [true] and the frame reaches no stream. *)
Lemma feed_past_limit_example :
  streaming sample_service "s1" sample_session /\
  fst (writeAudio sample_service "s1" [Byte.x03] 290001) = true /\
  all_written (snd (writeAudio sample_service "s1" [Byte.x03] 290001)) =
    [[Byte.x01; Byte.x02]].
Proof.
  assert (Hs : streaming sample_service "s1" sample_session).
  { split; [reflexivity|]. split; [reflexivity|]. split; [reflexivity|].
    exists 0%nat, (write_stream [Byte.x01; Byte.x02] new_stream). repeat split. }
  assert (Hl : 290001 - audioInputStreamTimestamp sample_session > streamingLimit)
    by (vm_compute; reflexivity).
  pose proof (@feed_past_limit_is_dropped sample_service "s1" sample_session
                [Byte.x03] 290001 Hs Hl) as H.
  split; [exact Hs|]. split; [exact (proj1 H)|]. exact (proj1 (proj2 H)).
Defined.

End Restart.

(* ================================================================== *)
(** * Proofs: the name extractor *)
(* ================================================================== *)

Section Matcher.
Import JS Regex.

Lemma run_Seq r1 r2 k s : run (Seq r1 r2) k s = run r1 (run r2 k) s.
Proof. reflexivity. Qed.

Lemma run_Star r k s :
  run (Star r) k s = star_loop (run r) k (String.length (rest s)) s.
Proof. reflexivity. Qed.

Lemma run_Bol_start (k : MState -> option MState) s : pos s = 0%nat -> run Bol k s = k s.
Proof. intros H. simpl. rewrite H. reflexivity. Qed.

Lemma run_Char_hit p k s c r :
  rest s = String c r -> p c = true -> run (Char p) k s = k (advance c r s).
Proof. intros Hr Hp. simpl. rewrite Hr, Hp. reflexivity. Qed.

Lemma run_Char_miss p k s c r :
  rest s = String c r -> p c = false -> run (Char p) k s = None.
Proof. intros Hr Hp. simpl. rewrite Hr, Hp. reflexivity. Qed.

Lemma run_Char_end p k s : rest s = "" -> run (Char p) k s = None.
Proof. intros Hr. simpl. rewrite Hr. reflexivity. Qed.

(** A star whose body matches no character of the class at the current
    position iterates zero times. *)
Lemma run_Star_Char_stop p k s :
  match rest s with String c _ => p c = false | EmptyString => True end ->
  run (Star (Char p)) k s = k s.
Proof.
  intros H. simpl. destruct (rest s) as [|c r] eqn:Hr; simpl; [reflexivity|].
  rewrite Hr, H. reflexivity.
Qed.

(** [^...] only matches at the start of the input. *)
Lemma search_Bol_later r p s i : search (Seq Bol r) p s (S i) = None.
Proof.
  revert p i. induction s as [|c s IH]; intros p i; simpl; [reflexivity|]. apply IH.
Qed.

Lemma exec_Bol r s :
  exec (Seq Bol r) s = match_at (Seq Bol r) None s 0.
Proof.
  unfold exec. destruct s as [|c s]; simpl.
  - destruct (match_at (Seq Bol r) None "" 0); reflexivity.
  - fold (match_at (Seq Bol r) None (String c s) 0).
    destruct (match_at (Seq Bol r) None (String c s) 0); [reflexivity|].
    apply search_Bol_later.
Qed.

(** Searching for one character of a class. *)
Lemma search_Char p : forall s q i,
  (exists m, search (Char p) q s i = Some m) <->
  existsb p (list_ascii_of_string s) = true.
Proof.
  induction s as [|c s IH]; intros q i; simpl.
  - split; [intros [m H]; discriminate|discriminate].
  - unfold match_at. simpl. destruct (p c) eqn:E; simpl.
    + split; [reflexivity|]. intros _. eexists. reflexivity.
    + apply IH.
Qed.

Lemma star_loop_O body k s : star_loop body k 0 s = k s.
Proof. reflexivity. Qed.

Lemma star_loop_S body k fuel s :
  star_loop body k (S fuel) s =
  match body (fun s' => if (pos s <? pos s')%nat then star_loop body k fuel s' else None) s with
  | Some s' => Some s'
  | None => k s
  end.
Proof. reflexivity. Qed.

Lemma run_Eol_end (k : MState -> option MState) s : rest s = "" -> run Eol k s = k s.
Proof. intros H. simpl. rewrite H. reflexivity. Qed.

Lemma run_Eol_more (k : MState -> option MState) s c r :
  rest s = String c r -> run Eol k s = None.
Proof. intros H. simpl. rewrite H. reflexivity. Qed.

Lemma pos_advance c r s : (pos s <? pos (advance c r s))%nat = true.
Proof. apply Nat.ltb_lt. simpl. lia. Qed.

(** The loop of [[class]+$]: it reaches the end of the input exactly when
    every character left is in the class. *)
Lemma star_class_to_end p : forall s fuel st,
  rest st = s -> (String.length s <= fuel)%nat ->
  (exists st', star_loop (run (Char p)) (run Eol Some) fuel st = Some st') <->
  forallb p (list_ascii_of_string s) = true.
Proof.
  induction s as [|c s IH]; intros fuel st Hr Hf.
  - cbn [list_ascii_of_string forallb]. split; [reflexivity|]. intros _. destruct fuel.
    + rewrite star_loop_O, run_Eol_end by exact Hr. eexists. reflexivity.
    + rewrite star_loop_S, run_Char_end, run_Eol_end by exact Hr. eexists. reflexivity.
  - destruct fuel as [|fuel]; [simpl in Hf; lia|].
    rewrite star_loop_S. cbn [list_ascii_of_string forallb].
    destruct (p c) eqn:E.
    + rewrite (run_Char_hit _ _ _ Hr E), pos_advance. cbn [andb].
      specialize (IH fuel (advance c s st) eq_refl ltac:(simpl in Hf; lia)).
      destruct (star_loop (run (Char p)) (run Eol Some) fuel (advance c s st)) as [st'|].
      * split; [intros _; apply IH; eexists; reflexivity|]. intros _. eexists. reflexivity.
      * rewrite (run_Eol_more _ _ Hr).
        split; [intros [st' H]; discriminate|].
        intros H. apply IH in H. destruct H as [st' H]. discriminate.
    + rewrite (run_Char_miss _ _ _ Hr E), (run_Eol_more _ _ Hr). cbn [andb].
      split; [intros [st' H]; discriminate|discriminate].
Qed.

End Matcher.

Section Validation.
Import JS Regex NameExtractor.

Lemma test_anyLetter s : test anyLetter s = existsb is_letter (chars s).
Proof.
  unfold test, exec, anyLetter, chars.
  pose proof (search_Char is_letter s None 0) as H.
  destruct (search (Char is_letter) None s 0) as [m|].
  - symmetry. apply H. eexists. reflexivity.
  - destruct (existsb is_letter (list_ascii_of_string s)); [|reflexivity].
    destruct (proj2 H eq_refl) as [m Hm]. discriminate.
Qed.

Lemma test_nameCharacters s :
  test nameCharacters s = (negb (String.eqb s "") && forallb is_name_char (chars s))%bool.
Proof.
  unfold test, nameCharacters, Plus. rewrite exec_Bol. unfold match_at, chars.
  rewrite run_Seq, run_Bol_start by reflexivity. rewrite !run_Seq.
  destruct s as [|c s]; [reflexivity|].
  set (st0 := {| prev := None; rest := String c s; pos := 0; caps := [] |}).
  assert (Hr : rest st0 = String c s) by reflexivity.
  change (String.eqb (String c s) "") with false.
  cbn [negb andb list_ascii_of_string forallb].
  destruct (is_name_char c) eqn:E; cbn [andb].
  - rewrite (run_Char_hit _ _ _ Hr E), run_Star. cbn [rest advance].
    pose proof (@star_class_to_end is_name_char s (String.length s)
                  (advance c s st0) eq_refl (le_n _)) as H.
    destruct (star_loop (run (Char is_name_char)) (run Eol Some) (String.length s)
                (advance c s st0)) as [st'|].
    + symmetry. apply H. eexists. reflexivity.
    + destruct (forallb is_name_char (list_ascii_of_string s)); [|reflexivity].
      destruct (proj2 H eq_refl) as [st' Hst]. discriminate.
  - rewrite (run_Char_miss _ _ _ Hr E). reflexivity.
Qed.

Lemma length_chars s : List.length (chars s) = String.length s.
Proof. induction s as [|c s IH]; simpl; [reflexivity|]. rewrite IH. reflexivity. Qed.

End Validation.

Section Characters.
Import JS Regex NameExtractor.

(** What the proofs use of the letters [a-z], [A-Z]; by cases on the 256
    characters. *)
Lemma letter_facts c :
  is_letter c = true ->
  is_space c = false /\ is_word_char c = true /\
  is_letter (lower_char c) = true /\
  upper_char (lower_char c) = upper_char c /\
  lower_char (upper_char (lower_char c)) = lower_char c.
Proof.
  destruct c as [b0 b1 b2 b3 b4 b5 b6 b7].
  destruct b0, b1, b2, b3, b4, b5, b6, b7; intros H;
    try (vm_compute in H; discriminate H); vm_compute; repeat split.
Qed.

Lemma punctuation_facts c :
  is_punctuation c = true ->
  is_space c = false /\ is_letter c = false /\ lower_char c = c /\
  is_separator_char c = true.
Proof.
  destruct c as [b0 b1 b2 b3 b4 b5 b6 b7].
  destruct b0, b1, b2, b3, b4, b5, b6, b7; intros H;
    try (vm_compute in H; discriminate H); vm_compute; repeat split.
Qed.

End Characters.

Section Strings.
Import JS Regex NameExtractor.

Lemma substring_full s : substring 0 (String.length s) s = s.
Proof. induction s as [|c s IH]; simpl; [reflexivity|]. rewrite IH. reflexivity. Qed.

Lemma substring_one c s i : substring 0 (S i - i) (String c s) = String c "".
Proof.
  replace (S i - i)%nat with 1%nat by lia. simpl. destruct s; reflexivity.
Qed.

Lemma trimStart_head c s : is_space c = false -> trimStart (String c s) = String c s.
Proof. intros H. simpl. rewrite H. reflexivity. Qed.

Lemma trimEnd_no_space s :
  forallb (fun c => negb (is_space c)) (chars s) = true -> trimEnd s = s.
Proof.
  induction s as [|c s IH]; simpl; [reflexivity|]. intros H.
  apply andb_true_iff in H. destruct H as [Hc Hs]. rewrite IH by exact Hs.
  apply negb_true_iff in Hc. rewrite Hc. destruct s; reflexivity.
Qed.

Lemma chars_string_of_list l : chars (string_of_list_ascii l) = l.
Proof. apply list_ascii_of_string_of_list_ascii. Qed.

Lemma map_string_of_list f l :
  map_string f (string_of_list_ascii l) = string_of_list_ascii (map f l).
Proof. induction l as [|c l IH]; simpl; [reflexivity|]. rewrite IH. reflexivity. Qed.

Lemma length_string_of_list l : String.length (string_of_list_ascii l) = List.length l.
Proof. induction l as [|c l IH]; simpl; [reflexivity|]. rewrite IH. reflexivity. Qed.

(** [letters.join('')] for one-character strings. *)
Lemma join_singletons l :
  join "" (map (fun c => String c "") l) = string_of_list_ascii l.
Proof.
  unfold join. induction l as [|c l IH]; [reflexivity|].
  destruct l as [|d l]; [reflexivity|].
  change (String.concat "" (map (fun c => String c "") (c :: d :: l)))
    with (String c (String.concat "" (map (fun c => String c "") (d :: l)))).
  rewrite IH. reflexivity.
Qed.

End Strings.

Section Searching.
Import JS Regex NameExtractor.

Lemma search_unfold r q s i :
  search r q s i =
  match match_at r q s i with
  | Some m => Some m
  | None =>
      match s with
      | EmptyString => None
      | String c s' => search r (Some c) s' (S i)
      end
  end.
Proof. destruct s; reflexivity. Qed.

Lemma match_at_Char p q c r i :
  match_at (Char p) q (String c r) i =
  if p c then
    Some {| index := i; matched := String c ""; groups := []; last := Some c;
            after := r; stop := S i |}
  else None.
Proof.
  unfold match_at. cbn [run rest]. destruct (p c); [|reflexivity].
  cbn [advance pos prev rest caps]. rewrite substring_one. reflexivity.
Qed.

Lemma match_at_Char_end p q i : match_at (Char p) q "" i = None.
Proof. reflexivity. Qed.

Lemma match_all_from_S fuel r q s i :
  match_all_from (S fuel) r q s i =
  match search r q s i with
  | None => []
  | Some m =>
      if (stop m =? index m)%nat then
        match after m with
        | EmptyString => [m]
        | String c a => m :: match_all_from fuel r (Some c) a (S (stop m))
        end
      else m :: match_all_from fuel r (last m) (after m) (stop m)
  end.
Proof. reflexivity. Qed.

(** The matches of a one-character class under the [g] flag are the
    characters of the class, in order. *)
Lemma match_all_from_Char p : forall s fuel q i,
  (String.length s < fuel)%nat ->
  map matched (match_all_from fuel (Char p) q s i) =
  map (fun c => String c "") (filter p (chars s)).
Proof.
  induction s as [|c s IH]; intros fuel q i Hf.
  - destruct fuel; reflexivity.
  - destruct fuel as [|fuel]; [lia|]. rewrite match_all_from_S, search_unfold, match_at_Char.
    change (chars (String c s)) with (c :: chars s). cbn [filter]. destruct (p c) eqn:E.
    + cbn [stop index after last].
      assert (Hne : (S i =? i)%nat = false) by (apply Nat.eqb_neq; lia).
      rewrite Hne. cbn [map matched]. f_equal. apply IH. simpl in Hf. lia.
    + rewrite <- (IH (S fuel) (Some c) (S i)) by (simpl in Hf; lia).
      rewrite match_all_from_S. reflexivity.
Qed.

Lemma match_g_Char p s :
  match_g (Char p) s =
  match filter p (chars s) with
  | [] => None
  | l => Some (map (fun c => String c "") l)
  end.
Proof.
  unfold match_g, match_all.
  pose proof (@match_all_from_Char p s (S (String.length s)) None 0%nat (Nat.lt_succ_diag_r _))
    as H.
  destruct (match_all_from (S (String.length s)) (Char p) None s 0) as [|m l];
    destruct (filter p (chars s)) as [|c l']; try discriminate H; [reflexivity|].
  rewrite H. reflexivity.
Qed.

(** A string without white space is not split. *)
Lemma split_loop_no_space : forall s fuel q piece i,
  forallb (fun c => negb (is_space c)) (chars s) = true ->
  split_loop fuel spaces q piece s i = [(piece ++ s)%string].
Proof.
  induction s as [|c s IH]; intros fuel q piece i H.
  - destruct fuel; simpl; rewrite ?append_nil_r; reflexivity.
  - destruct fuel as [|fuel]; [reflexivity|].
    change (chars (String c s)) with (c :: chars s) in H. cbn [forallb] in H.
    apply andb_true_iff in H.
    destruct H as [Hc Hs]. apply negb_true_iff in Hc.
    cbn [split_loop]. unfold match_at at 1, spaces, Plus, space.
    rewrite run_Seq. rewrite run_Char_miss with (c := c) (r := s); [|reflexivity|exact Hc].
    rewrite IH by exact Hs. rewrite append_assoc. reflexivity.
Qed.

Lemma split_no_space c s :
  forallb (fun c => negb (is_space c)) (chars (String c s)) = true ->
  split spaces (String c s) = [String c s].
Proof. intros H. unfold split. rewrite split_loop_no_space by exact H. reflexivity. Qed.

End Searching.

Section Spelled.
Import JS Regex NameExtractor.

Variable sep : ascii.
Hypothesis sep_punctuation : is_punctuation sep = true.

Lemma run_WordBoundary_yes (k : MState -> option MState) s :
  xorb (is_word (prev s)) (is_word (next_char (rest s))) = true ->
  run WordBoundary k s = k s.
Proof. intros H. simpl. rewrite H. reflexivity. Qed.

Lemma run_letter n k s x r :
  rest s = String x r -> is_letter x = true ->
  run (Group n letter) k s = k (set_cap n s (advance x r s)).
Proof. intros Hr Hx. unfold letter. cbn [run]. rewrite Hr, Hx. reflexivity. Qed.

Lemma run_separator k s r :
  rest s = String sep r -> no_space_next r ->
  run separator k s = k (advance sep r s).
Proof.
  intros Hr Hn. destruct (punctuation_facts _ sep_punctuation) as (Hs & _ & _ & Hc).
  unfold separator, space. rewrite run_Seq, run_Star_Char_stop by (rewrite Hr; exact Hs).
  rewrite run_Seq, (run_Char_hit _ _ _ Hr Hc).
  apply run_Star_Char_stop. exact Hn.
Qed.

Lemma run_separator_end k s : rest s = "" -> run separator k s = None.
Proof.
  intros Hr. unfold separator, space.
  rewrite run_Seq, run_Star_Char_stop by (rewrite Hr; exact I).
  rewrite run_Seq. apply run_Char_end. exact Hr.
Qed.

Lemma no_space_next_tail xs :
  Forall (fun x => is_letter x = true) xs -> no_space_next (spelled_tail sep xs).
Proof.
  destruct (punctuation_facts _ sep_punctuation) as (Hs & _).
  intros H. destruct xs; simpl; [exact I|exact Hs].
Qed.

(** The star of the letter pattern runs through [-x-y-...] to the end. *)
Lemma tail_loop : forall xs fuel s,
  rest s = spelled_tail sep xs ->
  Forall (fun x => is_letter x = true) xs ->
  is_word (prev s) = true ->
  (String.length (rest s) <= fuel)%nat ->
  exists st,
    star_loop (run (Seq separator (Group 4 letter))) (run WordBoundary Some) fuel s = Some st /\
    rest st = "" /\ pos st = (pos s + String.length (rest s))%nat.
Proof.
  induction xs as [|x xs IH]; intros fuel s Hr Hl Hp Hf.
  - simpl in Hr. exists s.
    assert (Hk : run WordBoundary Some s = Some s).
    { apply run_WordBoundary_yes. rewrite Hp, Hr. reflexivity. }
    split; [|split; [exact Hr|rewrite Hr; simpl; lia]].
    destruct fuel; [rewrite star_loop_O; exact Hk|].
    rewrite star_loop_S, run_Seq, run_separator_end by exact Hr. exact Hk.
  - inversion Hl as [|? ? Hx Hxs]; subst. simpl in Hr.
    destruct (letter_facts _ Hx) as (Hxs' & Hxw & _).
    destruct fuel as [|fuel]; [rewrite Hr in Hf; simpl in Hf; lia|].
    rewrite star_loop_S, run_Seq.
    rewrite (@run_separator _ s (String x (spelled_tail sep xs)) Hr Hxs').
    set (s1 := advance sep (String x (spelled_tail sep xs)) s).
    rewrite (@run_letter 4 _ s1 x (spelled_tail sep xs) eq_refl Hx).
    set (s2 := set_cap 4 s1 (advance x (spelled_tail sep xs) s1)).
    assert (Hpos : (pos s <? pos s2)%nat = true) by (apply Nat.ltb_lt; simpl; lia).
    rewrite Hpos.
    destruct (IH fuel s2 eq_refl Hxs) as (st & Hst & Hrest & Hpst).
    + simpl. exact Hxw.
    + simpl. rewrite Hr in Hf. simpl in Hf. lia.
    + exists st. rewrite Hst. split; [reflexivity|]. split; [exact Hrest|].
      rewrite Hpst, Hr. simpl. lia.
Qed.

(** The letter pattern matches the whole of a name spelled out with three
    letters or more. *)
Lemma letterPattern_spelled x1 x2 x3 xs :
  Forall (fun x => is_letter x = true) (x1 :: x2 :: x3 :: xs) ->
  let w := spelled_out sep x1 (x2 :: x3 :: xs) in
  exists m, match_at letterPattern None w 0 = Some m /\
            matched m = w /\ index m = 0%nat /\ stop m = String.length w.
Proof.
  intros Hl w. inversion Hl as [|? ? H1 Hl1]; subst.
  inversion Hl1 as [|? ? H2 Hl2]; subst. inversion Hl2 as [|? ? H3 Hl3]; subst.
  destruct (letter_facts _ H1) as (_ & Hw1 & _).
  destruct (letter_facts _ H2) as (Hs2 & _).
  destruct (letter_facts _ H3) as (Hs3 & Hw3 & _).
  unfold match_at, letterPattern.
  set (s0 := {| prev := None; rest := w; pos := 0; caps := [] |}).
  rewrite run_Seq, run_WordBoundary_yes by (simpl; rewrite Hw1; reflexivity).
  rewrite run_Seq, (@run_letter 1 _ s0 x1 _ eq_refl H1).
  set (s1 := set_cap 1 s0 _).
  rewrite run_Seq, (@run_separator _ s1 (String x2 (spelled_tail sep (x3 :: xs))) eq_refl Hs2).
  set (s2 := advance sep _ s1).
  rewrite run_Seq, (@run_letter 2 _ s2 x2 _ eq_refl H2).
  set (s3 := set_cap 2 s2 _).
  rewrite run_Seq, (@run_separator _ s3 (String x3 (spelled_tail sep xs)) eq_refl Hs3).
  set (s4 := advance sep _ s3).
  rewrite run_Seq, (@run_letter 3 _ s4 x3 _ eq_refl H3).
  set (s5 := set_cap 3 s4 _).
  rewrite run_Seq, run_Star.
  destruct (@tail_loop xs (String.length (rest s5)) s5 eq_refl Hl3 Hw3 (le_n _))
    as (st & Hst & Hrest & Hpos).
  rewrite Hst. eexists. split; [reflexivity|]. cbn [matched index stop].
  assert (Hlen : pos st = String.length w).
  { rewrite Hpos. simpl. lia. }
  rewrite Hlen, Nat.sub_0_r, substring_full. repeat split.
Qed.

Lemma match_g_letterPattern_spelled x1 x2 x3 xs :
  Forall (fun x => is_letter x = true) (x1 :: x2 :: x3 :: xs) ->
  let w := spelled_out sep x1 (x2 :: x3 :: xs) in
  exists rest, match_g letterPattern w = Some (w :: rest).
Proof.
  intros Hl w. destruct (letterPattern_spelled Hl) as (m & Hm & Hw & Hi & Hs).
  fold w in Hm, Hw, Hs. unfold match_g, match_all.
  rewrite match_all_from_S, search_unfold, Hm.
  assert (Hne : (stop m =? index m)%nat = false).
  { apply Nat.eqb_neq. rewrite Hs, Hi. simpl. lia. }
  rewrite Hne. cbn [map]. rewrite Hw. eexists. reflexivity.
Qed.

(** The letters of a name spelled out. *)
Lemma filter_letters_tail xs :
  Forall (fun x => is_letter x = true) xs ->
  filter is_letter (chars (spelled_tail sep xs)) = xs.
Proof.
  destruct (punctuation_facts _ sep_punctuation) as (_ & Hs & _).
  induction 1 as [|x xs Hx Hxs IH]; [reflexivity|].
  change (chars (spelled_tail sep (x :: xs)))
    with (sep :: x :: chars (spelled_tail sep xs)).
  cbn [filter]. rewrite Hs, Hx, IH. reflexivity.
Qed.

Lemma no_space_tail xs :
  Forall (fun x => is_letter x = true) xs ->
  forallb (fun c => negb (is_space c)) (chars (spelled_tail sep xs)) = true.
Proof.
  destruct (punctuation_facts _ sep_punctuation) as (Hs & _).
  induction 1 as [|x xs Hx Hxs IH]; [reflexivity|].
  destruct (letter_facts _ Hx) as (Hxs' & _).
  change (chars (spelled_tail sep (x :: xs)))
    with (sep :: x :: chars (spelled_tail sep xs)).
  cbn [forallb]. rewrite Hs, Hxs', IH. reflexivity.
Qed.

Lemma toLowerCase_tail xs :
  toLowerCase (spelled_tail sep xs) = spelled_tail sep (map lower_char xs).
Proof.
  destruct (punctuation_facts _ sep_punctuation) as (_ & _ & Hs & _).
  induction xs as [|x xs IH]; [reflexivity|].
  unfold toLowerCase in *. simpl. rewrite Hs, IH. reflexivity.
Qed.

End Spelled.

Section SpelledClaim.
Import JS Regex NameExtractor.

Lemma Forall_letter_lower xs :
  Forall (fun x => is_letter x = true) xs ->
  Forall (fun x => is_letter x = true) (map lower_char xs).
Proof.
  induction 1 as [|x xs Hx Hxs IH]; simpl; constructor; [|exact IH].
  apply (letter_facts _ Hx).
Qed.

Lemma lower_upper_lower xs :
  Forall (fun x => is_letter x = true) xs ->
  map lower_char (map upper_char (map lower_char xs)) = map lower_char xs.
Proof.
  induction 1 as [|x xs Hx Hxs IH]; simpl; [reflexivity|].
  rewrite IH. f_equal. apply (letter_facts _ Hx).
Qed.

Lemma no_space_letters xs :
  Forall (fun x => is_letter x = true) xs ->
  forallb (fun c => negb (is_space c)) xs = true.
Proof.
  induction 1 as [|x xs Hx Hxs IH]; simpl; [reflexivity|].
  destruct (letter_facts _ Hx) as (Hs & _). rewrite Hs, IH. reflexivity.
Qed.

Lemma joinLetters_filter s :
  joinLetters s =
  let l := filter is_letter (chars s) in
  if (2 <=? List.length l)%nat then Some (toUpperCase (string_of_list_ascii l)) else None.
Proof.
  unfold joinLetters, letter. rewrite match_g_Char.
  destruct (filter is_letter (chars s)) as [|c l]; [reflexivity|].
  cbv zeta. rewrite length_map, join_singletons. reflexivity.
Qed.

(** [capitalizeFirst] on a word of letters. *)
Lemma capitalizeFirst_letters x xs :
  Forall (fun c => is_letter c = true) (x :: xs) ->
  capitalizeFirst (toUpperCase (string_of_list_ascii (map lower_char (x :: xs)))) =
  String (upper_char x) (string_of_list_ascii (map lower_char xs)).
Proof.
  intros Hl. unfold capitalizeFirst, toLowerCase, toUpperCase.
  rewrite !map_string_of_list, lower_upper_lower by exact Hl.
  cbn [map string_of_list_ascii]. rewrite split_no_space.
  - cbn [map capitalizeWord join String.concat].
    inversion Hl as [|? ? Hx Hxs]; subst. f_equal. apply (letter_facts _ Hx).
  - change (String (lower_char x) (string_of_list_ascii (map lower_char xs)))
      with (string_of_list_ascii (map lower_char (x :: xs))).
    rewrite chars_string_of_list. apply no_space_letters, Forall_letter_lower, Hl.
Qed.

(** A name spelled out with one punctuation mark and no white space: on
    three or more letters of [a-z], [A-Z] joined by one of [-], [,] and [.],
    [extractName] returns the letters as the name, the first in upper case
    and the others in lower case, with the confidence [high] and the method
    [spelled]. *)
Theorem spelled_letters_need_three (sep x1 x2 x3 : ascii) (xs : list ascii) :
  is_punctuation sep = true ->
  forallb is_letter (x1 :: x2 :: x3 :: xs) = true ->
  let r := extractName (spelled_out sep x1 (x2 :: x3 :: xs)) in
  name r = String (upper_char x1) (string_of_list_ascii (map lower_char (x2 :: x3 :: xs))) /\
  confidence r = high /\ method r = spelled.
Proof.
  intros Hsep Hall r.
  assert (Hl : Forall (fun x => is_letter x = true) (x1 :: x2 :: x3 :: xs)).
  { apply Forall_forall. intros x Hx. rewrite forallb_forall in Hall. apply Hall, Hx. }
  pose proof (Forall_letter_lower Hl) as Hl'.
  set (ls := x2 :: x3 :: xs) in *.
  set (w := spelled_out sep x1 ls).
  set (w' := spelled_out sep (lower_char x1) (map lower_char ls)).
  assert (Htrim : trim w = w).
  { unfold trim, w, spelled_out. inversion Hl as [|? ? H1 Hl1]; subst.
    destruct (letter_facts _ H1) as (Hs1 & _).
    rewrite trimStart_head by exact Hs1. apply trimEnd_no_space.
    change (chars (String x1 (spelled_tail sep ls)))
      with (x1 :: chars (spelled_tail sep ls)).
    cbn [forallb]. rewrite Hs1. apply no_space_tail; assumption. }
  assert (Hlow : toLowerCase w = w').
  { unfold w, w', spelled_out. unfold toLowerCase at 1. cbn [map_string].
    f_equal. apply toLowerCase_tail; assumption. }
  assert (Hsp : extractSpelledName w' =
                Some (toUpperCase (string_of_list_ascii (map lower_char (x1 :: ls))))).
  { unfold extractSpelledName, spelledByLetters.
    destruct (@match_g_letterPattern_spelled sep Hsep (lower_char x1) (lower_char x2)
                (lower_char x3) (map lower_char xs) Hl') as [tl Hm].
    change (spelled_out sep (lower_char x1) (lower_char x2 :: lower_char x3 :: map lower_char xs))
      with w' in Hm.
    rewrite Hm, joinLetters_filter.
    assert (Hf : filter is_letter (chars w') = map lower_char (x1 :: ls)).
    { unfold w', spelled_out.
      change (chars (String (lower_char x1) (spelled_tail sep (map lower_char ls))))
        with (lower_char x1 :: chars (spelled_tail sep (map lower_char ls))).
      inversion Hl' as [|? ? H1 Hl1]; subst. cbn [filter]. rewrite H1.
      rewrite filter_letters_tail by assumption. reflexivity. }
    rewrite Hf. reflexivity. }
  subst r. unfold extractName. cbv zeta. fold w. rewrite Htrim, Hlow, Hsp.
  assert (Htwo : has_two (Some (toUpperCase (string_of_list_ascii (map lower_char (x1 :: ls)))))
                 = true).
  { reflexivity. }
  rewrite Htwo. cbn [name confidence method text_of].
  split; [|split; reflexivity].
  apply capitalizeFirst_letters. exact Hl.
Qed.

(** The first example of the specification, [J-O-H-N]. *)
Lemma spelled_letters_example :
  let r := extractName "J-O-H-N" in
  name r = "John" /\ confidence r = high /\ method r = spelled.
Proof.
  exact (@spelled_letters_need_three "-" "J" "O" "H" ["N"%char] eq_refl eq_refl).
Defined.


End SpelledClaim.

Section NameClaims.
Import JS Regex NameExtractor.

Lemma isValidName_eq s :
  isValidName s =
  ((1 <=? String.length s)%nat && (String.length s <=? 50)%nat
   && existsb is_letter (chars s) && forallb is_name_char (chars s))%bool.
Proof.
  unfold isValidName. rewrite test_anyLetter, test_nameCharacters.
  destruct s as [|c s]; [reflexivity|].
  change (String.eqb (String c s) "") with false.
  change (String.length (String c s)) with (S (String.length s)).
  change (S (String.length s) <? 1)%nat with false.
  change (1 <=? S (String.length s))%nat with true.
  cbn [orb andb negb].
  replace (50 <? S (String.length s))%nat with (negb (S (String.length s) <=? 50)%nat)
    by (rewrite Nat.leb_antisym, negb_involutive; reflexivity).
  destruct (S (String.length s) <=? 50)%nat; cbn [negb andb]; [|reflexivity].
  destruct (existsb is_letter (chars (String c s))); cbn [negb andb]; [|reflexivity].
  destruct (forallb is_name_char (chars (String c s))); reflexivity.
Qed.

(** C9, as amended.  [isValidName s] is true exactly when [s] has 1 to 50
    characters, contains at least one letter of [a-z] or [A-Z], and consists
    only of such letters, white-space characters (those [\s] matches: space,
    tab, line feed, ...), apostrophes and hyphens.  It rejects the empty
    string, every string of 51 characters and [John3], and accepts
    [Mary-Jane] and [O'Brien]. *)
Theorem isValidName_characterisation :
  (forall s,
     isValidName s = true <->
     (1 <= String.length s <= 50)%nat /\
     (exists c, In c (chars s) /\ is_letter c = true) /\
     (forall c, In c (chars s) ->
        is_letter c = true \/ is_space c = true \/ c = "'"%char \/ c = "-"%char)) /\
  isValidName "" = false /\
  (forall s, String.length s = 51%nat -> isValidName s = false) /\
  isValidName "John3" = false /\
  isValidName "Mary-Jane" = true /\
  isValidName "O'Brien" = true.
Proof.
  split; [|split; [reflexivity|split; [|repeat split]]].
  - intros s. rewrite isValidName_eq, !andb_true_iff, !Nat.leb_le.
    rewrite existsb_exists, forallb_forall. unfold is_name_char.
    split.
    + intros [[[H1 H2] H3] H4]. split; [lia|]. split; [exact H3|].
      intros c Hc. specialize (H4 c Hc). rewrite !orb_true_iff, !Ascii.eqb_eq in H4. tauto.
    + intros [H1 [H3 H4]]. split; [split; [split; lia|exact H3]|].
      intros c Hc. specialize (H4 c Hc). rewrite !orb_true_iff, !Ascii.eqb_eq. tauto.
  - intros s H. rewrite isValidName_eq, H. reflexivity.
Qed.

(** C9 fails as stated: a name with a tab between two letters is accepted,
    although the tab is neither a letter, a space, an apostrophe nor a
    hyphen. *)
Lemma tab_is_accepted :
  let s := String "A" (String "009" "B") in
  isValidName s = true /\
  existsb (fun c => negb (is_letter c || Ascii.eqb c " " || Ascii.eqb c "'"
                          || Ascii.eqb c "-")) (chars s) = true.
Proof. split; reflexivity. Qed.

(** C8.  The three evaluations of the specification. *)
Theorem extractName_examples :
  (let r := extractName "J-O-H-N" in (name r, confidence r, method r))
    = ("John", high, spelled) /\
  (let r := extractName "My name is Sarah, thanks" in (name r, confidence r, method r))
    = ("Sarah", medium, phonetic) /\
  (let r := extractName "Juliet Oscar Hotel November" in (name r, confidence r, method r))
    = ("John", high, nato).
Proof. repeat split; vm_compute; reflexivity. Qed.

End NameClaims.

(* ================================================================== *)
(** * Proofs: the matcher against what a pattern matches *)
(* ================================================================== *)

Section Paths.
Import JS Regex NameExtractor Spelling.

(** A match moves forward: what is left gets shorter as the position
    grows. *)
Lemma path_measure r s s' :
  path r s s' ->
  (String.length (rest s') + pos s' = String.length (rest s) + pos s)%nat /\
  (pos s <= pos s')%nat.
Proof.
  induction 1; simpl in *; try lia.
  rewrite H. simpl. lia.
Qed.

(** Soundness: when the matcher succeeds, the pattern matches up to a
    position at which the continuation succeeds. *)
Lemma star_loop_sound r :
  (forall k s st, run r k s = Some st -> exists s', path r s s' /\ k s' = Some st) ->
  forall fuel k s st,
    star_loop (run r) k fuel s = Some st ->
    exists s', path (Star r) s s' /\ k s' = Some st.
Proof.
  intros IHr. induction fuel as [|fuel IH]; intros k s st H.
  - rewrite star_loop_O in H. exists s. split; [constructor|exact H].
  - rewrite star_loop_S in H.
    destruct (run r (fun s' => if (pos s <? pos s')%nat then star_loop (run r) k fuel s'
                               else None) s) as [st'|] eqn:E.
    + injection H as ->. destruct (IHr _ _ _ E) as (s1 & Hp & Hk).
      destruct (pos s <? pos s1)%nat eqn:El; [|discriminate].
      apply Nat.ltb_lt in El. destruct (IH _ _ _ Hk) as (s2 & Hp2 & Hk2).
      exists s2. split; [|exact Hk2]. eapply path_Star_more; eassumption.
    + exists s. split; [constructor|exact H].
Qed.

Lemma run_sound r : forall k s st,
  run r k s = Some st -> exists s', path r s s' /\ k s' = Some st.
Proof.
  induction r as [|p|r1 IH1 r2 IH2|r1 IH1 r2 IH2|r IH|n r IH| | |]; intros k s st H.
  - exists s. split; [constructor|exact H].
  - cbn [run] in H. destruct (rest s) as [|c r'] eqn:Er; [discriminate|].
    destruct (p c) eqn:Ep; [|discriminate].
    exists (advance c r' s). split; [constructor; assumption|exact H].
  - rewrite run_Seq in H. destruct (IH1 _ _ _ H) as (s1 & Hp1 & H1).
    destruct (IH2 _ _ _ H1) as (s2 & Hp2 & H2).
    exists s2. split; [econstructor; eassumption|exact H2].
  - cbn [run] in H. destruct (run r1 k s) as [st'|] eqn:E.
    + injection H as ->. destruct (IH1 _ _ _ E) as (s1 & Hp1 & H1).
      exists s1. split; [apply path_Alt_l; exact Hp1|exact H1].
    + destruct (IH2 _ _ _ H) as (s1 & Hp1 & H1).
      exists s1. split; [apply path_Alt_r; exact Hp1|exact H1].
  - rewrite run_Star in H. apply (star_loop_sound IH _ _ _ H).
  - cbn [run] in H. destruct (IH _ _ _ H) as (s1 & Hp1 & H1).
    exists (set_cap n s s1). split; [constructor; exact Hp1|exact H1].
  - cbn [run] in H. destruct (pos s =? 0)%nat eqn:E; [|discriminate].
    apply Nat.eqb_eq in E. exists s. split; [constructor; exact E|exact H].
  - cbn [run] in H. destruct (rest s) eqn:E; [|discriminate].
    exists s. split; [constructor; exact E|exact H].
  - cbn [run] in H.
    destruct (xorb (Regex.is_word (prev s)) (Regex.is_word (next_char (rest s)))) eqn:E;
      [|discriminate].
    exists s. split; [constructor; exact E|exact H].
Qed.

(** Completeness: when the pattern matches up to a position at which the
    continuation succeeds, the matcher succeeds. *)
Lemma run_complete r s s' :
  path r s s' ->
  (forall k, k s' <> None -> run r k s <> None) /\
  (forall r0, r = Star r0 ->
     forall k fuel, (String.length (rest s) <= fuel)%nat -> k s' <> None ->
       star_loop (run r0) k fuel s <> None).
Proof.
  induction 1 as [s|p s c r' Hr Hp|r1 r2 s s1 s2 H1 IH1 H2 IH2|r1 r2 s s' H1 IH1
                 |r1 r2 s s' H1 IH1|r s|r s s1 s2 H1 IH1 Hlt H2 IH2|n r s s' H1 IH1
                 |s Hs|s Hs|s Hs].
  - split; [intros k Hk; exact Hk|discriminate].
  - split; [|discriminate]. intros k Hk. cbn [run]. rewrite Hr, Hp. exact Hk.
  - split; [|discriminate]. intros k Hk. rewrite run_Seq.
    apply (proj1 IH1). apply (proj1 IH2). exact Hk.
  - split; [|discriminate]. intros k Hk. cbn [run].
    pose proof (proj1 IH1 k Hk) as H. destruct (run r1 k s); congruence.
  - split; [|discriminate]. intros k Hk. cbn [run].
    destruct (run r1 k s); [discriminate|]. apply (proj1 IH1 k Hk).
  - assert (Hstar : forall k fuel, k s <> None -> star_loop (run r) k fuel s <> None).
    { intros k fuel Hk. destruct fuel; [exact Hk|]. rewrite star_loop_S.
      destruct (run r _ s); [discriminate|exact Hk]. }
    split.
    + intros k Hk. rewrite run_Star. apply Hstar, Hk.
    + intros r0 E k fuel _ Hk. injection E as <-. apply Hstar, Hk.
  - assert (Hstar : forall k fuel, (String.length (rest s) <= fuel)%nat -> k s2 <> None ->
                      star_loop (run r) k fuel s <> None).
    { intros k fuel Hf Hk. destruct (path_measure H1) as [Hm _].
      destruct fuel as [|fuel]; [lia|]. rewrite star_loop_S.
      assert (Hbody : run r (fun s' => if (pos s <? pos s')%nat
                                       then star_loop (run r) k fuel s' else None) s <> None).
      { apply (proj1 IH1). rewrite (proj2 (Nat.ltb_lt _ _) Hlt).
        apply (proj2 IH2 r eq_refl); [lia|exact Hk]. }
      destruct (run r _ s); [discriminate|congruence]. }
    split.
    + intros k Hk. rewrite run_Star. apply Hstar; [lia|exact Hk].
    + intros r0 E k fuel Hf Hk. injection E as <-. apply Hstar; assumption.
  - split; [|discriminate]. intros k Hk. cbn [run]. apply (proj1 IH1). exact Hk.
  - split; [|discriminate]. intros k Hk. cbn [run]. rewrite Hs. exact Hk.
  - split; [|discriminate]. intros k Hk. cbn [run]. rewrite Hs. exact Hk.
  - split; [|discriminate]. intros k Hk. cbn [run]. rewrite Hs. exact Hk.
Qed.

(** The matcher's answer is known as soon as the continuation gives one
    answer at every position where it succeeds. *)
Lemma run_determined r k s v :
  (forall s', path r s s' -> k s' = None \/ k s' = v) ->
  (exists s', path r s s' /\ k s' = v) ->
  run r k s = v.
Proof.
  intros Hall (s1 & Hp1 & Hk1). destruct (run r k s) as [st|] eqn:E.
  - destruct (run_sound _ _ _ E) as (s' & Hp & Hk).
    destruct (Hall s' Hp) as [Hn|Hv]; congruence.
  - destruct v as [st|]; [|reflexivity]. exfalso.
    apply (proj1 (run_complete Hp1) k); [congruence|exact E].
Qed.

End Paths.

Section PatternFacts.
Import JS Regex NameExtractor Spelling.

(** By cases on the 256 characters. *)
Lemma separator_char_facts c :
  is_separator_char c = true ->
  is_letter c = false /\ lower_char c = c /\ is_word_char c = false /\
  (is_punctuation c = false -> is_space c = true).
Proof.
  destruct c as [b0 b1 b2 b3 b4 b5 b6 b7].
  destruct b0, b1, b2, b3, b4, b5, b6, b7; intros H;
    try (vm_compute in H; discriminate H); vm_compute; repeat split;
    intros; try discriminate; reflexivity.
Qed.

Lemma space_facts c :
  is_space c = true -> is_punctuation c = false /\ is_separator_char c = true.
Proof.
  destruct c as [b0 b1 b2 b3 b4 b5 b6 b7].
  destruct b0, b1, b2, b3, b4, b5, b6, b7; intros H;
    try (vm_compute in H; discriminate H); vm_compute; repeat split.
Qed.

Lemma lower_char_facts c :
  is_letter (lower_char c) = is_letter c /\
  is_word_char (lower_char c) = is_word_char c /\
  is_space (lower_char c) = is_space c /\
  is_separator_char (lower_char c) = is_separator_char c /\
  lower_char (lower_char c) = lower_char c.
Proof.
  destruct c as [b0 b1 b2 b3 b4 b5 b6 b7].
  destruct b0, b1, b2, b3, b4, b5, b6, b7; vm_compute; repeat split.
Qed.

Lemma adv_add n m s : adv (n + m) s = adv m (adv n s).
Proof. revert s. induction n as [|n IH]; intros s; simpl; [reflexivity|apply IH]. Qed.

Lemma step_advance s c r : rest s = String c r -> step s = advance c r s.
Proof. intros H. unfold step. rewrite H. reflexivity. Qed.

(** Where [adv] arrives after a prefix of the input. *)
Lemma adv_facts w : forall s r,
  rest s = (w ++ r)%string ->
  rest (adv (String.length w) s) = r /\
  pos (adv (String.length w) s) = (pos s + String.length w)%nat /\
  prev (adv (String.length w) s) = last_char (prev s) w /\
  caps (adv (String.length w) s) = caps s.
Proof.
  induction w as [|c w IH]; intros s r H.
  - simpl in *. repeat split; [exact H|lia].
  - simpl in H. cbn [String.length adv]. rewrite (step_advance _ H).
    destruct (IH (advance c (w ++ r) s) r eq_refl) as (H1 & H2 & H3 & H4).
    repeat split; [exact H1|rewrite H2; simpl; lia|exact H3|exact H4].
Qed.

Lemma path_Char_inv p s s' :
  path (Char p) s s' ->
  exists c r, rest s = String c r /\ p c = true /\ s' = advance c r s.
Proof. inversion 1; subst. eauto. Qed.

(** A star over a class of characters. *)
Lemma path_star_class_inv p r0 s s' :
  path r0 s s' -> r0 = Star (Char p) ->
  exists w, rest s = (w ++ rest s')%string /\ forallb p (chars w) = true /\
            s' = adv (String.length w) s.
Proof.
  induction 1 as [| | | | |r s|r s s1 s2 H1 _ Hlt H2 IH2| | | |]; intros E; try discriminate.
  - exists "". repeat split.
  - injection E as ->. destruct (IH2 eq_refl) as (w & Hw & Hp & Hs).
    destruct (path_Char_inv H1) as (c & r' & Hr & Hc & E1).
    exists (String c w). rewrite E1 in Hw, Hs. cbn [rest advance] in Hw. split; [|split].
    + rewrite Hr, Hw. reflexivity.
    + change (chars (String c w)) with (c :: chars w). cbn [forallb]. rewrite Hc, Hp.
      reflexivity.
    + cbn [String.length adv]. rewrite (step_advance _ Hr). exact Hs.
Qed.

Lemma path_star_class p : forall w s r,
  rest s = (w ++ r)%string -> forallb p (chars w) = true ->
  path (Star (Char p)) s (adv (String.length w) s).
Proof.
  induction w as [|c w IH]; intros s r H Hp.
  - constructor.
  - simpl in H. change (chars (String c w)) with (c :: chars w) in Hp. cbn [forallb] in Hp.
    apply andb_true_iff in Hp. destruct Hp as [Hc Hw].
    cbn [String.length adv]. rewrite (step_advance _ H).
    eapply path_Star_more.
    + constructor; eassumption.
    + simpl. lia.
    + apply (IH (advance c (w ++ r) s) r eq_refl Hw).
Qed.

Lemma blank_separators w :
  forallb is_space (chars w) = true ->
  forallb is_separator_char (chars w) = true /\ filter is_punctuation (chars w) = [].
Proof.
  induction w as [|c w IH]; [split; reflexivity|].
  change (chars (String c w)) with (c :: chars w). cbn [forallb filter]. intros H.
  apply andb_true_iff in H. destruct H as [Hc Hw].
  destruct (space_facts _ Hc) as [Hp Hs]. destruct (IH Hw) as [H1 H2].
  rewrite Hp, Hs, H1, H2. split; reflexivity.
Qed.

Lemma chars_append a b : chars (a ++ b) = chars a ++ chars b.
Proof.
  unfold chars. induction a as [|c a IH]; simpl; [reflexivity|]. rewrite IH. reflexivity.
Qed.

(** A separator is white space around one separator character, and
    conversely. *)
Lemma separator_parts a m b :
  forallb is_space (chars a) = true -> is_separator_char m = true ->
  forallb is_space (chars b) = true ->
  is_separator (a ++ String m b) = true.
Proof.
  intros Ha Hm Hb. destruct (blank_separators _ Ha) as [Ha1 Ha2].
  destruct (blank_separators _ Hb) as [Hb1 Hb2]. unfold is_separator.
  rewrite chars_append. change (chars (String m b)) with (m :: chars b).
  rewrite forallb_app, filter_app. cbn [forallb filter].
  rewrite Ha1, Ha2, Hm, Hb1, Hb2.
  assert (Hne : String.eqb (a ++ String m b) "" = false) by (destruct a; reflexivity).
  rewrite Hne. destruct (is_punctuation m); reflexivity.
Qed.

Lemma separator_split sep :
  is_separator sep = true ->
  exists a m b,
    sep = (a ++ String m b)%string /\ forallb is_space (chars a) = true /\
    is_separator_char m = true /\ forallb is_space (chars b) = true.
Proof.
  unfold is_separator. intros H. apply andb_true_iff in H. destruct H as [H Hcount].
  apply andb_true_iff in H. destruct H as [Hne Hall]. apply Nat.leb_le in Hcount.
  induction sep as [|c sep IH]; [discriminate|].
  change (chars (String c sep)) with (c :: chars sep) in *. cbn [forallb filter] in *.
  apply andb_true_iff in Hall. destruct Hall as [Hc Hall].
  destruct (separator_char_facts _ Hc) as (_ & _ & _ & Hsp).
  destruct (is_punctuation c) eqn:Ep.
  - exists "", c, sep. repeat split; [exact Hc|].
    simpl in Hcount.
    assert (Hnone : filter is_punctuation (chars sep) = [])
      by (destruct (filter is_punctuation (chars sep)); [reflexivity|simpl in Hcount; lia]).
    clear IH Hcount Hne. induction sep as [|d sep IHs]; [reflexivity|].
    change (chars (String d sep)) with (d :: chars sep) in *. cbn [forallb filter] in *.
    apply andb_true_iff in Hall. destruct Hall as [Hd Hall].
    destruct (separator_char_facts _ Hd) as (_ & _ & _ & Hdsp).
    destruct (is_punctuation d); [discriminate|].
    rewrite (Hdsp eq_refl), (IHs Hall Hnone). reflexivity.
  - destruct sep as [|d sep].
    + exists "", c, "". repeat split. exact Hc.
    + destruct (IH eq_refl Hall Hcount) as (a & m & b & E & Ha & Hm & Hb).
      exists (String c a), m, b. rewrite E. repeat split; [|exact Hm|exact Hb].
      change (chars (String c a)) with (c :: chars a). cbn [forallb].
      rewrite (Hsp eq_refl), Ha. reflexivity.
Qed.

End PatternFacts.

Section LetterPattern.
Import JS Regex NameExtractor Spelling.

Lemma path_Seq_inv r1 r2 s s2 :
  path (Seq r1 r2) s s2 -> exists s1, path r1 s s1 /\ path r2 s1 s2.
Proof. inversion 1; subst. eauto. Qed.

Lemma path_WordBoundary_inv s s' :
  path WordBoundary s s' ->
  s' = s /\ xorb (Regex.is_word (prev s)) (Regex.is_word (next_char (rest s))) = true.
Proof. inversion 1; subst. split; [reflexivity|assumption]. Qed.

Lemma path_letter_inv n s s' :
  path (Group n letter) s s' ->
  exists c r, rest s = String c r /\ is_letter c = true /\ s' = set_cap n s (advance c r s).
Proof.
  inversion 1 as [| | | | | | |? ? ? s1 H1| | |]; subst.
  destruct (path_Char_inv H1) as (c & r & Hr & Hc & ->). eauto.
Qed.

Lemma path_letter n s c r :
  rest s = String c r -> is_letter c = true ->
  path (Group n letter) s (set_cap n s (advance c r s)).
Proof. intros Hr Hc. constructor. constructor; assumption. Qed.

(** The separator consumes a separator, and every separator can be
    consumed. *)
Lemma path_separator_inv s s' :
  path separator s s' ->
  exists w, rest s = (w ++ rest s')%string /\ is_separator w = true /\
            s' = adv (String.length w) s.
Proof.
  intros H. unfold separator, space in H.
  destruct (path_Seq_inv H) as (s1 & H1 & H23).
  destruct (path_Seq_inv H23) as (s2 & H2 & H3).
  destruct (path_star_class_inv H1 eq_refl) as (a & Ha & Hab & E1).
  destruct (path_Char_inv H2) as (m & r & Hr & Hm & E2).
  destruct (path_star_class_inv H3 eq_refl) as (b & Hb & Hbb & E3).
  assert (Hr2 : rest s2 = r) by (rewrite E2; reflexivity).
  exists (a ++ String m b)%string. split; [|split].
  - rewrite Ha, Hr, <- Hr2, Hb, append_assoc. reflexivity.
  - apply separator_parts; assumption.
  - rewrite length_append. cbn [String.length].
    replace (String.length a + S (String.length b))%nat
      with (String.length a + 1 + String.length b)%nat by lia.
    rewrite !adv_add. cbn [adv]. rewrite <- E1, (step_advance _ Hr), <- E2. exact E3.
Qed.

Lemma path_separator sep s r :
  rest s = (sep ++ r)%string -> is_separator sep = true ->
  path separator s (adv (String.length sep) s).
Proof.
  intros Hr Hsep. destruct (separator_split _ Hsep) as (a & m & b & -> & Ha & Hm & Hb).
  rewrite append_assoc in Hr.
  destruct (adv_facts a s _ Hr) as (Hra & _).
  unfold separator, space. rewrite length_append. cbn [String.length].
  replace (String.length a + S (String.length b))%nat
    with (String.length a + 1 + String.length b)%nat by lia.
  rewrite !adv_add. cbn [adv]. cbn [append] in Hra. rewrite (step_advance _ Hra).
  eapply path_Seq; [apply (@path_star_class is_space a s _ Hr Ha)|].
  eapply path_Seq; [constructor; eassumption|].
  apply (@path_star_class is_space b (advance m (b ++ r) (adv (String.length a) s)) r
           eq_refl Hb).
Qed.

Lemma length_tokens_tail_cons sep x tail :
  String.length (tokens_tail ((sep, x) :: tail)) =
  (String.length sep + S (String.length (tokens_tail tail)))%nat.
Proof. cbn [tokens_tail]. rewrite length_append. reflexivity. Qed.

(** The repetition of the pattern consumes letters after separators. *)
Lemma path_tail_inv r0 s s' :
  path r0 s s' -> r0 = Star (Seq separator (Group 4 letter)) ->
  exists tail,
    rest s = (tokens_tail tail ++ rest s')%string /\ well_separated tail = true /\
    pos s' = (pos s + String.length (tokens_tail tail))%nat /\
    (Regex.is_word (prev s) = true -> Regex.is_word (prev s') = true).
Proof.
  induction 1 as [| | | | |r s|r s s1 s2 H1 _ Hlt H2 IH2| | | |]; intros E; try discriminate.
  - exists []. simpl. repeat split; [lia|auto].
  - injection E as ->. destruct (IH2 eq_refl) as (tail & Ht & Hws & Hpos & Hprev).
    destruct (path_Seq_inv H1) as (s0 & Hsep & Hlet).
    destruct (path_separator_inv Hsep) as (w & Hw & Hwsep & E0).
    destruct (path_letter_inv Hlet) as (c & r & Hr & Hc & E1).
    assert (Hp0 : pos s0 = (pos s + String.length w)%nat).
    { rewrite E0. apply (adv_facts w s _ Hw). }
    assert (Hs1 : rest s1 = r /\ pos s1 = S (pos s0) /\ prev s1 = Some c)
      by (rewrite E1; repeat split).
    destruct Hs1 as (Hr1 & Hp1 & Hv1).
    exists ((w, c) :: tail). split; [|split; [|split]].
    + cbn [tokens_tail]. rewrite Hw, Hr, <- Hr1, Ht, append_assoc. reflexivity.
    + cbn [well_separated forallb fst snd]. rewrite Hwsep, Hc. exact Hws.
    + rewrite Hpos, Hp1, Hp0, length_tokens_tail_cons. lia.
    + intros _. apply Hprev. rewrite Hv1. apply (letter_facts _ Hc).
Qed.

Lemma path_tail : forall tail s post,
  rest s = (tokens_tail tail ++ post)%string -> well_separated tail = true ->
  exists s',
    path (Star (Seq separator (Group 4 letter))) s s' /\ rest s' = post /\
    (Regex.is_word (prev s) = true -> Regex.is_word (prev s') = true).
Proof.
  induction tail as [|[sep x] tail IH]; intros s post Hr Hws.
  - exists s. split; [constructor|]. split; [exact Hr|auto].
  - cbn [well_separated forallb fst snd] in Hws. apply andb_true_iff in Hws.
    destruct Hws as [Hsx Hws]. apply andb_true_iff in Hsx. destruct Hsx as [Hsep Hx].
    cbn [tokens_tail] in Hr. rewrite append_assoc in Hr.
    destruct (adv_facts sep s _ Hr) as (Hr0 & Hp0 & _).
    set (s0 := adv (String.length sep) s) in *.
    set (s1 := set_cap 4 s0 (advance x (tokens_tail tail ++ post) s0)).
    destruct (IH s1 post eq_refl Hws) as (s' & Hp & Hrest & Hprev).
    exists s'. split; [|split; [exact Hrest|]].
    + eapply path_Star_more; [| |exact Hp].
      * eapply path_Seq; [apply (@path_separator sep s _ Hr Hsep)|].
        apply path_letter; assumption.
      * simpl. fold s0. rewrite Hp0.
        assert (0 < String.length sep)%nat; [|lia].
        unfold is_separator in Hsep. destruct sep; [discriminate|simpl; lia].
    + intros _. apply Hprev. simpl. apply (letter_facts _ Hx).
Qed.

(** What the single-letter pattern matches: a run of three or more tokens
    that no word character precedes or follows. *)
Lemma path_letterPattern_inv s s' :
  path letterPattern s s' ->
  exists x tail,
    rest s = (tokens x tail ++ rest s')%string /\ is_run x tail = true /\
    pos s' = (pos s + String.length (tokens x tail))%nat /\
    Regex.is_word (prev s) = false /\ Regex.is_word (next_char (rest s')) = false.
Proof.
  intros H. unfold letterPattern in H.
  destruct (path_Seq_inv H) as (s0 & Hb & H1).
  destruct (path_WordBoundary_inv Hb) as [E0 Hxor]. rewrite E0 in H1. clear E0 Hb s0.
  destruct (path_Seq_inv H1) as (s1 & Hl1 & H2).
  destruct (path_letter_inv Hl1) as (x1 & r1 & Hr1 & Hx1 & E1).
  destruct (path_Seq_inv H2) as (s2 & Hsep1 & H3).
  destruct (path_separator_inv Hsep1) as (w1 & Hw1 & Hws1 & E2).
  destruct (path_Seq_inv H3) as (s3 & Hl2 & H4).
  destruct (path_letter_inv Hl2) as (x2 & r2 & Hr2 & Hx2 & E3).
  destruct (path_Seq_inv H4) as (s4 & Hsep2 & H5).
  destruct (path_separator_inv Hsep2) as (w2 & Hw2 & Hws2 & E4).
  destruct (path_Seq_inv H5) as (s5 & Hl3 & H6).
  destruct (path_letter_inv Hl3) as (x3 & r3 & Hr3 & Hx3 & E5).
  destruct (path_Seq_inv H6) as (s6 & Ht & He).
  destruct (path_WordBoundary_inv He) as [E6 Hxor'].
  destruct (path_tail_inv Ht eq_refl) as (tail & Htl & Hwst & Hpt & Hprev).
  rewrite E6 in *. clear E6.
  assert (F1 : rest s1 = r1 /\ pos s1 = S (pos s)) by (rewrite E1; split; reflexivity).
  assert (F2 : pos s2 = (pos s1 + String.length w1)%nat)
    by (rewrite E2; apply (adv_facts w1 s1 _ Hw1)).
  assert (F3 : rest s3 = r2 /\ pos s3 = S (pos s2)) by (rewrite E3; split; reflexivity).
  assert (F4 : pos s4 = (pos s3 + String.length w2)%nat)
    by (rewrite E4; apply (adv_facts w2 s3 _ Hw2)).
  assert (F5 : rest s5 = r3 /\ pos s5 = S (pos s4) /\ prev s5 = Some x3)
    by (rewrite E5; repeat split).
  destruct F1 as [F1 G1]. destruct F3 as [F3 G3]. destruct F5 as (F5 & G5 & P5).
  exists x1, ((w1, x2) :: (w2, x3) :: tail). split; [|split; [|split; [|split]]].
  - unfold tokens. cbn [tokens_tail].
    rewrite Hr1, <- F1, Hw1, Hr2, <- F3, Hw2, Hr3, <- F5, Htl.
    cbn [append]. rewrite !append_assoc. cbn [append]. rewrite !append_assoc. reflexivity.
  - unfold is_run, well_separated in *. cbn [forallb fst snd List.length].
    rewrite Hx1, Hws1, Hx2, Hws2, Hx3, Hwst. reflexivity.
  - rewrite Hpt, G5, F4, G3, F2, G1. unfold tokens. cbn [String.length].
    rewrite !length_tokens_tail_cons. lia.
  - rewrite Hr1 in Hxor. cbn [next_char] in Hxor.
    destruct (letter_facts _ Hx1) as (_ & Hw & _).
    unfold Regex.is_word at 2 in Hxor. rewrite Hw in Hxor.
    destruct (Regex.is_word (prev s)); [discriminate|reflexivity].
  - assert (Hp : Regex.is_word (prev s6) = true).
    { apply Hprev. rewrite P5. apply (letter_facts _ Hx3). }
    rewrite Hp in Hxor'. destruct (Regex.is_word (next_char (rest s6))); [discriminate|].
    reflexivity.
Qed.

Lemma tokens_tail_cons_app sep x tail post :
  (tokens_tail ((sep, x) :: tail) ++ post)%string =
  (sep ++ String x (tokens_tail tail ++ post))%string.
Proof. cbn [tokens_tail]. rewrite append_assoc. reflexivity. Qed.

(** Conversely the pattern matches every such run. *)
Lemma path_letterPattern x tail post s :
  rest s = (tokens x tail ++ post)%string -> is_run x tail = true ->
  Regex.is_word (prev s) = false -> Regex.is_word (next_char post) = false ->
  exists s', path letterPattern s s'.
Proof.
  intros Hr Hrun Hprev Hnext. unfold is_run in Hrun.
  apply andb_true_iff in Hrun. destruct Hrun as [Hrun Hlen].
  apply andb_true_iff in Hrun. destruct Hrun as [Hx Hws].
  destruct tail as [|[w1 x2] [|[w2 x3] tail]]; try discriminate.
  cbn [well_separated forallb fst snd] in Hws.
  apply andb_true_iff in Hws. destruct Hws as [H1 Hws].
  apply andb_true_iff in H1. destruct H1 as [Hw1 Hx2].
  apply andb_true_iff in Hws. destruct Hws as [H2 Hws].
  apply andb_true_iff in H2. destruct H2 as [Hw2 Hx3].
  set (r3 := (tokens_tail tail ++ post)%string).
  set (r2 := (w2 ++ String x3 r3)%string).
  set (r1 := (w1 ++ String x2 r2)%string).
  assert (Hr' : rest s = String x r1).
  { rewrite Hr. unfold tokens. cbn [append]. rewrite !tokens_tail_cons_app. reflexivity. }
  set (s1 := set_cap 1 s (advance x r1 s)).
  destruct (adv_facts w1 s1 (String x2 r2) eq_refl) as (R2 & _).
  set (s2 := adv (String.length w1) s1) in *.
  set (s3 := set_cap 2 s2 (advance x2 r2 s2)).
  destruct (adv_facts w2 s3 (String x3 r3) eq_refl) as (R4 & _).
  set (s4 := adv (String.length w2) s3) in *.
  set (s5 := set_cap 3 s4 (advance x3 r3 s4)).
  destruct (@path_tail tail s5 post eq_refl Hws) as (s6 & Hp6 & R6 & P6).
  exists s6. unfold letterPattern.
  eapply path_Seq.
  { apply path_WordBoundary. rewrite Hprev, Hr'. cbn [next_char].
    unfold Regex.is_word. rewrite (proj1 (proj2 (letter_facts _ Hx))). reflexivity. }
  eapply path_Seq; [apply (@path_letter 1 s x r1 Hr' Hx)|]. fold s1.
  eapply path_Seq; [apply (@path_separator w1 s1 (String x2 r2) eq_refl Hw1)|]. fold s2.
  eapply path_Seq; [apply (@path_letter 2 s2 x2 r2 R2 Hx2)|]. fold s3.
  eapply path_Seq; [apply (@path_separator w2 s3 (String x3 r3) eq_refl Hw2)|]. fold s4.
  eapply path_Seq; [apply (@path_letter 3 s4 x3 r3 R4 Hx3)|]. fold s5.
  eapply path_Seq; [exact Hp6|].
  apply path_WordBoundary. rewrite R6, Hnext, P6; [reflexivity|].
  simpl. apply (letter_facts _ Hx3).
Qed.

End LetterPattern.

Section LeftmostMatch.
Import JS Regex NameExtractor Spelling.

Lemma substring_prefix w r : substring 0 (String.length w) (w ++ r) = w.
Proof. induction w as [|c w IH]; simpl; [destruct r; reflexivity|]. rewrite IH. reflexivity. Qed.

Lemma last_char_app p a b : last_char p (a ++ b) = last_char (last_char p a) b.
Proof. revert p. induction a as [|c a IH]; intros p; simpl; [reflexivity|apply IH]. Qed.

(** Two ways of cutting one string. *)
Lemma append_cuts a : forall b c d,
  (a ++ b)%string = (c ++ d)%string ->
  (exists e, c = (a ++ e)%string /\ b = (e ++ d)%string) \/
  (exists x e, a = (c ++ String x e)%string /\ d = (String x e ++ b)%string).
Proof.
  induction a as [|x a IH]; intros b c d H.
  - left. exists c. simpl in *. split; [reflexivity|exact H].
  - destruct c as [|y c].
    + right. exists x, a. simpl in *. split; [reflexivity|]. symmetry. exact H.
    + simpl in H. injection H as -> H.
      destruct (IH _ _ _ H) as [(e & -> & ->) | (z & e & -> & ->)].
      * left. exists e. split; reflexivity.
      * right. exists z, e. split; reflexivity.
Qed.

(** The leftmost search: where it finds a match nothing matches before, and
    it finds one as soon as something matches somewhere. *)
Lemma search_inv r : forall s p i m,
  search r p s i = Some m ->
  exists pre s',
    s = (pre ++ s')%string /\
    match_at r (last_char p pre) s' (i + String.length pre) = Some m /\
    forall pre1 c s1, pre = (pre1 ++ String c s1)%string ->
      match_at r (last_char p pre1) (String c s1 ++ s') (i + String.length pre1) = None.
Proof.
  induction s as [|c s IH]; intros p i m H; rewrite search_unfold in H.
  - destruct (match_at r p "" i) as [m'|] eqn:E; [|discriminate].
    exists "", "". simpl. rewrite Nat.add_0_r. split; [reflexivity|]. split; [congruence|].
    intros pre1 c s1 E1. destruct pre1; discriminate.
  - destruct (match_at r p (String c s) i) as [m'|] eqn:E.
    + exists "", (String c s). simpl. rewrite Nat.add_0_r.
      split; [reflexivity|]. split; [congruence|].
      intros pre1 d s1 E1. destruct pre1; discriminate.
    + destruct (IH _ _ _ H) as (pre & s' & -> & Hm & Hbefore).
      exists (String c pre), s'. split; [reflexivity|]. split.
      * cbn [last_char String.length].
        replace (i + S (String.length pre))%nat with (S i + String.length pre)%nat by lia.
        exact Hm.
      * intros pre1 d s1 E1. destruct pre1 as [|c1 pre1].
        -- simpl in E1. injection E1 as <- <-. simpl. rewrite Nat.add_0_r. exact E.
        -- simpl in E1. injection E1 as <- ->. cbn [last_char String.length].
           replace (i + S (String.length pre1))%nat with (S i + String.length pre1)%nat
             by lia.
           apply (Hbefore pre1 d s1 eq_refl).
Qed.

Lemma search_some r : forall pre p s i,
  match_at r (last_char p pre) s (i + String.length pre) <> None ->
  search r p (pre ++ s) i <> None.
Proof.
  induction pre as [|c pre IH]; intros p s i H; rewrite search_unfold.
  - simpl in *. rewrite Nat.add_0_r in H.
    destruct (match_at r p s i); [discriminate|contradiction].
  - cbn [append]. destruct (match_at r p (String c (pre ++ s)) i); [discriminate|].
    apply IH. cbn [last_char String.length] in H.
    replace (S i + String.length pre)%nat with (i + S (String.length pre))%nat by lia.
    exact H.
Qed.

Lemma search_first r : forall pre p s i m,
  (forall pre1 c s1, pre = (pre1 ++ String c s1)%string ->
     match_at r (last_char p pre1) (String c s1 ++ s) (i + String.length pre1) = None) ->
  match_at r (last_char p pre) s (i + String.length pre) = Some m ->
  search r p (pre ++ s) i = Some m.
Proof.
  induction pre as [|c pre IH]; intros p s i m Hbefore Hm; rewrite search_unfold.
  - simpl in *. rewrite Nat.add_0_r in Hm. rewrite Hm. reflexivity.
  - cbn [append].
    pose proof (Hbefore "" c pre eq_refl) as H0. simpl in H0. rewrite Nat.add_0_r in H0.
    rewrite H0. apply IH.
    + intros pre1 d s1 E1. subst pre.
      pose proof (Hbefore (String c pre1) d s1 eq_refl) as H1.
      cbn [last_char String.length] in H1.
      replace (S i + String.length pre1)%nat with (i + S (String.length pre1))%nat by lia.
      exact H1.
    + cbn [last_char String.length] in Hm.
      replace (S i + String.length pre)%nat with (i + S (String.length pre))%nat by lia.
      exact Hm.
Qed.

(** The first of the matches a pattern with the [g] flag reports is the
    leftmost match. *)
Lemma match_g_first r s m :
  search r None s 0 = Some m -> exists others, match_g r s = Some (matched m :: others).
Proof.
  intros H. unfold match_g, match_all. rewrite match_all_from_S, H.
  destruct (stop m =? index m)%nat.
  - destruct (after m); eexists; reflexivity.
  - eexists. reflexivity.
Qed.

(** A match of the single-letter pattern is a run of tokens. *)
Lemma match_at_letterPattern_inv p s i m :
  match_at letterPattern p s i = Some m ->
  exists x tail post,
    s = (tokens x tail ++ post)%string /\ is_run x tail = true /\
    Regex.is_word p = false /\ Regex.is_word (next_char post) = false /\
    matched m = tokens x tail.
Proof.
  unfold match_at. intros H.
  destruct (run letterPattern Some {| prev := p; rest := s; pos := i; caps := [] |})
    as [st|] eqn:E; [|discriminate].
  injection H as <-. destruct (run_sound _ _ _ E) as (s' & Hp & Hs'). injection Hs' as ->.
  destruct (path_letterPattern_inv Hp) as (x & tail & Hr & Hrun & Hpos & Hprev & Hnext).
  cbn [rest pos prev] in *.
  exists x, tail, (rest st). repeat split; try assumption.
  cbn [matched]. rewrite Hpos, Hr.
  replace (i + String.length (tokens x tail) - i)%nat with (String.length (tokens x tail))
    by lia.
  apply substring_prefix.
Qed.

Lemma match_at_letterPattern_some p x tail post i :
  is_run x tail = true -> Regex.is_word p = false ->
  Regex.is_word (next_char post) = false ->
  match_at letterPattern p (tokens x tail ++ post) i <> None.
Proof.
  intros Hrun Hp Hn. unfold match_at.
  set (s0 := {| prev := p; rest := (tokens x tail ++ post)%string; pos := i; caps := [] |}).
  destruct (@path_letterPattern x tail post s0 eq_refl Hrun Hp Hn) as (s' & Hpath).
  pose proof (proj1 (run_complete Hpath) Some) as H.
  destruct (run letterPattern Some s0); [discriminate|].
  exfalso. apply H; [discriminate|reflexivity].
Qed.

End LeftmostMatch.

Section Greedy.
Import JS Regex NameExtractor Spelling.

Lemma separator_letter_free sep :
  is_separator sep = true -> letter_free sep = true.
Proof.
  unfold is_separator, letter_free. intros H.
  apply andb_true_iff in H. destruct H as [H _].
  apply andb_true_iff in H. destruct H as [_ H].
  induction (chars sep) as [|c l IH]; [reflexivity|]. cbn [forallb] in *.
  apply andb_true_iff in H. destruct H as [Hc Hl].
  rewrite (proj1 (separator_char_facts _ Hc)), (IH Hl). reflexivity.
Qed.

Lemma letter_free_app a b :
  letter_free (a ++ b) = (letter_free a && letter_free b)%bool.
Proof. unfold letter_free. rewrite chars_append, forallb_app. reflexivity. Qed.

(** Two letter-free strings that end at a letter of one input are equal. *)
Lemma letter_free_prefix a : forall b c r d r',
  letter_free a = true -> letter_free b = true ->
  is_letter c = true -> is_letter d = true ->
  (a ++ String c r)%string = (b ++ String d r')%string -> a = b.
Proof.
  unfold letter_free.
  induction a as [|x a IH]; intros b c r d r' Ha Hb Hc Hd E.
  - destruct b as [|y b]; [reflexivity|]. simpl in E. injection E as <- _.
    change (chars (String c b)) with (c :: chars b) in Hb. cbn [forallb] in Hb.
    rewrite Hc in Hb. discriminate.
  - destruct b as [|y b].
    + simpl in E. injection E as -> _.
      change (chars (String d a)) with (d :: chars a) in Ha. cbn [forallb] in Ha.
      rewrite Hd in Ha. discriminate.
    + simpl in E. injection E as <- E.
      change (chars (String x a)) with (x :: chars a) in Ha.
      change (chars (String x b)) with (x :: chars b) in Hb. cbn [forallb] in Ha, Hb.
      apply andb_true_iff in Ha, Hb. f_equal.
      apply (IH b c r d r' (proj2 Ha) (proj2 Hb) Hc Hd E).
Qed.

Lemma run_letter_miss n k s :
  match rest s with String c _ => is_letter c = false | EmptyString => True end ->
  run (Group n letter) k s = None.
Proof.
  intros H. unfold letter. cbn [run]. destruct (rest s) as [|c r]; [reflexivity|].
  rewrite H. reflexivity.
Qed.

(** Before a letter the separator has one way to go on, whatever the order
    in which the white space around the separator character is tried. *)
Lemma run_separator_letter n k s sep y r :
  rest s = (sep ++ String y r)%string -> is_separator sep = true -> is_letter y = true ->
  run separator (run (Group n letter) k) s =
  run (Group n letter) k (adv (String.length sep) s).
Proof.
  intros Hr Hsep Hy. apply run_determined.
  - intros s' Hp. destruct (path_separator_inv Hp) as (w & Hw & Hwsep & E).
    destruct (rest s') as [|c r'] eqn:Er.
    + left. apply run_letter_miss. rewrite Er. exact I.
    + destruct (is_letter c) eqn:Ec.
      * right. rewrite Hr in Hw.
        assert (Ew : w = sep).
        { apply (@letter_free_prefix w sep c r' y r
                   (separator_letter_free _ Hwsep) (separator_letter_free _ Hsep) Ec Hy).
          symmetry. exact Hw. }
        rewrite E, Ew. reflexivity.
      * left. apply run_letter_miss. rewrite Er. exact Ec.
  - exists (adv (String.length sep) s). split; [|reflexivity].
    apply (@path_separator sep s _ Hr Hsep).
Qed.

Lemma run_separator_then_letter n r0 k s sep y r :
  rest s = (sep ++ String y r)%string -> is_separator sep = true -> is_letter y = true ->
  run (Seq separator (Seq (Group n letter) r0)) k s =
  run (Seq (Group n letter) r0) k (adv (String.length sep) s).
Proof.
  intros Hr Hsep Hy. exact (@run_separator_letter n (run r0 k) s sep y r Hr Hsep Hy).
Qed.

(** The greedy repetition runs through every token that is left, and stops
    where no letter follows. *)
Lemma star_tail_greedy : forall tail s post fuel,
  rest s = (tokens_tail tail ++ post)%string -> well_separated tail = true ->
  Regex.is_word (prev s) = true ->
  letter_free post = true -> Regex.is_word (next_char post) = false ->
  (String.length (rest s) <= fuel)%nat ->
  exists st,
    star_loop (run (Seq separator (Group 4 letter))) (run WordBoundary Some) fuel s = Some st /\
    rest st = post /\ pos st = (pos s + String.length (tokens_tail tail))%nat.
Proof.
  induction tail as [|[sep x] tail IH]; intros s post fuel Hr Hws Hp Hfree Hnext Hf.
  - simpl in Hr. exists s.
    assert (Hk : run WordBoundary Some s = Some s).
    { apply run_WordBoundary_yes. rewrite Hp, Hr, Hnext. reflexivity. }
    split; [|split; [exact Hr|simpl; lia]].
    destruct fuel; [rewrite star_loop_O; exact Hk|]. rewrite star_loop_S.
    match goal with |- context [run ?r ?k s] => destruct (run r k s) as [st|] eqn:E end;
      [|exact Hk].
    exfalso. destruct (run_sound _ _ _ E) as (s' & Hpath & _).
    destruct (path_Seq_inv Hpath) as (s0 & Hsep & Hlet).
    destruct (path_separator_inv Hsep) as (w & Hw & _ & _).
    destruct (path_letter_inv Hlet) as (c & r & Hc & Hl & _).
    rewrite Hr, Hc in Hw. rewrite Hw, letter_free_app in Hfree.
    apply andb_true_iff in Hfree. destruct Hfree as [_ Hfree]. unfold letter_free in Hfree.
    change (chars (String c r)) with (c :: chars r) in Hfree. cbn [forallb] in Hfree.
    rewrite Hl in Hfree. discriminate.
  - cbn [well_separated forallb fst snd] in Hws. apply andb_true_iff in Hws.
    destruct Hws as [Hsx Hws]. apply andb_true_iff in Hsx. destruct Hsx as [Hsep Hx].
    rewrite tokens_tail_cons_app in Hr.
    destruct (adv_facts sep s _ Hr) as (Hr0 & Hp0 & _).
    assert (Hlen : (0 < String.length sep)%nat).
    { unfold is_separator in Hsep. destruct sep; [discriminate|simpl; lia]. }
    destruct fuel as [|fuel].
    { rewrite Hr, length_append in Hf. lia. }
    rewrite star_loop_S, run_Seq.
    rewrite (@run_separator_letter 4 _ s sep x (tokens_tail tail ++ post) Hr Hsep Hx).
    set (s0 := adv (String.length sep) s) in *.
    rewrite (@run_letter 4 _ s0 x (tokens_tail tail ++ post) Hr0 Hx).
    set (s1 := set_cap 4 s0 (advance x (tokens_tail tail ++ post) s0)).
    assert (Hpos : (pos s <? pos s1)%nat = true) by (apply Nat.ltb_lt; simpl; lia).
    rewrite Hpos.
    destruct (IH s1 post fuel eq_refl Hws) as (st & Hst & Hrest & Hpst).
    + simpl. apply (letter_facts _ Hx).
    + exact Hfree.
    + exact Hnext.
    + rewrite Hr, length_append in Hf. simpl in *. lia.
    + exists st. rewrite Hst. split; [reflexivity|]. split; [exact Hrest|].
      rewrite Hpst, length_tokens_tail_cons. simpl. lia.
Qed.

(** When no letter follows it, the pattern matches the whole run. *)
Lemma match_at_letterPattern_whole p x tail post i :
  is_run x tail = true -> Regex.is_word p = false ->
  letter_free post = true -> Regex.is_word (next_char post) = false ->
  exists m, match_at letterPattern p (tokens x tail ++ post) i = Some m /\
            matched m = tokens x tail.
Proof.
  intros Hrun Hp Hfree Hnext. unfold is_run in Hrun.
  apply andb_true_iff in Hrun. destruct Hrun as [Hrun Hlen].
  apply andb_true_iff in Hrun. destruct Hrun as [Hx Hws].
  destruct tail as [|[w1 x2] [|[w2 x3] tail]]; try discriminate.
  cbn [well_separated forallb fst snd] in Hws.
  apply andb_true_iff in Hws. destruct Hws as [H1 Hws].
  apply andb_true_iff in H1. destruct H1 as [Hw1 Hx2].
  apply andb_true_iff in Hws. destruct Hws as [H2 Hws].
  apply andb_true_iff in H2. destruct H2 as [Hw2 Hx3].
  set (T := tokens x ((w1, x2) :: (w2, x3) :: tail)).
  set (r3 := (tokens_tail tail ++ post)%string).
  set (r2 := (w2 ++ String x3 r3)%string).
  set (r1 := (w1 ++ String x2 r2)%string).
  assert (HT : (T ++ post)%string = String x r1).
  { unfold T, tokens. cbn [append]. rewrite !tokens_tail_cons_app. reflexivity. }
  unfold match_at, letterPattern. rewrite HT.
  set (s0 := {| prev := p; rest := String x r1; pos := i; caps := [] |}).
  rewrite run_Seq, run_WordBoundary_yes
    by (simpl; rewrite Hp; unfold Regex.is_word;
        rewrite (proj1 (proj2 (letter_facts _ Hx))); reflexivity).
  rewrite run_Seq, (@run_letter 1 _ s0 x r1 eq_refl Hx).
  set (s1 := set_cap 1 s0 (advance x r1 s0)).
  rewrite (@run_separator_then_letter 2 _ _ s1 w1 x2 r2 eq_refl Hw1 Hx2).
  destruct (adv_facts w1 s1 (String x2 r2) eq_refl) as (R2 & P2 & _).
  set (s2 := adv (String.length w1) s1) in *.
  rewrite run_Seq, (@run_letter 2 _ s2 x2 r2 R2 Hx2).
  set (s3 := set_cap 2 s2 (advance x2 r2 s2)).
  rewrite (@run_separator_then_letter 3 _ _ s3 w2 x3 r3 eq_refl Hw2 Hx3).
  destruct (adv_facts w2 s3 (String x3 r3) eq_refl) as (R4 & P4 & _).
  set (s4 := adv (String.length w2) s3) in *.
  rewrite run_Seq, (@run_letter 3 _ s4 x3 r3 R4 Hx3).
  set (s5 := set_cap 3 s4 (advance x3 r3 s4)).
  rewrite run_Seq, run_Star.
  destruct (@star_tail_greedy tail s5 post (String.length (rest s5)) eq_refl Hws)
    as (st & Hst & Hrest & Hpos).
  { simpl. apply (letter_facts _ Hx3). }
  { exact Hfree. }
  { exact Hnext. }
  { apply le_n. }
  rewrite Hst. eexists. split; [reflexivity|]. cbn [matched].
  assert (Hlen' : (pos st - i)%nat = String.length T).
  { assert (Q5 : pos s5 = S (pos s4)) by reflexivity.
    assert (Q3 : pos s3 = S (pos s2)) by reflexivity.
    assert (Q1 : pos s1 = S i) by reflexivity.
    rewrite Hpos, Q5, P4, Q3, P2, Q1. unfold T, tokens. cbn [String.length].
    rewrite !length_tokens_tail_cons. lia. }
  rewrite Hlen', <- HT. apply substring_prefix.
Qed.

(** No match of the pattern starts at a letter that is not a token followed
    by a separator character. *)
Lemma token_free_split pre1 : forall p c d s1,
  token_free p (pre1 ++ String c (String d s1)) = true ->
  is_letter c = true -> Regex.is_word (last_char p pre1) = false ->
  is_separator_char d = false.
Proof.
  induction pre1 as [|x pre1 IH]; intros p c d s1 H Hc Hp.
  - simpl in *. rewrite Hc, Hp in H. simpl in H.
    destruct (is_separator_char d); [discriminate|reflexivity].
  - cbn [append token_free] in H. apply andb_true_iff in H. destruct H as [_ H].
    apply (IH (Some x) c d s1 H Hc Hp).
Qed.

Lemma no_match_before pre x tail post :
  token_free None pre = true -> is_letter x = true ->
  forall pre1 c s1, pre = (pre1 ++ String c s1)%string ->
    match_at letterPattern (last_char None pre1) (String c s1 ++ tokens x tail ++ post)
      (0 + String.length pre1) = None.
Proof.
  intros Hfree Hx pre1 c s1 E.
  destruct (match_at letterPattern (last_char None pre1)
              (String c s1 ++ tokens x tail ++ post) (0 + String.length pre1))
    as [m|] eqn:Em; [|reflexivity].
  exfalso. destruct (match_at_letterPattern_inv _ _ _ Em)
    as (y & ytail & q & Hs & Hrun & Hp & _ & _).
  unfold is_run in Hrun. apply andb_true_iff in Hrun. destruct Hrun as [Hrun Hlen].
  apply andb_true_iff in Hrun. destruct Hrun as [Hy Hws].
  destruct ytail as [|[w y2] ytail]; [discriminate|].
  cbn [well_separated forallb fst snd] in Hws. apply andb_true_iff in Hws.
  destruct Hws as [Hw _]. apply andb_true_iff in Hw. destruct Hw as [Hw _].
  unfold is_separator in Hw. apply andb_true_iff in Hw. destruct Hw as [Hw _].
  apply andb_true_iff in Hw. destruct Hw as [Hne Hall].
  destruct w as [|d w]; [discriminate|].
  change (chars (String d w)) with (d :: chars w) in Hall. cbn [forallb] in Hall.
  apply andb_true_iff in Hall. destruct Hall as [Hd _].
  unfold tokens in Hs. cbn [tokens_tail append] in Hs. injection Hs as <- Hs.
  destruct s1 as [|d' s1].
  - simpl in Hs. injection Hs as <- _.
    rewrite (proj1 (separator_char_facts _ Hd)) in Hx. discriminate.
  - simpl in Hs. injection Hs as -> _. subst pre.
    rewrite (token_free_split _ _ _ _ _ Hfree Hy Hp) in Hd. discriminate.
Qed.

End Greedy.

Section Normalisation.
Import JS Regex NameExtractor Spelling.

Lemma toLowerCase_append a b :
  toLowerCase (a ++ b) = (toLowerCase a ++ toLowerCase b)%string.
Proof.
  unfold toLowerCase. induction a as [|c a IH]; simpl; [reflexivity|]. rewrite IH.
  reflexivity.
Qed.

Lemma toLowerCase_separator sep : is_separator sep = true -> toLowerCase sep = sep.
Proof.
  unfold is_separator. intros H. apply andb_true_iff in H. destruct H as [H _].
  apply andb_true_iff in H. destruct H as [_ H]. unfold toLowerCase.
  induction sep as [|c sep IH]; [reflexivity|].
  change (chars (String c sep)) with (c :: chars sep) in H. cbn [forallb] in H.
  apply andb_true_iff in H. destruct H as [Hc Hs]. simpl.
  rewrite (proj1 (proj2 (separator_char_facts _ Hc))), (IH Hs). reflexivity.
Qed.

Lemma toLowerCase_tokens_tail tail :
  well_separated tail = true ->
  toLowerCase (tokens_tail tail) = tokens_tail (lower_tail tail).
Proof.
  induction tail as [|[sep x] tail IH]; [reflexivity|]. intros H.
  cbn [well_separated forallb fst snd] in H. apply andb_true_iff in H.
  destruct H as [Hsx Hws]. apply andb_true_iff in Hsx. destruct Hsx as [Hsep _].
  cbn [tokens_tail lower_tail map fst snd]. rewrite toLowerCase_append.
  rewrite (toLowerCase_separator _ Hsep). unfold toLowerCase at 1. cbn [map_string].
  fold (toLowerCase (tokens_tail tail)). rewrite (IH Hws). reflexivity.
Qed.

Lemma well_separated_lower tail :
  well_separated (lower_tail tail) = well_separated tail.
Proof.
  unfold well_separated, lower_tail. induction tail as [|[sep y] tail IH]; [reflexivity|].
  cbn [map forallb fst snd]. rewrite IH, (proj1 (lower_char_facts y)). reflexivity.
Qed.

Lemma lower_run x tail :
  is_run x tail = true -> is_run (lower_char x) (lower_tail tail) = true.
Proof.
  unfold is_run. rewrite well_separated_lower, (proj1 (lower_char_facts x)).
  unfold lower_tail. rewrite length_map. exact (fun H => H).
Qed.

Lemma letters_lower_tail x tail :
  letters (lower_char x) (lower_tail tail) = map lower_char (letters x tail).
Proof. unfold letters, lower_tail. cbn [map]. rewrite !map_map. reflexivity. Qed.

(** ** What [trim] leaves of an input around a run *)

Lemma trimStart_before a c r :
  is_space c = false -> trimStart (a ++ String c r) = (trimStart a ++ String c r)%string.
Proof.
  intros Hc. induction a as [|d a IH]; simpl; [rewrite Hc; reflexivity|].
  destruct (is_space d); [exact IH|reflexivity].
Qed.

Lemma trimEnd_kept a b : trimEnd b <> "" -> trimEnd (a ++ b) = (a ++ trimEnd b)%string.
Proof.
  intros Hb. induction a as [|c a IH]; [reflexivity|]. simpl. rewrite IH.
  destruct (a ++ trimEnd b)%string eqn:E; [|reflexivity].
  destruct a; [simpl in E; contradiction|discriminate].
Qed.

Lemma trimEnd_after a c b :
  is_space c = false -> trimEnd (a ++ String c b) = (a ++ String c (trimEnd b))%string.
Proof.
  intros Hc.
  assert (H : trimEnd (String c b) = String c (trimEnd b)).
  { simpl. destruct (trimEnd b); [rewrite Hc|]; reflexivity. }
  rewrite trimEnd_kept; rewrite H; [reflexivity|discriminate].
Qed.

Lemma trimEnd_prefix s : exists t, s = (trimEnd s ++ t)%string.
Proof.
  induction s as [|c s (t & Ht)]; [exists ""; reflexivity|]. simpl.
  destruct (trimEnd s) as [|d r] eqn:E.
  - destruct (is_space c); [exists (String c s)|exists s]; reflexivity.
  - exists t. rewrite Ht at 1. reflexivity.
Qed.

Lemma trimEnd_head c s :
  trimEnd (String c s) = "" \/ exists r, trimEnd (String c s) = String c r.
Proof.
  simpl. destruct (trimEnd s); [destruct (is_space c)|]; eauto.
Qed.

(** A run ends with a letter. *)
Lemma tokens_last : forall tail x,
  is_letter x = true -> well_separated tail = true ->
  exists body y, tokens x tail = (body ++ String y "")%string /\ is_letter y = true.
Proof.
  induction tail as [|[sep z] tail IH]; intros x Hx Hws.
  - exists "", x. split; [reflexivity|exact Hx].
  - cbn [well_separated forallb fst snd] in Hws. apply andb_true_iff in Hws.
    destruct Hws as [Hsz Hws]. apply andb_true_iff in Hsz. destruct Hsz as [_ Hz].
    destruct (@IH z Hz Hws) as (body & y & E & Hy).
    exists (String x (sep ++ body)), y. split; [|exact Hy].
    unfold tokens in *. cbn [tokens_tail]. rewrite E. cbn [append].
    rewrite append_assoc. reflexivity.
Qed.

Lemma trim_around pre x tail post :
  is_letter x = true -> well_separated tail = true ->
  trim (pre ++ tokens x tail ++ post) =
  (trimStart pre ++ tokens x tail ++ trimEnd post)%string.
Proof.
  intros Hx Hws. unfold trim.
  destruct (letter_facts _ Hx) as (Hsx & _).
  unfold tokens at 1. cbn [append]. rewrite trimStart_before by exact Hsx.
  change (String x (tokens_tail tail ++ post)) with (tokens x tail ++ post)%string.
  destruct (@tokens_last tail x Hx Hws) as (body & y & E & Hy).
  destruct (letter_facts _ Hy) as (Hsy & _).
  rewrite E. rewrite !append_assoc. cbn [append].
  rewrite <- (append_assoc (trimStart pre) body).
  rewrite trimEnd_after by exact Hsy. rewrite append_assoc. reflexivity.
Qed.

(** ** What is kept of the surroundings *)

Lemma is_word_last_char s : forall p p',
  Regex.is_word p = Regex.is_word p' ->
  Regex.is_word (last_char p s) = Regex.is_word (last_char p' s).
Proof. destruct s; intros p p' H; simpl; [exact H|reflexivity]. Qed.

Lemma is_word_last_lower s : forall p p',
  Regex.is_word p = Regex.is_word p' ->
  Regex.is_word (last_char p (toLowerCase s)) = Regex.is_word (last_char p' s).
Proof.
  induction s as [|c s IH]; intros p p' H; [exact H|].
  cbn [toLowerCase map_string last_char]. apply IH. simpl.
  apply (lower_char_facts c).
Qed.

Lemma is_word_last_trimStart s : forall p,
  Regex.is_word p = false ->
  Regex.is_word (last_char p (trimStart s)) = Regex.is_word (last_char p s).
Proof.
  induction s as [|c s IH]; intros p Hp; [reflexivity|]. simpl.
  destruct (is_space c) eqn:E; [|reflexivity].
  rewrite (IH p Hp). apply is_word_last_char. rewrite Hp. simpl.
  destruct (space_facts _ E) as [_ Hs].
  symmetry. apply (separator_char_facts _ Hs).
Qed.

Lemma token_free_prev s p p' :
  Regex.is_word p = Regex.is_word p' -> token_free p s = token_free p' s.
Proof. intros H. destruct s as [|c s]; [reflexivity|]. simpl. rewrite H. reflexivity. Qed.

Lemma token_free_lower s : forall p, token_free p (toLowerCase s) = token_free p s.
Proof.
  induction s as [|c s IH]; intros p; [reflexivity|].
  cbn [toLowerCase map_string token_free]. fold (toLowerCase s).
  rewrite (token_free_prev (toLowerCase s) (Some (lower_char c)) (Some c))
    by (simpl; apply (lower_char_facts c)).
  rewrite IH. rewrite (proj1 (lower_char_facts c)). f_equal. f_equal. f_equal.
  destruct s as [|d s]; [reflexivity|]. simpl. apply (lower_char_facts d).
Qed.

Lemma token_free_trimStart s :
  token_free None s = true -> token_free None (trimStart s) = true.
Proof.
  induction s as [|c s IH]; [reflexivity|]. intros H. simpl.
  destruct (is_space c) eqn:E; [|exact H].
  apply IH. cbn [token_free] in H. apply andb_true_iff in H. destruct H as [_ H].
  rewrite (token_free_prev s None (Some c)); [exact H|].
  simpl. destruct (space_facts _ E) as [_ Hs].
  symmetry. apply (separator_char_facts _ Hs).
Qed.

Lemma letter_free_lower s : letter_free (toLowerCase s) = letter_free s.
Proof.
  unfold letter_free, toLowerCase. induction s as [|c s IH]; [reflexivity|].
  change (chars (map_string lower_char (String c s)))
    with (lower_char c :: chars (map_string lower_char s)).
  change (chars (String c s)) with (c :: chars s). cbn [forallb].
  rewrite IH, (proj1 (lower_char_facts c)). reflexivity.
Qed.

Lemma lower_fixed s : Forall (fun c => lower_char c = c) (chars (toLowerCase s)).
Proof.
  unfold toLowerCase. induction s as [|c s IH]; [constructor|].
  change (chars (map_string lower_char (String c s)))
    with (lower_char c :: chars (map_string lower_char s)).
  constructor; [apply (lower_char_facts c)|exact IH].
Qed.

End Normalisation.

Section SpelledTokens.
Import JS Regex NameExtractor Spelling.

Lemma filter_letter_free s : letter_free s = true -> filter is_letter (chars s) = [].
Proof.
  unfold letter_free. induction (chars s) as [|c l IH]; [reflexivity|]. cbn [forallb filter].
  intros H. apply andb_true_iff in H. destruct H as [Hc Hl].
  apply negb_true_iff in Hc. rewrite Hc. apply IH, Hl.
Qed.

Lemma filter_letters_tokens_tail tail :
  well_separated tail = true ->
  filter is_letter (chars (tokens_tail tail)) = map snd tail.
Proof.
  induction tail as [|[sep x] tail IH]; [reflexivity|]. intros H.
  cbn [well_separated forallb fst snd] in H. apply andb_true_iff in H.
  destruct H as [Hsx Hws]. apply andb_true_iff in Hsx. destruct Hsx as [Hsep Hx].
  cbn [tokens_tail map snd]. rewrite chars_append, filter_app.
  rewrite (filter_letter_free _ (separator_letter_free _ Hsep)).
  change (chars (String x (tokens_tail tail))) with (x :: chars (tokens_tail tail)).
  cbn [filter app]. rewrite Hx, (IH Hws). reflexivity.
Qed.

Lemma letters_of_run x tail :
  is_run x tail = true ->
  filter is_letter (chars (tokens x tail)) = letters x tail /\
  Forall (fun c => is_letter c = true) (letters x tail) /\
  exists x2 x3 xs, letters x tail = x :: x2 :: x3 :: xs.
Proof.
  unfold is_run. intros H. apply andb_true_iff in H. destruct H as [H Hlen].
  apply andb_true_iff in H. destruct H as [Hx Hws]. split; [|split].
  - unfold tokens, letters. change (chars (String x (tokens_tail tail)))
      with (x :: chars (tokens_tail tail)).
    cbn [filter]. rewrite Hx, (filter_letters_tokens_tail _ Hws). reflexivity.
  - unfold letters. constructor; [exact Hx|]. unfold well_separated in Hws.
    apply Forall_forall. intros c Hc. apply in_map_iff in Hc.
    destruct Hc as ([sep y] & <- & Hin). rewrite forallb_forall in Hws.
    specialize (Hws _ Hin). cbn [fst snd] in *. apply andb_true_iff in Hws. apply Hws.
  - destruct tail as [|[w1 x2] [|[w2 x3] tail]]; try discriminate.
    exists x2, x3, (map snd tail). reflexivity.
Qed.

(** What [extractName] makes of the leftmost match of the single-letter
    pattern. *)
Lemma extractName_of_leftmost_run transcript m x tail :
  search letterPattern None (toLowerCase (trim transcript)) 0 = Some m ->
  matched m = tokens x tail -> is_run x tail = true ->
  map lower_char (letters x tail) = letters x tail ->
  let r := extractName transcript in
  name r = capitalised (letters x tail) /\ confidence r = high /\ method r = spelled.
Proof.
  intros Hsearch Hm Hrun Hlow r. subst r.
  destruct (letters_of_run _ _ Hrun) as (Hfilter & Hletters & x2 & x3 & xs & Hl).
  destruct (match_g_first _ _ Hsearch) as (others & Hg).
  assert (Hsp : extractSpelledName (toLowerCase (trim transcript)) =
                Some (toUpperCase (string_of_list_ascii (letters x tail)))).
  { unfold extractSpelledName, spelledByLetters. rewrite Hg, Hm, joinLetters_filter.
    cbv zeta. rewrite Hfilter, Hl. reflexivity. }
  unfold extractName. cbv zeta. rewrite Hsp.
  assert (Htwo : has_two (Some (toUpperCase (string_of_list_ascii (letters x tail)))) = true).
  { rewrite Hl. reflexivity. }
  rewrite Htwo. cbn [name confidence method text_of].
  split; [|split; reflexivity].
  rewrite <- Hlow at 1. rewrite Hl in *. rewrite (capitalizeFirst_letters Hletters).
  cbn [map] in Hlow. injection Hlow as _ H2 H3 Hxs.
  unfold capitalised. reflexivity.
Qed.

Lemma capitalised_lower l :
  Forall (fun c => is_letter c = true) l ->
  capitalised (map lower_char l) = capitalised l.
Proof.
  intros H. destruct l as [|x xs]; [reflexivity|]. inversion H as [|? ? Hx _]; subst.
  cbn [map capitalised]. rewrite (proj1 (proj2 (proj2 (proj2 (letter_facts _ Hx))))).
  f_equal. f_equal. rewrite map_map. apply map_ext. intros c. apply (lower_char_facts c).
Qed.

Lemma letters_in_tokens x tail c :
  In c (letters x tail) -> In c (chars (tokens x tail)).
Proof.
  unfold letters, tokens. change (chars (String x (tokens_tail tail)))
    with (x :: chars (tokens_tail tail)).
  intros [->|H]; [left; reflexivity|right].
  induction tail as [|[sep y] tail IH]; [contradiction|].
  cbn [map snd tokens_tail] in *. rewrite chars_append. apply in_or_app. right.
  change (chars (String y (tokens_tail tail))) with (y :: chars (tokens_tail tail)).
  destruct H as [->|H]; [left; reflexivity|right; apply IH, H].
Qed.

Lemma delimited_split pre post :
  delimited pre post = true <->
  Regex.is_word (last_char None pre) = false /\ Regex.is_word (next_char post) = false.
Proof.
  unfold delimited. rewrite andb_true_iff, !negb_true_iff. reflexivity.
Qed.

End SpelledTokens.

Section SpelledTokensClaim.
Import JS Regex NameExtractor Spelling.

Lemma length_toLowerCase s : String.length (toLowerCase s) = String.length s.
Proof.
  unfold toLowerCase. induction s as [|c s IH]; simpl; [reflexivity|]. rewrite IH.
  reflexivity.
Qed.

(** The input in lower case and trimmed, around the run in lower case. *)
Lemma normalised_around pre x tail post :
  is_run x tail = true -> delimited pre post = true ->
  let P := toLowerCase (trimStart pre) in
  let Q := toLowerCase (trimEnd post) in
  toLowerCase (trim (pre ++ tokens x tail ++ post)) =
    (P ++ tokens (lower_char x) (lower_tail tail) ++ Q)%string /\
  Regex.is_word (last_char None P) = false /\
  Regex.is_word (next_char Q) = false.
Proof.
  intros Hrun Hdel P Q. apply delimited_split in Hdel. destruct Hdel as [Hpre Hpost].
  pose proof Hrun as Hrun0. unfold is_run in Hrun.
  apply andb_true_iff in Hrun. destruct Hrun as [Hrun _].
  apply andb_true_iff in Hrun. destruct Hrun as [Hx Hws]. split; [|split].
  - rewrite (@trim_around pre x tail post Hx Hws), !toLowerCase_append. f_equal. f_equal.
    unfold tokens. unfold toLowerCase at 1. cbn [map_string].
    fold (toLowerCase (tokens_tail tail)). rewrite (@toLowerCase_tokens_tail tail Hws).
    reflexivity.
  - subst P. rewrite (@is_word_last_lower (trimStart pre) None None eq_refl).
    rewrite is_word_last_trimStart by reflexivity. exact Hpre.
  - subst Q. destruct post as [|c post]; [reflexivity|].
    destruct (trimEnd_head c post) as [E|[t E]]; rewrite E; [reflexivity|].
    simpl in Hpost. simpl. rewrite (proj1 (proj2 (lower_char_facts c))). exact Hpost.
Qed.

(** The leftmost match of the single-letter pattern in the normalised
    input, when the input contains a run of three or more single-letter
    tokens: it is itself such a run, it starts no later than the given one,
    and its letters are in lower case. *)
Lemma leftmost_run_found (pre post : string) (x : ascii)
  (tail : list (string * ascii))
  (Hrun : is_run x tail = true)
  (Hdelimited : delimited pre post = true) :
  exists m pre' x' tail' post',
    search letterPattern None (toLowerCase (trim (pre ++ tokens x tail ++ post))) 0 = Some m /\
    toLowerCase (trim (pre ++ tokens x tail ++ post)) = (pre' ++ tokens x' tail' ++ post')%string /\
    matched m = tokens x' tail' /\
    is_run x' tail' = true /\ delimited pre' post' = true /\
    (String.length pre' <= String.length (trimStart pre))%nat /\
    map lower_char (letters x' tail') = letters x' tail'.
Proof.
  destruct (@normalised_around pre x tail post Hrun Hdelimited) as (HN & HP & HQ).
  cbv zeta in HN, HP, HQ.
  set (P := toLowerCase (trimStart pre)) in *.
  set (Q := toLowerCase (trimEnd post)) in *.
  set (N := toLowerCase (trim (pre ++ tokens x tail ++ post))) in *.
  pose proof (@lower_run x tail Hrun) as Hrun'.
  assert (Hsome : match_at letterPattern (last_char None P)
                    (tokens (lower_char x) (lower_tail tail) ++ Q)
                    (0 + String.length P) <> None)
    by (apply match_at_letterPattern_some; assumption).
  destruct (search letterPattern None N 0) as [m|] eqn:Hsearch.
  2:{ exfalso. apply (@search_some letterPattern P None _ 0%nat Hsome). rewrite <- HN. exact Hsearch. }
  destruct (@search_inv letterPattern N None 0%nat m Hsearch) as (pre1 & s1 & HN1 & Hm & Hbefore).
  destruct (@match_at_letterPattern_inv _ _ _ _ Hm)
    as (y & ytail & q & -> & Hrun1 & Hp1 & Hq1 & Hmatched).
  exists m, pre1, y, ytail, q.
  split; [reflexivity|]. split; [exact HN1|]. split; [exact Hmatched|].
  split; [exact Hrun1|]. split; [apply delimited_split; split; assumption|]. split.
  - assert (Hlen : (String.length pre1 <= String.length P)%nat).
    { rewrite HN in HN1. destruct (@append_cuts _ _ _ _ HN1) as [(e & E1 & E2)|(c & e & E1 & E2)].
      - destruct e as [|c e].
        + rewrite E1, length_append. simpl. lia.
        + exfalso. apply Hsome. rewrite E2. apply (Hbefore P c e). exact E1.
      - rewrite E1, length_append. lia. }
    unfold P in Hlen. rewrite length_toLowerCase in Hlen. exact Hlen.
  - pose proof (lower_fixed (trim (pre ++ tokens x tail ++ post))) as Hf. fold N in Hf.
    rewrite HN1, !chars_append in Hf. rewrite Forall_forall in Hf.
    rewrite <- (map_id (letters y ytail)) at 2. apply map_ext_in. intros c Hc.
    apply Hf. apply in_or_app. right. apply in_or_app. left.
    apply letters_in_tokens, Hc.
Qed.

(** When no single-letter token followed by a separator character precedes
    the given run and no letter follows it, the leftmost match is the given
    run itself, in lower case. *)
Lemma given_run_found (pre post : string) (x : ascii)
  (tail : list (string * ascii))
  (Hrun : is_run x tail = true)
  (Hdelimited : delimited pre post = true)
  (Hfree : token_free None pre = true)
  (Hpost : letter_free post = true) :
  exists m,
    search letterPattern None (toLowerCase (trim (pre ++ tokens x tail ++ post))) 0 = Some m /\
    matched m = tokens (lower_char x) (lower_tail tail).
Proof.
  destruct (@normalised_around pre x tail post Hrun Hdelimited) as (HN & HP & HQ).
  cbv zeta in HN, HP, HQ.
  set (P := toLowerCase (trimStart pre)) in *.
  set (Q := toLowerCase (trimEnd post)) in *.
  set (N := toLowerCase (trim (pre ++ tokens x tail ++ post))) in *.
  pose proof (@lower_run x tail Hrun) as Hrun'.
  assert (HfreeP : token_free None P = true).
  { unfold P. rewrite token_free_lower. apply token_free_trimStart, Hfree. }
  assert (HfreeQ : letter_free Q = true).
  { unfold Q. rewrite letter_free_lower. destruct (trimEnd_prefix post) as (t & Ht).
    rewrite Ht, letter_free_app in Hpost. apply andb_true_iff in Hpost. apply Hpost. }
  destruct (@match_at_letterPattern_whole (last_char None P) (lower_char x)
              (lower_tail tail) Q (0 + String.length P) Hrun' HP HfreeQ HQ)
    as (m0 & Hm0 & Hmatched0).
  assert (Hx' : is_letter (lower_char x) = true).
  { unfold is_run in Hrun'. apply andb_true_iff in Hrun'. destruct Hrun' as [H _].
    apply andb_true_iff in H. apply H. }
  pose proof (@search_first letterPattern P None _ 0%nat m0
                (@no_match_before P (lower_char x) (lower_tail tail) Q HfreeP Hx') Hm0)
    as Hs0.
  rewrite <- HN in Hs0. exists m0. split; [exact Hs0|exact Hmatched0].
Qed.

(** The letters of a run are those of its tokens: two runs with the same
    tokens have the same letters. *)
Lemma same_tokens_same_letters (x y : ascii) (xtail ytail : list (string * ascii))
  (Hx : is_run x xtail = true) (Hy : is_run y ytail = true)
  (Htokens : tokens x xtail = tokens y ytail) :
  letters x xtail = letters y ytail.
Proof.
  rewrite <- (proj1 (@letters_of_run _ _ Hx)), <- (proj1 (@letters_of_run _ _ Hy)).
  rewrite Htokens. reflexivity.
Qed.


(** [extractName] when the leftmost run is the given one. *)
Lemma extractName_on_given_run (transcript pre post : string) (x : ascii)
  (tail : list (string * ascii))
  (Hinput : transcript = (pre ++ tokens x tail ++ post)%string)
  (Hrun : is_run x tail = true)
  (Hdelimited : delimited pre post = true)
  (Hfree : token_free None pre = true)
  (Hpost : letter_free post = true) :
  name (extractName transcript) = capitalised (letters x tail) /\
  confidence (extractName transcript) = high /\
  method (extractName transcript) = spelled.
Proof.
  subst transcript.
  destruct (@given_run_found pre post x tail Hrun Hdelimited Hfree Hpost)
    as (m & Hsearch & Hmatched).
  destruct (@extractName_of_leftmost_run (pre ++ tokens x tail ++ post) m
              (lower_char x) (lower_tail tail) Hsearch Hmatched (@lower_run x tail Hrun))
    as (Hname & Hconf & Hmeth).
  { rewrite letters_lower_tail, map_map. apply map_ext. intros c.
    apply (lower_char_facts c). }
  split; [|split; assumption].
  rewrite Hname, letters_lower_tail. apply capitalised_lower.
  apply (@letters_of_run _ _ Hrun).
Qed.




End SpelledTokensClaim.

(* ================================================================== *)
(** * Further properties: the two merge loops *)
(* ================================================================== *)

Section MergeLoops.
Import JS BatchDiarization.

Lemma adjacent_distinct_app_snoc l a b :
  adjacent_distinct (l ++ [a]) -> a <> b -> adjacent_distinct (l ++ [a; b]).
Proof.
  intros H Hab. replace (l ++ [a; b]) with ((l ++ [a]) ++ [b]).
  - apply adjacent_distinct_snoc; assumption.
  - rewrite <- app_assoc. reflexivity.
Qed.

Lemma adjacent_distinct_tail a l : adjacent_distinct (a :: l) -> adjacent_distinct l.
Proof. destruct l; simpl; tauto. Qed.

Lemma concat_join2 sep a x r :
  String.concat sep ((a ++ sep ++ x)%string :: r) = String.concat sep (a :: x :: r).
Proof.
  destruct r as [|y r]; simpl.
  - reflexivity.
  - rewrite !append_assoc. reflexivity.
Qed.

Lemma concat_app_cong sep l r r' :
  String.concat sep r = String.concat sep r' -> (r = [] <-> r' = []) ->
  String.concat sep (l ++ r) = String.concat sep (l ++ r').
Proof.
  intros H Hnil. induction l as [|y l IH]; simpl; [exact H|].
  destruct l as [|z l]; simpl in *.
  - destruct r as [|a r], r' as [|a' r']; try reflexivity.
    + destruct Hnil as [Hn _]. specialize (Hn eq_refl). discriminate.
    + destruct Hnil as [_ Hn]. specialize (Hn eq_refl). discriminate.
    + rewrite H. reflexivity.
  - rewrite IH. reflexivity.
Qed.

Lemma concat_absorb_mid sep l a x r :
  String.concat sep (l ++ (a ++ sep ++ x)%string :: r) = String.concat sep (l ++ a :: x :: r).
Proof.
  apply concat_app_cong; [apply concat_join2|]. split; discriminate.
Qed.

(** The loop of [mergeConsecutiveSpeakerSegments], from any state. *)
Lemma d_fold_adjacent rest : forall current merged,
  adjacent_distinct (map d_speakerTag (merged ++ [current])) ->
  adjacent_distinct
    (map d_speakerTag
       (snd (fold_left d_merge_step rest (current, merged)) ++
        [fst (fold_left d_merge_step rest (current, merged))])).
Proof.
  induction rest as [|x rest IH]; intros current merged H; simpl.
  - exact H.
  - destruct (d_speakerTag x =? d_speakerTag current) eqn:E; apply IH.
    + rewrite map_app in *. exact H.
    + apply Z.eqb_neq in E. rewrite <- app_assoc. simpl. rewrite map_app in *. simpl in *.
      apply adjacent_distinct_app_snoc; [exact H|]. congruence.
Qed.

Lemma d_fold_transcript rest : forall current merged,
  String.concat " "
    (map d_transcript
       (snd (fold_left d_merge_step rest (current, merged)) ++
        [fst (fold_left d_merge_step rest (current, merged))])) =
  String.concat " " (map d_transcript (merged ++ current :: rest)).
Proof.
  induction rest as [|x rest IH]; intros current merged; simpl.
  - reflexivity.
  - destruct (d_speakerTag x =? d_speakerTag current) eqn:E; rewrite IH.
    + rewrite !map_app. simpl.
      exact (concat_absorb_mid " " (map d_transcript merged) (d_transcript current)
               (d_transcript x) (map d_transcript rest)).
    + rewrite <- app_assoc. reflexivity.
Qed.

Lemma d_fold_length rest : forall current merged,
  (List.length (snd (fold_left d_merge_step rest (current, merged))) <=
   List.length merged + List.length rest)%nat.
Proof.
  induction rest as [|x rest IH]; intros current merged; simpl.
  - lia.
  - destruct (d_speakerTag x =? d_speakerTag current).
    + specialize (IH (d_absorb current x) merged). lia.
    + specialize (IH x (merged ++ [current])). rewrite length_app in IH. simpl in IH. lia.
Qed.

Lemma d_fold_distinct rest : forall current merged,
  adjacent_distinct (map d_speakerTag (current :: rest)) ->
  snd (fold_left d_merge_step rest (current, merged)) ++
  [fst (fold_left d_merge_step rest (current, merged))] = merged ++ current :: rest.
Proof.
  induction rest as [|x rest IH]; intros current merged H; simpl.
  - reflexivity.
  - destruct H as [Hne H]. destruct (d_speakerTag x =? d_speakerTag current) eqn:E.
    + apply Z.eqb_eq in E. congruence.
    + rewrite IH by exact H. rewrite <- app_assoc. reflexivity.
Qed.

Lemma mergeConsecutive_unfold first rest :
  mergeConsecutiveSpeakerSegments (first :: rest) =
  snd (fold_left d_merge_step rest (first, [])) ++
  [fst (fold_left d_merge_step rest (first, []))].
Proof.
  unfold mergeConsecutiveSpeakerSegments.
  destruct (fold_left d_merge_step rest (first, [])). reflexivity.
Qed.

Lemma mergeConsecutive_distinct l :
  adjacent_distinct (map d_speakerTag l) -> mergeConsecutiveSpeakerSegments l = l.
Proof.
  destruct l as [|first rest]; [reflexivity|]. intros H.
  rewrite mergeConsecutive_unfold. apply (d_fold_distinct rest first [] H).
Qed.

Lemma mergeConsecutive_adjacent l :
  adjacent_distinct (map d_speakerTag (mergeConsecutiveSpeakerSegments l)).
Proof.
  destruct l as [|first rest]; [exact I|].
  rewrite mergeConsecutive_unfold. apply d_fold_adjacent. exact I.
Qed.

(** The loop of [assignSpeakersAndMergeSegments], from a state that holds a
    current segment. *)
Lemma fold_merge_step_some rest : forall current merged,
  exists current' merged',
    fold_left merge_step rest (Some current, merged) = (Some current', merged').
Proof.
  induction rest as [|x rest IH]; intros current merged; simpl.
  - eauto.
  - destruct (speakerTag x =? m_speakerTag current); apply IH.
Qed.

Lemma fold_merge_transcript rest : forall current merged current' merged',
  fold_left merge_step rest (Some current, merged) = (Some current', merged') ->
  String.concat " " (map m_transcript (merged' ++ [current'])) =
  String.concat " "
    (map m_transcript (merged ++ [current]) ++ map transcript rest).
Proof.
  induction rest as [|x rest IH]; intros current merged current' merged' H; simpl in *.
  - injection H as <- <-. rewrite app_nil_r. reflexivity.
  - destruct (speakerTag x =? m_speakerTag current) eqn:E; rewrite (IH _ _ _ _ H).
    + rewrite !map_app. simpl. rewrite <- !app_assoc.
      exact (concat_absorb_mid " " (map m_transcript merged) (m_transcript current)
               (transcript x) (map transcript rest)).
    + rewrite !map_app. simpl. rewrite <- !app_assoc. reflexivity.
Qed.

Lemma fold_merge_length rest : forall current merged current' merged',
  fold_left merge_step rest (Some current, merged) = (Some current', merged') ->
  (List.length merged' <= List.length merged + List.length rest)%nat.
Proof.
  induction rest as [|x rest IH]; intros current merged current' merged' H; simpl in *.
  - injection H as <- <-. lia.
  - destruct (speakerTag x =? m_speakerTag current).
    + specialize (IH _ _ _ _ H). lia.
    + specialize (IH _ _ _ _ H). rewrite length_app in IH. simpl in IH. lia.
Qed.

Lemma fold_merge_distinct rest : forall current merged current' merged',
  fold_left merge_step rest (Some current, merged) = (Some current', merged') ->
  adjacent_distinct (m_speakerTag current :: map speakerTag rest) ->
  merged' ++ [current'] = merged ++ current :: map fresh rest.
Proof.
  induction rest as [|x rest IH]; intros current merged current' merged' Hf H.
  - simpl in Hf. injection Hf as <- <-. reflexivity.
  - destruct H as [Hne H]. cbn [fold_left merge_step] in Hf.
    destruct (speakerTag x =? m_speakerTag current) eqn:E.
    + apply Z.eqb_eq in E. congruence.
    + rewrite (IH _ _ _ _ Hf H). rewrite <- app_assoc. reflexivity.
Qed.

Lemma mergeSegments_cons first rest :
  exists current merged,
    fold_left merge_step rest (Some (fresh first), []) = (Some current, merged) /\
    mergeSegments (first :: rest) = merged ++ [current].
Proof.
  destruct (fold_merge_step_some rest (fresh first) []) as (current & merged & H).
  exists current, merged. split; [exact H|].
  unfold mergeSegments, merge_loop. cbn [fold_left merge_step]. rewrite H. reflexivity.
Qed.

Lemma mergeSegments_distinct l :
  adjacent_distinct (map speakerTag l) -> mergeSegments l = map fresh l.
Proof.
  destruct l as [|first rest]; [reflexivity|]. intros H.
  destruct (mergeSegments_cons first rest) as (current & merged & Hf & ->).
  exact (@fold_merge_distinct rest (fresh first) [] current merged Hf H).
Qed.

Lemma fresh_create id m : fresh (create id m) = m.
Proof. destruct m. reflexivity. Qed.

End MergeLoops.

Section MergeProperties.
Import JS BatchDiarization.

(** X1.  The merge of the whole-file path ([mergeConsecutiveSpeakerSegments])
    leaves no two adjacent segments with one speaker tag, keeps every word in
    order (the transcripts joined by single spaces read the same before and
    after), never returns more segments than it was given, and returns no
    segment only for no segment. *)
Theorem whole_file_merge_keeps_the_text (segments : list DiarizedSegment) :
  let merged := mergeConsecutiveSpeakerSegments segments in
  adjacent_distinct (map d_speakerTag merged) /\
  String.concat " " (map d_transcript merged) =
    String.concat " " (map d_transcript segments) /\
  (List.length merged <= List.length segments)%nat /\
  (merged = [] <-> segments = []).
Proof.
  intros merged. subst merged. split; [apply mergeConsecutive_adjacent|].
  destruct segments as [|first rest].
  - simpl. repeat split; auto.
  - rewrite mergeConsecutive_unfold. split; [|split].
    + apply (d_fold_transcript rest first []).
    + rewrite length_app. simpl.
      pose proof (d_fold_length rest first []) as H. simpl in H. lia.
    + split; [|discriminate].
      destruct (snd (fold_left d_merge_step rest (first, []))); discriminate.
Qed.

(** X2.  Both merges are idempotent: merging the segments the diarization
    path has written back ([create] of the merged list) gives the merged
    list again, and merging the output of the whole-file merge changes
    nothing.  More generally a list in which no two adjacent segments share
    a tag passes through either merge unchanged. *)
Theorem merging_twice_changes_nothing :
  (forall id segments,
     mergeSegments (map (create id) (mergeSegments segments)) = mergeSegments segments) /\
  (forall segments,
     mergeConsecutiveSpeakerSegments (mergeConsecutiveSpeakerSegments segments) =
     mergeConsecutiveSpeakerSegments segments) /\
  (forall segments,
     adjacent_distinct (map speakerTag segments) ->
     mergeSegments segments = map fresh segments) /\
  (forall segments,
     adjacent_distinct (map d_speakerTag segments) ->
     mergeConsecutiveSpeakerSegments segments = segments).
Proof.
  split; [|split; [|split]].
  - intros id segments. rewrite mergeSegments_distinct.
    + rewrite map_map. rewrite <- (map_id (mergeSegments segments)) at 2.
      apply map_ext. intros m. apply fresh_create.
    + rewrite map_map. simpl. apply (proj1 (mergeSegments_blocks segments)).
  - intros segments. apply mergeConsecutive_distinct, mergeConsecutive_adjacent.
  - apply mergeSegments_distinct.
  - apply mergeConsecutive_distinct.
Qed.

Lemma transcripts_with_speakers segments spans :
  map transcript (segmentsWithSpeakers segments spans) = map transcript segments.
Proof. unfold segmentsWithSpeakers. rewrite map_map. reflexivity. Qed.

(** X3.  Reconciliation loses no text: the transcripts of the reconciled
    segments, joined by single spaces, read exactly as the transcripts of the
    live segments joined by single spaces; the reconciled list is never
    longer than the live list and is empty only when the live list is. *)
Theorem reconcile_keeps_the_text (segments : list TranscriptSegment)
  (spans : list PyannoteSegment) :
  let merged := reconcile segments spans in
  String.concat " " (map m_transcript merged) =
    String.concat " " (map transcript segments) /\
  (List.length merged <= List.length segments)%nat /\
  (merged = [] <-> segments = []).
Proof.
  intros merged. subst merged. unfold reconcile.
  rewrite <- (transcripts_with_speakers segments spans).
  assert (Hl : List.length (segmentsWithSpeakers segments spans) = List.length segments)
    by (unfold segmentsWithSpeakers; apply length_map).
  assert (Hn : segmentsWithSpeakers segments spans = [] <-> segments = []).
  { unfold segmentsWithSpeakers. destruct segments; simpl; split; congruence. }
  rewrite <- Hl, <- Hn. generalize (segmentsWithSpeakers segments spans) as l. clear.
  intros [|first rest].
  - simpl. repeat split; auto.
  - destruct (mergeSegments_cons first rest) as (current & merged & Hf & ->).
    split; [|split].
    + rewrite (@fold_merge_transcript _ _ _ _ _ Hf). reflexivity.
    + rewrite length_app. simpl. pose proof (@fold_merge_length _ _ _ _ _ Hf) as H.
      simpl in H. lia.
    + split; [|discriminate]. destruct merged; discriminate.
Qed.

End MergeProperties.

Section Tags.
Import JS BatchDiarization.

Lemma Set_spread_length seen l :
  (List.length (Set_spread seen l) <= List.length l)%nat.
Proof.
  revert seen. induction l as [|y l IH]; intros seen; simpl; [lia|].
  destruct (existsb (String.eqb y) seen); simpl.
  - specialize (IH seen). lia.
  - specialize (IH (y :: seen)). lia.
Qed.

Lemma tag_of_range spans l :
  1 <= tag_of (speakerMap spans) l <=
  Z.max 1 (Z.of_nat (List.length (uniqueSpeakers spans))).
Proof.
  destruct (in_dec string_dec l (uniqueSpeakers spans)) as [Hin|Hnin].
  - destruct (In_nth_error _ _ Hin) as [i Hi].
    rewrite (@tag_of_index spans i l Hi).
    assert (Hlt : (i < List.length (uniqueSpeakers spans))%nat)
      by (apply nth_error_Some; congruence).
    lia.
  - rewrite (@tag_of_absent spans l Hnin). lia.
Qed.

Lemma merged_tag_source l m :
  In m (mergeSegments l) -> exists s, In s l /\ m_speakerTag m = speakerTag s.
Proof.
  destruct (mergeSegments_blocks l) as (_ & blocks & Hc & Hf). subst l.
  induction Hf as [|block m' blocks merged Hb Hf IH]; simpl; [tauto|].
  intros [-> | Hin].
  - destruct Hb as [h t Ht]. exists h. split; [left; reflexivity|apply fuse_speakerTag].
  - destruct (IH Hin) as (s & Hs & Htag). exists s. split; [|exact Htag].
    apply in_or_app. right. exact Hs.
Qed.

End Tags.

Section TagProperties.
Import JS BatchDiarization.

(** X4.  The tags reconciliation writes back are the positions of the
    diarization labels: every reconciled segment carries a tag between 1 and
    the number of distinct labels of the spans (1 when there is no span),
    and there are at most as many distinct labels as spans. *)
Theorem reconciled_tags_are_label_positions (segments : list TranscriptSegment)
  (spans : list PyannoteSegment) :
  let n := Z.of_nat (List.length (uniqueSpeakers spans)) in
  n <= Z.of_nat (List.length spans) /\
  Forall (fun m => 1 <= m_speakerTag m <= Z.max 1 n) (reconcile segments spans).
Proof.
  intros n. subst n. split.
  - unfold uniqueSpeakers.
    rewrite <- (Permutation_length (Array_sort_perm (Set_spread [] (map speaker spans)))).
    pose proof (Set_spread_length [] (map speaker spans)) as H.
    rewrite length_map in H. lia.
  - apply Forall_forall. intros m Hm. unfold reconcile in Hm.
    destruct (@merged_tag_source _ _ Hm) as (s & Hs & ->).
    unfold segmentsWithSpeakers in Hs. apply in_map_iff in Hs.
    destruct Hs as (s0 & <- & _). simpl. apply tag_of_range.
Qed.

(** X5.  Two labels that occur in the diarization spans and receive the same
    tag are the same label: the renumbering never folds two diarized
    speakers into one. *)
Theorem equal_tags_mean_equal_labels (spans : list PyannoteSegment) (l1 l2 : string)
  (H1 : In l1 (map speaker spans)) (H2 : In l2 (map speaker spans))
  (Htag : tag_of (speakerMap spans) l1 = tag_of (speakerMap spans) l2) :
  l1 = l2.
Proof.
  apply uniqueSpeakers_In in H1, H2.
  destruct (In_nth_error _ _ H1) as [i Hi]. destruct (In_nth_error _ _ H2) as [j Hj].
  rewrite (@tag_of_index spans i l1 Hi), (@tag_of_index spans j l2 Hj) in Htag.
  assert (i = j) by lia. subst j. congruence.
Qed.

Lemma equal_tags_mean_equal_labels_example :
  let spans := [span "SPEAKER_01" 0 1; span "SPEAKER_00" 1 2; span "SPEAKER_01" 2 3] in
  tag_of (speakerMap spans) "SPEAKER_01" = 2 /\ "SPEAKER_01" = "SPEAKER_01".
Proof.
  cbv zeta. split; [reflexivity|].
  apply (@equal_tags_mean_equal_labels
           [span "SPEAKER_01" 0 1; span "SPEAKER_00" 1 2; span "SPEAKER_01" 2 3]
           "SPEAKER_01" "SPEAKER_01").
  - simpl. auto.
  - simpl. auto.
  - reflexivity.
Defined.

End TagProperties.

(* ================================================================== *)
(** * Further properties: the batch job [processAudioFile] *)
(* ================================================================== *)

Section Store.
Import JS BatchDiarization.






Lemma status_of_other (statuses : Map string string) id id' status :
  id' <> id ->
  Map_get String.eqb (Map_set String.eqb statuses id status) id' =
  Map_get String.eqb statuses id'.
Proof.
  intros H. rewrite (@Map_get_set _ _ _ string_eqb_spec).
  destruct (String.eqb id id') eqn:E; [|reflexivity].
  apply String.eqb_eq in E. congruence.
Qed.




End Store.

Section Job.
Import JS BatchDiarization BatchJob.









(** What a computation on the store leaves alone: the segments and the
    statuses of the other meetings. *)
Lemma untouched_ret (A : Type) id (a : A) : untouched id (ret a).
Proof. intros db. split; [reflexivity|]. intros; reflexivity. Qed.

Lemma untouched_lift (A : Type) id (o : outcome A) : untouched id (lift o).
Proof. intros db. split; [reflexivity|]. intros; reflexivity. Qed.

Lemma untouched_bind (A B : Type) id (c : M A) (k : A -> M B) :
  untouched id c -> (forall a, untouched id (k a)) -> untouched id (bind c k).
Proof.
  intros Hc Hk db. unfold bind. specialize (Hc db).
  destruct (c db) as [[a|e] db1]; simpl in *.
  - destruct (Hk a db1) as [H1 H2]. destruct Hc as [H3 H4]. split.
    + rewrite H1. exact H3.
    + intros id' Hne. rewrite H2 by exact Hne. apply H4, Hne.
  - exact Hc.
Qed.

Lemma untouched_try_catch (A : Type) id (c : M A) (h : string -> M A) :
  untouched id c -> (forall e, untouched id (h e)) -> untouched id (try_catch c h).
Proof.
  intros Hc Hh db. unfold try_catch. specialize (Hc db).
  destruct (c db) as [[a|e] db1]; simpl in *.
  - exact Hc.
  - destruct (Hh e db1) as [H1 H2]. destruct Hc as [H3 H4]. split.
    + rewrite H1. exact H3.
    + intros id' Hne. rewrite H2 by exact Hne. apply H4, Hne.
Qed.

Lemma untouched_call (A : Type) id
  (run : list TranscriptSegment -> A * list TranscriptSegment) :
  (forall rs, filter (other_meeting id) (snd (run rs)) = filter (other_meeting id) rs) ->
  untouched id (segmentRepository_call run).
Proof.
  intros H db. unfold segmentRepository_call.
  destruct (faults db) as [|[|] fs]; simpl.
  - specialize (H (rows db)). destruct (run (rows db)). simpl in *.
    split; [exact H|]. intros; reflexivity.
  - split; [reflexivity|]. intros; reflexivity.
  - specialize (H (rows db)). destruct (run (rows db)). simpl in *.
    split; [exact H|]. intros; reflexivity.
Qed.

Lemma untouched_find id : untouched id (find id).
Proof. apply untouched_call. intros rs. reflexivity. Qed.

Lemma untouched_delete id : untouched id (delete id).
Proof.
  apply untouched_call. intros rs. simpl. unfold other_meeting. apply filter_idem.
Qed.

Lemma untouched_save id s : of_meeting id s = true -> untouched id (save s).
Proof.
  intros H. apply untouched_call. intros rs. simpl. rewrite filter_app. simpl.
  unfold other_meeting at 2. rewrite H. simpl. apply app_nil_r.
Qed.

Lemma untouched_save_all id l :
  Forall (fun s => of_meeting id s = true) l -> untouched id (save_all l).
Proof.
  induction 1 as [|s l Hs Hl IH]; simpl.
  - apply untouched_ret.
  - apply untouched_bind; [apply untouched_save, Hs|]. intros _. exact IH.
Qed.

Lemma untouched_updateMeetingStatus id status : untouched id (updateMeetingStatus id status).
Proof.
  intros db. simpl. split; [reflexivity|]. intros id' Hne. apply status_of_other, Hne.
Qed.

(** X9.  A job only touches its own meeting.  Whatever the collaborators
    answer and whichever calls the database rejects, [processAudioFile]
    leaves the persisted segments of every other meeting and the status of
    every other meeting as they were. *)
Theorem job_touches_only_its_meeting (env : Env) (id : string) (db : Db) :
  let run := processAudioFile env id db in
  filter (other_meeting id) (rows (snd run)) = filter (other_meeting id) (rows db) /\
  forall id', id' <> id ->
    Map_get String.eqb (statuses (snd run)) id' = Map_get String.eqb (statuses db) id'.
Proof.
  assert (Hcreated : forall l, Forall (fun s => of_meeting id s = true) (map (create id) l)).
  { intros l. apply Forall_forall. intros s Hs. apply in_map_iff in Hs.
    destruct Hs as (m & <- & _). apply String.eqb_refl. }
  assert (Hd_created : forall mappings l,
            Forall (fun s => of_meeting id s = true) (map (d_create id mappings) l)).
  { intros mappings l. apply Forall_forall. intros s Hs. apply in_map_iff in Hs.
    destruct Hs as (m & <- & _). apply String.eqb_refl. }
  apply (fun H => H db). change (untouched id (processAudioFile env id)).
  unfold processAudioFile.
  apply untouched_try_catch; [|intros e; apply untouched_updateMeetingStatus].
  apply untouched_bind; [apply untouched_find|]. intros [|s l].
  - destruct (negb (isAvailable env)); [apply untouched_updateMeetingStatus|].
    apply untouched_bind; [apply untouched_lift|]. intros _.
    apply untouched_bind; [apply untouched_lift|]. intros transcription.
    destruct (map toDiarizedSegment transcription) as [|d ds];
      [apply untouched_updateMeetingStatus|].
    apply untouched_bind; [|intros _; apply untouched_updateMeetingStatus].
    unfold updateTranscriptSegments.
    apply untouched_bind; [apply untouched_delete|]. intros _.
    apply untouched_save_all, Hd_created.
  - apply untouched_bind; [|intros _; apply untouched_updateMeetingStatus].
    destruct (isDiarizationAvailable env); [|apply untouched_ret].
    apply untouched_bind; [apply untouched_lift|]. intros _.
    apply untouched_try_catch; [|intros e; apply untouched_ret].
    apply untouched_bind; [apply untouched_lift|]. intros spans.
    unfold assignSpeakersAndMergeSegments.
    apply untouched_bind; [apply untouched_delete|]. intros _.
    apply untouched_save_all, Hcreated.
Qed.

End Job.

(* ================================================================== *)
(** * Further properties: the life of a provider session *)
(* ================================================================== *)

Section SessionLemmas.
Import JS GoogleSpeech GoogleSession.

Lemma Map_get_set_other (m : Map string StreamSession) k k' v :
  k <> k' -> Map_get String.eqb (Map_set String.eqb m k v) k' = Map_get String.eqb m k'.
Proof.
  intros H. rewrite (@Map_get_set _ _ _ string_eqb_spec).
  destruct (String.eqb k k') eqn:E; [|reflexivity].
  apply String.eqb_eq in E. congruence.
Qed.

Lemma Map_get_delete (m : Map string StreamSession) k k' :
  Map_get String.eqb (Map_delete m k) k' =
  if String.eqb k k' then None else Map_get String.eqb m k'.
Proof.
  unfold Map_delete. induction m as [|[k0 v0] m IH]; simpl.
  - destruct (String.eqb k k'); reflexivity.
  - destruct (String.eqb k0 k) eqn:E0; simpl.
    + apply String.eqb_eq in E0. subst k0. rewrite IH.
      destruct (String.eqb k k'); reflexivity.
    + destruct (String.eqb k0 k') eqn:E1; [|exact IH].
      apply String.eqb_eq in E1. subst k0.
      rewrite String.eqb_sym in E0. rewrite E0. reflexivity.
Qed.

Lemma update_nth_length (A : Type) h (f : A -> A) l :
  List.length (update_nth h f l) = List.length l.
Proof.
  revert h. induction l as [|x l IH]; intros h; destruct h; simpl; try reflexivity.
  rewrite IH. reflexivity.
Qed.

Lemma update_nth_same (A : Type) h (f : A -> A) l x :
  nth_error l h = Some x -> nth_error (update_nth h f l) h = Some (f x).
Proof.
  revert h. induction l as [|y l IH]; intros h H; destruct h; simpl in *; try discriminate.
  - injection H as ->. reflexivity.
  - apply IH, H.
Qed.

Lemma update_nth_other (A : Type) h h' (f : A -> A) l :
  h' <> h -> nth_error (update_nth h f l) h' = nth_error l h'.
Proof.
  revert h h'. induction l as [|y l IH]; intros h h' H; destruct h, h'; simpl;
    try reflexivity; try congruence.
  apply IH. congruence.
Qed.

Lemma Map_get_keys (m : Map string StreamSession) k :
  Map_get String.eqb m k = None -> forall k' v, Map_get String.eqb m k' = Some v -> k' <> k.
Proof. intros H k' v H' ->. congruence. Qed.

End SessionLemmas.

Section SessionInvariant.
Import JS GoogleSpeech GoogleSession.

Lemma well_formed_set svc svc' k s :
  well_formed svc ->
  sessions svc' = Map_set String.eqb (sessions svc) k s ->
  (List.length (streams svc) <= List.length (streams svc'))%nat ->
  id s = k ->
  (forall h, recognizeStream s = Some h -> (h < List.length (streams svc'))%nat) ->
  well_formed svc'.
Proof.
  intros Hwf Hs Hl Hid Hh k' s' Hget. rewrite Hs in Hget.
  destruct (string_dec k k') as [<- | Hne].
  - rewrite Map_get_set_same in Hget. injection Hget as <-. split; assumption.
  - rewrite Map_get_set_other in Hget by exact Hne.
    destruct (Hwf k' s' Hget) as [H1 H2]. split; [exact H1|].
    intros h Hh'. specialize (H2 h Hh'). lia.
Qed.

Lemma well_formed_same svc svc' :
  well_formed svc -> sessions svc' = sessions svc ->
  (List.length (streams svc) <= List.length (streams svc'))%nat ->
  well_formed svc'.
Proof.
  intros Hwf Hs Hl k s Hget. rewrite Hs in Hget.
  destruct (Hwf k s Hget) as [H1 H2]. split; [exact H1|].
  intros h Hh. specialize (H2 h Hh). lia.
Qed.

Lemma restartStream_well_formed svc session :
  well_formed svc -> well_formed (restartStream svc session).
Proof.
  intros Hwf. unfold restartStream. destruct (negb (isActive session)); [exact Hwf|].
  eapply well_formed_set with (k := id session); [exact Hwf| | | |].
  - simpl. destruct (recognizeStream session); reflexivity.
  - simpl. destruct (recognizeStream session); simpl; [rewrite update_nth_length|]; lia.
  - reflexivity.
  - simpl. discriminate.
Qed.

Lemma createRecognizeStream_well_formed svc session now :
  well_formed svc -> well_formed (createRecognizeStream svc session now).
Proof.
  intros Hwf. eapply well_formed_set with (k := id session); [exact Hwf| | | |].
  - reflexivity.
  - simpl. rewrite length_app. lia.
  - reflexivity.
  - simpl. intros h [= <-]. rewrite length_app. simpl. lia.
Qed.

Lemma writeAudio_well_formed svc sessionId audioData now :
  well_formed svc -> well_formed (snd (writeAudio svc sessionId audioData now)).
Proof.
  intros Hwf. unfold writeAudio.
  destruct (Map_get String.eqb (sessions svc) sessionId) as [session|]; [|exact Hwf].
  destruct (recognizeStream session) as [h|]; [|exact Hwf].
  destruct (negb (isActive session)); [exact Hwf|].
  destruct (nth_error (streams svc) h) as [st|]; [|exact Hwf].
  destruct (destroyed st || writableEnded st)%bool; [exact Hwf|].
  destruct (now - audioInputStreamTimestamp session >? streamingLimit).
  - apply restartStream_well_formed, Hwf.
  - destruct (write_error st) as [message|].
    + destruct (includes message "write after" || includes message "destroyed")%bool;
        [apply restartStream_well_formed, Hwf|exact Hwf].
    + simpl. eapply well_formed_same; [exact Hwf|reflexivity|].
      simpl. rewrite update_nth_length. lia.
Qed.

Lemma stopStreaming_well_formed svc sessionId :
  well_formed svc -> well_formed (stopStreaming svc sessionId).
Proof.
  intros Hwf. unfold stopStreaming.
  destruct (Map_get String.eqb (sessions svc) sessionId) as [session|] eqn:Hget;
    [|exact Hwf].
  destruct (Hwf sessionId session Hget) as [Hid Hh].
  eapply well_formed_set
    with (k := sessionId)
         (s := {| id := id session; meetingId := meetingId session;
                  recognizeStream := recognizeStream session; isActive := false;
                  restartCount := restartCount session;
                  audioInputStreamTimestamp := audioInputStreamTimestamp session |});
    [exact Hwf| | | |].
  - simpl. destruct (recognizeStream session); reflexivity.
  - simpl. destruct (recognizeStream session); simpl; [rewrite update_nth_length|]; lia.
  - exact Hid.
  - simpl. intros h H. specialize (Hh h H).
    destruct (recognizeStream session); simpl; [rewrite update_nth_length|]; exact Hh.
Qed.

Lemma destroySession_well_formed svc sessionId :
  well_formed svc -> well_formed (destroySession svc sessionId).
Proof.
  intros Hwf. unfold destroySession.
  destruct (Map_get String.eqb (sessions svc) sessionId) as [session|]; [|exact Hwf].
  pose proof (stopStreaming_well_formed sessionId Hwf) as Hwf1.
  intros k s Hget. simpl in Hget. rewrite Map_get_delete in Hget.
  destruct (String.eqb sessionId k); [discriminate|]. apply (Hwf1 k s Hget).
Qed.

Lemma act_well_formed svc a : well_formed svc -> well_formed (act svc a).
Proof.
  intros Hwf. destruct a as [available sessionId meetingId now | speechClient sessionId now
                            | sessionId audioData now | sessionId now | sessionId | sessionId];
    simpl.
  - unfold createStreamSession. destruct (negb available); [exact Hwf|]. simpl.
    eapply well_formed_set with (k := sessionId); [exact Hwf|reflexivity| | |].
    + simpl. lia.
    + reflexivity.
    + simpl. discriminate.
  - unfold startStreaming.
    destruct (Map_get String.eqb (sessions svc) sessionId) as [session|]; [|exact Hwf].
    destruct (negb speechClient); [exact Hwf|].
    apply createRecognizeStream_well_formed, Hwf.
  - apply writeAudio_well_formed, Hwf.
  - unfold restart_callback.
    destruct (Map_get String.eqb (sessions svc) sessionId) as [session|]; [|exact Hwf].
    eapply well_formed_same; [apply (createRecognizeStream_well_formed session now Hwf)| |];
      simpl; [reflexivity|lia].
  - apply stopStreaming_well_formed, Hwf.
  - apply destroySession_well_formed, Hwf.
Qed.

Lemma fold_act_well_formed actions : forall svc,
  well_formed svc -> well_formed (fold_left act actions svc).
Proof.
  induction actions as [|a actions IH]; intros svc Hwf; simpl; [exact Hwf|].
  apply IH, act_well_formed, Hwf.
Qed.

End SessionInvariant.

Section SessionProperties.
Import JS GoogleSpeech GoogleSession.

(** X10.  Whatever clients and timers do, starting from a service without
    sessions: every session is registered under its own id, and the stream a
    session holds is one the service opened.  Create, start, feed, the
    restart callback, stop and destroy all keep this. *)
Theorem sessions_stay_well_formed (actions : list Action) :
  well_formed (fold_left act actions no_sessions) /\
  (forall svc a, well_formed svc -> well_formed (act svc a)).
Proof.
  split.
  - apply fold_act_well_formed. intros k s H. discriminate.
  - intros svc a. apply act_well_formed.
Qed.

Lemma feed_all_cons svc sessionId audioData now frames :
  feed_all svc sessionId ((audioData, now) :: frames) =
  (fst (writeAudio svc sessionId audioData now) ::
   fst (feed_all (snd (writeAudio svc sessionId audioData now)) sessionId frames),
   snd (feed_all (snd (writeAudio svc sessionId audioData now)) sessionId frames)).
Proof.
  simpl. destruct (writeAudio svc sessionId audioData now) as [ok svc1]. simpl.
  destruct (feed_all svc1 sessionId frames). reflexivity.
Qed.

Lemma writeAudio_in_limit svc sessionId session h st audioData now :
  Map_get String.eqb (sessions svc) sessionId = Some session ->
  isActive session = true ->
  recognizeStream session = Some h ->
  nth_error (streams svc) h = Some st ->
  destroyed st = false -> writableEnded st = false -> write_error st = None ->
  now - audioInputStreamTimestamp session <= streamingLimit ->
  writeAudio svc sessionId audioData now =
  (true, update_stream svc h (write_stream audioData)).
Proof.
  intros Hs Ha Hh Hst Hd He Hw Ht. unfold writeAudio.
  rewrite Hs, Hh, Ha, Hst, Hd, He, Hw. simpl.
  destruct (now - audioInputStreamTimestamp session >? streamingLimit) eqn:E;
    [|reflexivity].
  apply Z.gtb_lt in E. lia.
Qed.

(** X11.  Frames reach the provider in the order they are fed.  For a
    session that is streaming on a stream whose writes do not throw, feeding
    frames while the stream is within its time limit returns [true] for each
    one and appends exactly these frames, in order, to what the session's
    stream was fed; the session record and every other stream are as they
    were. *)
Theorem frames_reach_the_stream_in_order (frames : list (Buffer * Z)) :
  forall (svc : Service) (sessionId : string) (session : StreamSession)
         (h : nat) (st : Stream)
    (Hsession : Map_get String.eqb (sessions svc) sessionId = Some session)
    (Hactive : isActive session = true)
    (Hstream : recognizeStream session = Some h /\ nth_error (streams svc) h = Some st)
    (Hopen : destroyed st = false /\ writableEnded st = false)
    (Hhealthy : write_error st = None)
    (Hlimit : Forall (fun f => snd f - audioInputStreamTimestamp session <= streamingLimit)
                     frames),
  let run := feed_all svc sessionId frames in
  fst run = map (fun _ => true) frames /\
  sessions (snd run) = sessions svc /\
  (exists st', nth_error (streams (snd run)) h = Some st' /\
               written st' = written st ++ map fst frames) /\
  (forall h', h' <> h -> nth_error (streams (snd run)) h' = nth_error (streams svc) h').
Proof.
  induction frames as [|[audioData now] frames IH];
    intros svc sessionId session h st Hsession Hactive [Hh Hst] [Hd He] Hhealthy Hlimit run;
    subst run.
  - simpl. repeat split; auto. exists st. rewrite app_nil_r. auto.
  - inversion Hlimit as [|? ? Hnow Hrest]; subst. simpl in Hnow.
    rewrite feed_all_cons.
    rewrite (@writeAudio_in_limit svc sessionId session h st audioData now
               Hsession Hactive Hh Hst Hd He Hhealthy Hnow).
    cbn [fst snd].
    assert (Hst1 : nth_error (streams (update_stream svc h (write_stream audioData))) h =
                   Some (write_stream audioData st))
      by (simpl; apply update_nth_same, Hst).
    destruct (IH (update_stream svc h (write_stream audioData)) sessionId session h
                 (write_stream audioData st) Hsession Hactive (conj Hh Hst1)
                 (conj Hd He) Hhealthy Hrest) as (H1 & H2 & (st' & H3 & H4) & H5).
    split; [simpl; rewrite H1; reflexivity|]. split; [exact H2|]. split.
    + exists st'. split; [exact H3|]. rewrite H4. simpl. rewrite <- app_assoc. reflexivity.
    + intros h' Hne. rewrite (H5 h' Hne). simpl. apply update_nth_other, Hne.
Qed.

Lemma frames_reach_the_stream_example :
  let run := feed_all sample_service "s1" [([Byte.x03], 10); ([Byte.x04], 20)] in
  fst run = [true; true] /\
  sessions (snd run) = sessions sample_service /\
  (exists st', nth_error (streams (snd run)) 0 = Some st' /\
               written st' = [[Byte.x01; Byte.x02]; [Byte.x03]; [Byte.x04]]) /\
  (forall h', h' <> 0%nat ->
     nth_error (streams (snd run)) h' = nth_error (streams sample_service) h').
Proof.
  cbv zeta.
  apply (@frames_reach_the_stream_in_order [([Byte.x03], 10); ([Byte.x04], 20)]
           sample_service "s1" sample_session 0%nat
           (write_stream [Byte.x01; Byte.x02] new_stream)).
  - reflexivity.
  - reflexivity.
  - split; reflexivity.
  - split; reflexivity.
  - reflexivity.
  - repeat constructor; simpl; unfold streamingLimit; lia.
Defined.


Lemma writeAudio_unknown svc sessionId audioData now :
  Map_get String.eqb (sessions svc) sessionId = None ->
  writeAudio svc sessionId audioData now = (false, svc).
Proof. intros H. unfold writeAudio. rewrite H. reflexivity. Qed.


End SessionProperties.

Section SessionClosing.
Import JS GoogleSpeech GoogleSession.

Lemma restartStream_get_other svc session k :
  id session <> k ->
  Map_get String.eqb (sessions (restartStream svc session)) k =
  Map_get String.eqb (sessions svc) k.
Proof.
  intros Hne. unfold restartStream. destruct (negb (isActive session)); [reflexivity|].
  simpl. rewrite Map_get_set_other by exact Hne.
  destruct (recognizeStream session); reflexivity.
Qed.

Lemma createRecognizeStream_get_other svc session now k :
  id session <> k ->
  Map_get String.eqb (sessions (createRecognizeStream svc session now)) k =
  Map_get String.eqb (sessions svc) k.
Proof. intros Hne. simpl. apply Map_get_set_other, Hne. Qed.

Lemma stopStreaming_get_absent svc sessionId k :
  Map_get String.eqb (sessions svc) k = None ->
  Map_get String.eqb (sessions (stopStreaming svc sessionId)) k = None.
Proof.
  intros Hk. unfold stopStreaming.
  destruct (Map_get String.eqb (sessions svc) sessionId) as [session|] eqn:Hget;
    [|exact Hk].
  simpl. rewrite Map_get_set_other by (intros ->; congruence).
  destruct (recognizeStream session); exact Hk.
Qed.

(** An id that is not registered stays so under every action that does not
    create it. *)
Lemma act_keeps_absent svc a k :
  well_formed svc ->
  Map_get String.eqb (sessions svc) k = None ->
  creates k a = false ->
  Map_get String.eqb (sessions (act svc a)) k = None.
Proof.
  intros Hwf Hk Hc.
  assert (Hother : forall k' session,
            Map_get String.eqb (sessions svc) k' = Some session -> id session <> k).
  { intros k' session Hget. destruct (Hwf k' session Hget) as [-> _].
    intros ->. congruence. }
  destruct a as [available sessionId meetingId now | speechClient sessionId now
                | sessionId audioData now | sessionId now | sessionId | sessionId];
    simpl in *.
  - unfold createStreamSession. destruct available; simpl in *; [|exact Hk].
    rewrite Map_get_set_other; [exact Hk|].
    intros ->. rewrite String.eqb_refl in Hc. discriminate.
  - unfold startStreaming.
    destruct (Map_get String.eqb (sessions svc) sessionId) as [session|] eqn:Hget;
      [|exact Hk].
    destruct (negb speechClient); [exact Hk|].
    change (Map_get String.eqb (sessions (createRecognizeStream svc session now)) k = None).
    rewrite createRecognizeStream_get_other by (eapply Hother; exact Hget). exact Hk.
  - unfold writeAudio.
    destruct (Map_get String.eqb (sessions svc) sessionId) as [session|] eqn:Hget;
      [|exact Hk].
    assert (Hne : id session <> k) by (eapply Hother; exact Hget).
    destruct (recognizeStream session) as [h|]; [|exact Hk].
    destruct (negb (isActive session)); [exact Hk|].
    destruct (nth_error (streams svc) h) as [st|]; [|exact Hk].
    destruct (destroyed st || writableEnded st)%bool; [exact Hk|].
    destruct (now - audioInputStreamTimestamp session >? streamingLimit).
    + change (Map_get String.eqb (sessions (restartStream svc session)) k = None).
      rewrite restartStream_get_other by exact Hne. exact Hk.
    + destruct (write_error st) as [message|]; [|exact Hk].
      destruct (includes message "write after" || includes message "destroyed")%bool;
        [|exact Hk].
      change (Map_get String.eqb (sessions (restartStream svc session)) k = None).
      rewrite restartStream_get_other by exact Hne. exact Hk.
  - unfold restart_callback.
    destruct (Map_get String.eqb (sessions svc) sessionId) as [session|] eqn:Hget;
      [|exact Hk].
    change (Map_get String.eqb (sessions (createRecognizeStream svc session now)) k = None).
    rewrite createRecognizeStream_get_other by (eapply Hother; exact Hget). exact Hk.
  - apply stopStreaming_get_absent, Hk.
  - unfold destroySession.
    destruct (Map_get String.eqb (sessions svc) sessionId) as [session|]; [|exact Hk].
    simpl. rewrite Map_get_delete. destruct (String.eqb sessionId k); [reflexivity|].
    apply stopStreaming_get_absent, Hk.
Qed.

Lemma fold_act_keeps_absent actions k : forall svc,
  well_formed svc ->
  Map_get String.eqb (sessions svc) k = None ->
  Forall (fun a => creates k a = false) actions ->
  Map_get String.eqb (sessions (fold_left act actions svc)) k = None.
Proof.
  induction actions as [|a actions IH]; intros svc Hwf Hk Hc; simpl; [exact Hk|].
  inversion Hc as [|? ? Ha Hrest]; subst.
  apply IH; [apply act_well_formed, Hwf|apply act_keeps_absent; assumption|exact Hrest].
Qed.

Lemma destroySession_absent svc sessionId :
  Map_get String.eqb (sessions (destroySession svc sessionId)) sessionId = None.
Proof.
  unfold destroySession.
  destruct (Map_get String.eqb (sessions svc) sessionId) as [session|] eqn:Hget;
    [|exact Hget].
  simpl. rewrite Map_get_delete, String.eqb_refl. reflexivity.
Qed.

(** X13.  A destroyed session stays closed.  After [destroySession], and
    whatever happens next to this or any other session short of creating the
    id again (feeds, restart callbacks that were still pending, starts,
    stops, destroys), the id is not registered, a feed to it is refused
    ([false]) without any change, and its restart callback does nothing. *)
Theorem destroyed_session_stays_closed (svc : Service) (sessionId : string)
  (actions : list Action)
  (Hwf : well_formed svc)
  (Hnot_created : Forall (fun a => creates sessionId a = false) actions) :
  let svc' := fold_left act actions (destroySession svc sessionId) in
  getSession svc' sessionId = None /\
  (forall audioData now, writeAudio svc' sessionId audioData now = (false, svc')) /\
  (forall now, restart_callback svc' sessionId now = svc').
Proof.
  intros svc'.
  assert (H : Map_get String.eqb (sessions svc') sessionId = None).
  { apply fold_act_keeps_absent; [apply destroySession_well_formed, Hwf| |exact Hnot_created].
    apply destroySession_absent. }
  split; [exact H|]. split.
  - intros audioData now. apply writeAudio_unknown, H.
  - intros now. unfold restart_callback. rewrite H. reflexivity.
Qed.

Lemma sample_service_well_formed : well_formed sample_service.
Proof.
  intros k session H.
  change (sessions sample_service) with (Map_set String.eqb [] "s1" sample_session) in H.
  destruct (string_dec "s1" k) as [<- | Hne].
  - rewrite Map_get_set_same in H. injection H as <-. split; [reflexivity|].
    simpl. intros h Hh. injection Hh as <-. lia.
  - rewrite Map_get_set_other in H by exact Hne. discriminate.
Qed.

Lemma destroyed_session_example :
  let svc' := fold_left act [Write "s1" [Byte.x05] 10; Timer "s1" 20; Start true "s1" 30]
                (destroySession (restartStream sample_service sample_session) "s1") in
  getSession svc' "s1" = None /\
  (forall audioData now, writeAudio svc' "s1" audioData now = (false, svc')) /\
  (forall now, restart_callback svc' "s1" now = svc').
Proof.
  cbv zeta.
  apply (@destroyed_session_stays_closed
           (restartStream sample_service sample_session) "s1"
           [Write "s1" [Byte.x05] 10; Timer "s1" 20; Start true "s1" 30]).
  - apply restartStream_well_formed, sample_service_well_formed.
  - repeat constructor.
Defined.

Lemma nth_error_snoc (A : Type) (l : list A) x :
  nth_error (l ++ [x]) (List.length l) = Some x.
Proof. induction l as [|y l IH]; simpl; [reflexivity|exact IH]. Qed.

(** X14.  A restart replaces the stream.  For a streaming session,
    [restartStream] followed by its callback at time [now] leaves the session
    streaming on a new, empty stream, with the restart count one higher and
    the clock of the stream reset to [now]; the old stream is ended, what was
    fed before is kept, and [restarted] is emitted.  Between the two, every
    feed is refused without any change and a second restart request does
    nothing. *)
Theorem restart_replaces_the_stream (svc : Service) (sessionId : string)
  (session : StreamSession) (now : Z)
  (Hstreaming : streaming svc sessionId session) :
  let svc1 := restartStream svc session in
  let svc2 := restart_callback svc1 sessionId now in
  (forall audioData t, writeAudio svc1 sessionId audioData t = (false, svc1)) /\
  (forall session1, getSession svc1 sessionId = Some session1 ->
                    isActive session1 = false /\ restartStream svc1 session1 = svc1) /\
  (forall h st, recognizeStream session = Some h -> nth_error (streams svc) h = Some st ->
                nth_error (streams svc2) h = Some (end_stream st)) /\
  all_written svc2 = all_written svc /\
  emitted svc2 = emitted svc ++ [(sessionId, "restarted")] /\
  exists session2,
    streaming svc2 sessionId session2 /\
    restartCount session2 = restartCount session + 1 /\
    audioInputStreamTimestamp session2 = now /\
    recognizeStream session2 = Some (List.length (streams svc)) /\
    nth_error (streams svc2) (List.length (streams svc)) = Some new_stream.
Proof.
  intros svc1 svc2.
  destruct Hstreaming as (Hget & Hid & Hactive & h & st & Hh & Hst & Hd & He).
  subst sessionId.
  set (session1 :=
         {| id := id session; meetingId := meetingId session; recognizeStream := None;
            isActive := false; restartCount := restartCount session + 1;
            audioInputStreamTimestamp := audioInputStreamTimestamp session |}).
  assert (E1 : svc1 =
    {| sessions := Map_set String.eqb (sessions svc) (id session) session1;
       streams := update_nth h end_stream (streams svc);
       timers := timers svc ++ [id session]; emitted := emitted svc |}).
  { subst svc1. unfold restartStream. rewrite Hactive, Hh. reflexivity. }
  assert (Hget1 : Map_get String.eqb (sessions svc1) (id session) = Some session1)
    by (rewrite E1; simpl; apply Map_get_set_same).
  set (session2 :=
         {| id := id session; meetingId := meetingId session;
            recognizeStream := Some (List.length (streams svc));
            isActive := true; restartCount := restartCount session + 1;
            audioInputStreamTimestamp := now |}).
  assert (E2 : svc2 =
    {| sessions := Map_set String.eqb (sessions svc1) (id session) session2;
       streams := update_nth h end_stream (streams svc) ++ [new_stream];
       timers := timers svc ++ [id session];
       emitted := emitted svc ++ [(id session, "restarted")] |}).
  { subst svc2. unfold restart_callback. rewrite Hget1.
    unfold createRecognizeStream, set_session. simpl.
    rewrite E1. simpl. rewrite update_nth_length. reflexivity. }
  split; [|split; [|split; [|split; [|split]]]].
  - intros audioData t.
    apply (@writeAudio_inactive svc1 (id session) session1 audioData t Hget1).
    reflexivity.
  - intros s Hs. unfold getSession in Hs. rewrite Hget1 in Hs. injection Hs as <-.
    split; [reflexivity|]. reflexivity.
  - intros h0 st0 Hh0 Hst0. rewrite Hh in Hh0. injection Hh0 as <-.
    rewrite Hst in Hst0. injection Hst0 as <-.
    rewrite E2. simpl. rewrite nth_error_app1.
    + apply update_nth_same, Hst.
    + rewrite update_nth_length. apply nth_error_Some. congruence.
  - rewrite E2. unfold all_written. simpl. rewrite map_app, written_update_end.
    rewrite concat_app. simpl. apply app_nil_r.
  - rewrite E2. reflexivity.
  - exists session2. split; [|repeat split].
    + unfold streaming. rewrite E2. simpl. split; [apply Map_get_set_same|].
      split; [reflexivity|]. split; [reflexivity|].
      exists (List.length (streams svc)), new_stream. repeat split.
      rewrite <- (update_nth_length h end_stream (streams svc)). apply nth_error_snoc.
    + rewrite E2. simpl.
      rewrite <- (update_nth_length h end_stream (streams svc)). apply nth_error_snoc.
Qed.

Lemma sample_service_streaming : streaming sample_service "s1" sample_session.
Proof.
  unfold streaming. simpl. repeat split.
  exists 0%nat, (write_stream [Byte.x01; Byte.x02] new_stream). repeat split.
Defined.

Lemma restart_replaces_the_stream_example :
  let svc1 := restartStream sample_service sample_session in
  let svc2 := restart_callback svc1 "s1" 290100 in
  fst (writeAudio svc1 "s1" [Byte.x03] 290050) = false /\
  fst (writeAudio svc2 "s1" [Byte.x03] 290150) = true /\
  exists session2,
    streaming svc2 "s1" session2 /\ restartCount session2 = 1 /\
    audioInputStreamTimestamp session2 = 290100.
Proof.
  cbv zeta.
  destruct (@restart_replaces_the_stream sample_service "s1" sample_session 290100
              sample_service_streaming)
    as (H1 & _ & _ & _ & _ & session2 & H2 & H3 & H4 & _).
  split; [rewrite H1; reflexivity|]. split; [reflexivity|].
  exists session2. split; [exact H2|]. split; [exact H3|exact H4].
Defined.

(** X15.  A session takes audio only once it is started.
    [createStreamSession] returns nothing and changes nothing when the
    service is not configured; otherwise it registers an inactive session
    without stream, to which every feed is refused.  [startStreaming] on an
    unknown id returns no emitter and changes nothing; on the created
    session it leaves the session streaming on a new, empty stream whose
    clock starts at the time of the call. *)
Theorem session_streams_once_started (svc : Service) (sessionId meetingId : string)
  (now now' : Z) :
  createStreamSession false svc sessionId meetingId now = (None, svc) /\
  (forall speechClient, getSession svc sessionId = None ->
     startStreaming speechClient svc sessionId now' = (false, svc)) /\
  let svc1 := snd (createStreamSession true svc sessionId meetingId now) in
  let svc2 := snd (startStreaming true svc1 sessionId now') in
  (forall audioData t, writeAudio svc1 sessionId audioData t = (false, svc1)) /\
  fst (startStreaming true svc1 sessionId now') = true /\
  all_written svc2 = all_written svc /\
  exists session,
    streaming svc2 sessionId session /\
    restartCount session = 0 /\
    audioInputStreamTimestamp session = now' /\
    recognizeStream session = Some (List.length (streams svc)) /\
    nth_error (streams svc2) (List.length (streams svc)) = Some new_stream.
Proof.
  split; [reflexivity|]. split.
  - intros speechClient H. unfold startStreaming, getSession in *. rewrite H. reflexivity.
  - intros svc1 svc2.
    set (session0 := {| id := sessionId; meetingId := meetingId; recognizeStream := None;
                        isActive := false; restartCount := 0;
                        audioInputStreamTimestamp := now |}).
    assert (Hget1 : Map_get String.eqb (sessions svc1) sessionId = Some session0)
      by (subst svc1; simpl; apply Map_get_set_same).
    split; [|split; [|split]].
    + intros audioData t.
      apply (@writeAudio_inactive svc1 sessionId session0 audioData t Hget1). reflexivity.
    + unfold startStreaming. rewrite Hget1. reflexivity.
    + subst svc2. unfold startStreaming. rewrite Hget1. subst svc1.
      unfold all_written. simpl. rewrite map_app, concat_app. simpl. apply app_nil_r.
    + subst svc2. unfold startStreaming. rewrite Hget1. cbn [snd negb].
      exists {| id := sessionId; meetingId := meetingId;
                recognizeStream := Some (List.length (streams svc)); isActive := true;
                restartCount := 0; audioInputStreamTimestamp := now' |}.
      assert (Hn : nth_error (streams (createRecognizeStream svc1 session0 now'))
                     (List.length (streams svc)) = Some new_stream)
        by (subst svc1; simpl; apply nth_error_snoc).
      split; [|split; [reflexivity|split; [reflexivity|split; [reflexivity|exact Hn]]]].
      unfold streaming. split; [simpl; apply Map_get_set_same|].
      split; [reflexivity|]. split; [reflexivity|].
      exists (List.length (streams svc)), new_stream.
      split; [reflexivity|]. split; [exact Hn|]. split; reflexivity.
Qed.

End SessionClosing.

(* ================================================================== *)
(** * Further properties: the whole-file transcription *)
(* ================================================================== *)

Section Grouping.
Import JS BatchDiarization TranscribeFile.

Variable confidence : number.

(** The state of the grouping loop after the words [p]. *)
Lemma group_loop_inv (p : list Normalizer.Google.IWordInfo) :
  match fold_left (group_step confidence) p (None, []) with
  | (None, segments) => p = [] /\ segments = []
  | (Some currentSegment, segments) =>
      p <> [] /\ c_words currentSegment <> [] /\
      adjacent_distinct
        (map t_speakerTag (segments ++ [push confidence currentSegment])) /\
      String.concat " " (map t_transcript (segments ++ [push confidence currentSegment])) =
        String.concat " " (map word_of p) /\
      Forall (fun s => t_confidence s = confidence) segments
  end.
Proof.
  induction p as [|w p IH] using rev_ind.
  - simpl. split; reflexivity.
  - rewrite fold_left_app. cbn [fold_left].
    destruct (fold_left (group_step confidence) p (None, [])) as [[current|] segments].
    + destruct IH as (Hp & Hw & Had & Htext & Hconf). unfold group_step.
      destruct (c_speakerTag current =? tag_of_word w) eqn:E; cbn [negb].
      * split; [destruct p; discriminate|]. split; [destruct (c_words current); discriminate|].
        split; [|split]; [rewrite map_app in *; exact Had| |exact Hconf].
        rewrite map_app in *. cbn [map push t_transcript c_words] in *.
        rewrite (@concat_snoc " " (c_words current) (word_of w) Hw).
        rewrite concat_absorb_mid.
        replace (map t_transcript segments ++
                 [String.concat " " (c_words current); word_of w])
          with ((map t_transcript segments ++ [String.concat " " (c_words current)]) ++
                [word_of w]) by (rewrite <- app_assoc; reflexivity).
        rewrite concat_snoc by (destruct (map t_transcript segments); discriminate).
        rewrite Htext. rewrite (map_app word_of). cbn [map].
        rewrite concat_snoc by (destruct p; [congruence|discriminate]). reflexivity.
      * apply Z.eqb_neq in E.
        split; [destruct p; discriminate|]. split; [discriminate|].
        split; [|split].
        -- rewrite !map_app in *. cbn [map push t_speakerTag c_speakerTag] in *.
           apply adjacent_distinct_snoc; assumption.
        -- rewrite map_app. cbn [map push t_transcript c_words].
           rewrite concat_snoc
             by (destruct segments; discriminate).
           rewrite Htext. rewrite map_app. cbn [map].
           rewrite concat_snoc by (destruct p; [congruence|discriminate]). reflexivity.
        -- apply Forall_app. split; [exact Hconf|]. repeat constructor.
    + destruct IH as [-> ->]. simpl. repeat split; try discriminate. constructor.
Qed.

End Grouping.

Section TranscribeFileProperties.
Import JS BatchDiarization TranscribeFile.

(** The grouping never leaves two adjacent segments with one speaker tag. *)
Lemma word_segments_adjacent (alternative : Normalizer.Google.Alternative) :
  adjacent_distinct (map t_speakerTag (word_segments alternative)).
Proof.
  unfold word_segments.
  pose proof (group_loop_inv
                (Normalizer.or_option_number
                   (Normalizer.Google.alt_confidence alternative) 0%float)
                (Normalizer.Google.alt_words alternative)) as H.
  destruct (fold_left _ (Normalizer.Google.alt_words alternative) (None, []))
    as [[current|] segments]; cbn [finish].
  - apply H.
  - destruct H as [_ ->]. exact I.
Qed.

(** X16.  [transcribeFile] groups the words of the diarized alternative by
    speaker: no two adjacent segments carry one speaker tag, the segment
    transcripts joined by single spaces read exactly as the words joined by
    single spaces, every segment carries the confidence of the alternative
    (0 when it has none), and there is no segment only when there is no
    word. *)
Theorem words_are_grouped_by_speaker (alternative : Normalizer.Google.Alternative) :
  let segments := word_segments alternative in
  adjacent_distinct (map t_speakerTag segments) /\
  String.concat " " (map t_transcript segments) =
    String.concat " " (map word_of (Normalizer.Google.alt_words alternative)) /\
  Forall (fun s => t_confidence s =
                   Normalizer.or_option_number
                     (Normalizer.Google.alt_confidence alternative) 0%float) segments /\
  (segments = [] <-> Normalizer.Google.alt_words alternative = []).
Proof.
  intros segments. subst segments. unfold word_segments.
  set (confidence := Normalizer.or_option_number
                       (Normalizer.Google.alt_confidence alternative) 0%float).
  pose proof (group_loop_inv confidence (Normalizer.Google.alt_words alternative)) as H.
  destruct (fold_left (group_step confidence) (Normalizer.Google.alt_words alternative)
              (None, [])) as [[current|] segments]; cbn [finish].
  - destruct H as (Hp & _ & Had & Htext & Hconf).
    split; [exact Had|]. split; [exact Htext|]. split.
    + apply Forall_app. split; [exact Hconf|]. repeat constructor.
    + split; [destruct segments; discriminate|]. intros E. congruence.
  - destruct H as [-> ->]. simpl. repeat split; auto.
Qed.

Lemma d_fold_same_tag rest : forall current merged,
  Forall (fun s => d_speakerTag s = d_speakerTag current) rest ->
  snd (fold_left d_merge_step rest (current, merged)) = merged /\
  d_speakerTag (fst (fold_left d_merge_step rest (current, merged))) =
    d_speakerTag current /\
  d_confidence (fst (fold_left d_merge_step rest (current, merged))) =
    d_confidence current.
Proof.
  induction rest as [|x rest IH]; intros current merged H; simpl.
  - repeat split.
  - inversion H as [|? ? Hx Hrest]; subst. rewrite Hx, Z.eqb_refl.
    apply (IH (d_absorb current x) merged). exact Hrest.
Qed.

Lemma plain_segments_tag results :
  Forall (fun s => t_speakerTag s = 1) (plain_segments results).
Proof.
  unfold plain_segments. induction results as [|r results IH]; simpl; [constructor|].
  apply Forall_app. split; [|exact IH]. unfold plain_segment.
  destruct (Normalizer.Google.alternatives r) as [|alt ?]; [constructor|].
  destruct (Normalizer.Google.alt_transcript alt) as [[|c t]|]; repeat constructor.
Qed.

(** X17.  How the whole-file merge meets [transcribeFile].  When the last
    result carries word-level information, the segments [transcribeFile]
    returns pass through [mergeConsecutiveSpeakerSegments] unchanged: the
    grouping already separated the speakers.  Otherwise every result becomes
    a segment of speaker 1 and the merge folds them all into a single
    segment of speaker 1 that keeps the confidence of the first and the
    whole text. *)
Theorem merge_after_transcribeFile (results : list Normalizer.Google.Result) :
  let segments := map toDiarizedSegment (segments_of results) in
  let merged := mergeConsecutiveSpeakerSegments segments in
  match diarized_alternative results with
  | Some _ => merged = segments
  | None =>
      match segments with
      | [] => merged = []
      | first :: _ =>
          exists s, merged = [s] /\ d_speakerTag s = 1 /\
                    d_confidence s = d_confidence first /\
                    d_transcript s = String.concat " " (map d_transcript segments)
      end
  end.
Proof.
  intros segments merged. subst merged segments. unfold segments_of.
  destruct (diarized_alternative results) as [alternative|].
  - apply mergeConsecutive_distinct. rewrite map_map. cbn [toDiarizedSegment d_speakerTag].
    apply word_segments_adjacent.
  - pose proof (plain_segments_tag results) as Htag.
    destruct (plain_segments results) as [|first rest]; [reflexivity|].
    cbn [map]. rewrite mergeConsecutive_unfold.
    inversion Htag as [|? ? Hfirst Hrest]; subst.
    assert (Hsame : Forall (fun s => d_speakerTag s = d_speakerTag (toDiarizedSegment first))
                           (map toDiarizedSegment rest)).
    { apply Forall_forall. intros s Hs. apply in_map_iff in Hs.
      destruct Hs as (t & <- & Ht). simpl. rewrite Hfirst.
      apply (proj1 (Forall_forall _ _) Hrest t Ht). }
    destruct (@d_fold_same_tag (map toDiarizedSegment rest) (toDiarizedSegment first) []
                Hsame) as (H1 & H2 & H3).
    pose proof (d_fold_transcript (map toDiarizedSegment rest) (toDiarizedSegment first) [])
      as H4.
    rewrite H1 in *. cbn [app] in *.
    eexists. split; [reflexivity|]. split; [rewrite H2; exact Hfirst|].
    split; [exact H3|]. exact H4.
Qed.

End TranscribeFileProperties.

(* ================================================================== *)
(** * Further properties: the result normalizers *)
(* ================================================================== *)

Section Events.
Import JS Normalizer Payload.

Lemma event_of_words (r : TranscriptResult) :
  (exists results, Google.handleStreamData results = Some r) \/
  (exists data, Deepgram.handleTranscript data = Some r) ->
  speakerTag r = dominant (a_counts (fold_left word_step (words r) acc0)) /\
  startTime r = a_startTime (fold_left word_step (words r) acc0) /\
  endTime r = a_endTime (fold_left word_step (words r) acc0).
Proof.
  intros [[results H] | [data H]].
  - unfold Google.handleStreamData in H.
    destruct results as [|result ?]; [discriminate|].
    destruct (Google.alternatives result) as [|alternative ?]; [discriminate|].
    injection H as <-. cbn [words speakerTag startTime endTime].
    destruct (word_loop (map Google.normalise_word (Google.alt_words alternative)) acc0)
      as [Hw _].
    rewrite Hw. simpl. repeat split.
  - unfold Deepgram.handleTranscript in H.
    destruct (Deepgram.channel_alternatives data) as [[|alternative ?]|]; try discriminate.
    destruct (Deepgram.alt_transcript alternative) as [t|]; [|discriminate].
    destruct (String.eqb (trim t) ""); [discriminate|].
    injection H as <-. cbn [words speakerTag startTime endTime].
    destruct (word_loop (map Deepgram.normalise_word (Deepgram.alt_words alternative)) acc0)
      as [Hw _].
    rewrite Hw. simpl. repeat split.
Qed.

Lemma normalised_source (r : TranscriptResult) :
  normalised r ->
  (exists results, Google.handleStreamData results = Some r) \/
  (exists data, Deepgram.handleTranscript data = Some r).
Proof. intros [[x [H _]] | [x [H _]]]; [left|right]; exists x; exact H. Qed.

Lemma words_of_payload (r : TranscriptResult) :
  normalised r -> Forall (fun w => 1 <= w_speakerTag w) (words r).
Proof.
  intros [[results [H Hok]] | [data [H Hok]]].
  - unfold Google.handleStreamData in H. unfold google_words in Hok.
    destruct results as [|result ?]; [discriminate|].
    destruct (Google.alternatives result) as [|alternative ?]; [discriminate|].
    injection H as <-. cbn [words].
    destruct (word_loop (map Google.normalise_word (Google.alt_words alternative)) acc0)
      as [Hw _].
    rewrite Hw. simpl. apply Forall_forall. intros w Hin. apply in_map_iff in Hin.
    destruct Hin as (wi & <- & Hwi).
    pose proof (proj1 (Forall_forall _ _) Hok wi Hwi) as Ht.
    unfold google_tag_ok in Ht. simpl.
    destruct (Google.wi_speakerTag wi) as [t|]; [|lia].
    unfold or_Z. destruct (t =? 0) eqn:E; [lia|]. apply Z.eqb_neq in E. lia.
  - unfold Deepgram.handleTranscript in H. unfold deepgram_words in Hok.
    destruct (Deepgram.channel_alternatives data) as [[|alternative ?]|]; try discriminate.
    destruct (Deepgram.alt_transcript alternative) as [t|]; [|discriminate].
    destruct (String.eqb (trim t) ""); [discriminate|].
    injection H as <-. cbn [words].
    destruct (word_loop (map Deepgram.normalise_word (Deepgram.alt_words alternative)) acc0)
      as [Hw _].
    rewrite Hw. simpl. apply Forall_forall. intros w Hin. apply in_map_iff in Hin.
    destruct Hin as (wi & <- & Hwi).
    pose proof (proj1 (Forall_forall _ _) Hok wi Hwi) as Ht.
    unfold deepgram_speaker_ok in Ht. simpl.
    destruct (Deepgram.wi_speaker wi) as [s|]; lia.
Qed.

(** X18.  The speaker tags of an event are positive.  For a payload whose
    speaker numbers are not negative, every word of the emitted event carries
    a tag of at least 1 and so does the event; an event without words
    carries the tag 1, and an event with words carries the tag of one of its
    words. *)
Theorem event_tags_are_positive (r : TranscriptResult) (Hr : normalised r) :
  1 <= speakerTag r /\
  Forall (fun w => 1 <= w_speakerTag w) (words r) /\
  (words r = [] -> speakerTag r = 1) /\
  (words r <> [] -> In (speakerTag r) (tags_of r)).
Proof.
  pose proof (words_of_payload Hr) as Hw.
  destruct (event_of_words (normalised_source Hr)) as (Htag & _ & _).
  assert (Hin : words r <> [] -> In (speakerTag r) (tags_of r)).
  { intros Hne. rewrite Htag. unfold tags_of.
    pose proof (word_loop_dominant Hne) as [Hd _]. cbv zeta in Hd.
    destruct (word_loop (words r) acc0) as [Hwords _]. rewrite Hwords in Hd. exact Hd. }
  assert (Hnil : words r = [] -> speakerTag r = 1).
  { intros E. rewrite Htag, E. reflexivity. }
  split; [|split; [exact Hw|split; [exact Hnil|exact Hin]]].
  destruct (words r) as [|w ws] eqn:E.
  - rewrite Hnil; [lia|reflexivity].
  - specialize (Hin ltac:(discriminate)). unfold tags_of in Hin. rewrite E in Hin.
    apply in_map_iff in Hin. destruct Hin as (w' & <- & Hw').
    apply (proj1 (Forall_forall _ _) Hw w' Hw').
Qed.

Lemma event_tags_are_positive_example :
  exists r,
    Google.handleStreamData
      (google_results [google_word 0 0 400; google_word 2 400 800]) = Some r /\
    tags_of r = [1; 2] /\ 1 <= speakerTag r.
Proof.
  eexists. split; [reflexivity|]. split; [reflexivity|].
  refine (proj1 (@event_tags_are_positive _ _)).
  left. exists (google_results [google_word 0 0 400; google_word 2 400 800]).
  split; [reflexivity|]. simpl.
  constructor; [unfold google_tag_ok; simpl; lia|].
  constructor; [unfold google_tag_ok; simpl; lia|]. constructor.
Defined.

(** X19.  The times of an event follow its words.  An event without words
    has both times 0; otherwise its end time is the end of its last word,
    and its start time is the start of its first word whenever that start is
    not 0. *)
Theorem event_times_follow_the_words (r : TranscriptResult)
  (Hr : (exists results, Google.handleStreamData results = Some r) \/
        (exists data, Deepgram.handleTranscript data = Some r)) :
  (words r = [] -> startTime r = 0%float /\ endTime r = 0%float) /\
  (forall ws w, words r = ws ++ [w] -> endTime r = w_endTime w) /\
  (forall w ws, words r = w :: ws -> is_zero_number (w_startTime w) = false ->
     startTime r = w_startTime w).
Proof.
  destruct (event_of_words Hr) as (_ & Hs & He).
  destruct (segment_times (words r)) as (H1 & H2 & H3). cbv zeta in H1, H2, H3.
  rewrite Hs, He. split; [exact H1|]. split; [exact H2|exact H3].
Qed.

Lemma event_times_example :
  exists r,
    Deepgram.handleTranscript
      (deepgram_data [deepgram_word 0 0.25 0.5; deepgram_word 1 0.5 1]) = Some r /\
    startTime r = 0.25%float /\ endTime r = 1%float.
Proof.
  eexists. split; [reflexivity|].
  assert (H := @event_times_follow_the_words
                 _ (or_intror (ex_intro _ (deepgram_data [deepgram_word 0 0.25 0.5;
                                                          deepgram_word 1 0.5 1]) eq_refl))).
  destruct H as (_ & Hend & Hstart). split.
  - apply (Hstart (Deepgram.normalise_word (deepgram_word 0 0.25 0.5))
             [Deepgram.normalise_word (deepgram_word 1 0.5 1)]); reflexivity.
  - apply (Hend [Deepgram.normalise_word (deepgram_word 0 0.25 0.5)]
             (Deepgram.normalise_word (deepgram_word 1 0.5 1))); reflexivity.
Defined.

End Events.

(* ================================================================== *)
(** * Further properties: the name extractor *)
(* ================================================================== *)

Section Splitting.
Import JS Regex NameExtractor Names.

Lemma join_spaced w ws : join " " (w :: ws) = (w ++ spaced ws)%string.
Proof.
  revert w. induction ws as [|x ws IH]; intros w.
  - simpl. rewrite append_nil_r. reflexivity.
  - change (join " " (w :: x :: ws)) with (w ++ " " ++ join " " (x :: ws))%string.
    rewrite IH. reflexivity.
Qed.

(** [\s+] at one white-space character followed by another kind of
    character. *)
Lemma match_at_spaces_one q sp c r i :
  is_space sp = true -> is_space c = false ->
  match_at spaces q (String sp (String c r)) i =
  Some {| index := i; matched := String sp ""; groups := []; last := Some sp;
          after := String c r; stop := S i |}.
Proof.
  intros Hsp Hc. unfold match_at, spaces, Plus, space. rewrite run_Seq.
  rewrite run_Char_hit with (c := sp) (r := String c r); [|reflexivity|exact Hsp].
  rewrite run_Star_Char_stop by (simpl; exact Hc).
  cbn [advance pos prev rest caps].
  replace (S i - i)%nat with 1%nat by lia. reflexivity.
Qed.

Lemma match_at_spaces_miss q c r i :
  is_space c = false -> match_at spaces q (String c r) i = None.
Proof.
  intros Hc. unfold match_at, spaces, Plus, space. rewrite run_Seq.
  rewrite run_Char_miss with (c := c) (r := r); [reflexivity|reflexivity|exact Hc].
Qed.

(** Splitting words joined by single spaces gives the words back. *)
Lemma split_loop_words ws : forall w fuel q piece i,
  forallb (fun c => negb (is_space c)) (chars w) = true ->
  Forall (fun x => is_plain_word x = true) ws ->
  (String.length (w ++ spaced ws) < fuel)%nat ->
  split_loop fuel spaces q piece (w ++ spaced ws) i = (piece ++ w)%string :: ws.
Proof.
  induction ws as [|x ws IHws]; intros w.
  - intros fuel q piece i Hw _ _. simpl. rewrite append_nil_r.
    apply split_loop_no_space, Hw.
  - induction w as [|c w IHw]; intros fuel q piece i Hw Hws Hf.
    + inversion Hws as [|? ? Hx Hrest]; subst.
      unfold is_plain_word in Hx. apply andb_true_iff in Hx. destruct Hx as [Hne Hx].
      destruct x as [|c x]; [discriminate|].
      destruct fuel as [|fuel]; [simpl in Hf; lia|].
      change ("" ++ spaced (String c x :: ws))%string
        with (String " " (String c (x ++ spaced ws))).
      cbn [split_loop].
      pose proof Hx as Hx'. change (chars (String c x)) with (c :: chars x) in Hx'.
      cbn [forallb] in Hx'. apply andb_true_iff in Hx'. destruct Hx' as [Hc _].
      apply negb_true_iff in Hc.
      rewrite (@match_at_spaces_one q " " c (x ++ spaced ws) i eq_refl Hc).
      cbn [stop last after].
      assert (Hstop : (S i =? i)%nat = false) by (apply Nat.eqb_neq; lia).
      rewrite Hstop. cbn [andb]. rewrite append_nil_r. f_equal.
      change (String c (x ++ spaced ws)) with (String c x ++ spaced ws)%string.
      rewrite (IHws (String c x) fuel (Some " "%char) "" (S i) Hx Hrest).
      * reflexivity.
      * simpl in Hf. simpl. lia.
    + destruct fuel as [|fuel]; [simpl in Hf; lia|].
      change (chars (String c w)) with (c :: chars w) in Hw. cbn [forallb] in Hw.
      apply andb_true_iff in Hw. destruct Hw as [Hc Hw]. apply negb_true_iff in Hc.
      change (String c w ++ spaced (x :: ws))%string
        with (String c (w ++ spaced (x :: ws))).
      cbn [split_loop]. rewrite (@match_at_spaces_miss q c (w ++ spaced (x :: ws)) i Hc).
      rewrite (IHw fuel (Some c) (piece ++ String c "")%string (S i) Hw Hws).
      * rewrite append_assoc. reflexivity.
      * change (String.length (String c w ++ spaced (x :: ws)))
          with (S (String.length (w ++ spaced (x :: ws)))) in Hf. lia.
Qed.

Lemma split_words w ws :
  Forall (fun x => is_plain_word x = true) (w :: ws) ->
  split spaces (join " " (w :: ws)) = w :: ws.
Proof.
  intros H. inversion H as [|? ? Hw Hws]; subst. rewrite join_spaced.
  unfold is_plain_word in Hw. apply andb_true_iff in Hw. destruct Hw as [Hne Hw].
  destruct w as [|c w]; [discriminate|].
  assert (Hlen : (String.length (String c w ++ spaced ws) <
                  S (2 * String.length (String c w ++ spaced ws)))%nat) by lia.
  exact (@split_loop_words ws (String c w) _ None "" 0%nat Hw Hws Hlen).
Qed.

End Splitting.

Section Nato.
Import JS Regex NameExtractor Names.

Lemma map_string_append f a b :
  map_string f (a ++ b) = (map_string f a ++ map_string f b)%string.
Proof. induction a as [|c a IH]; simpl; [reflexivity|]. rewrite IH. reflexivity. Qed.

Lemma toLowerCase_join ws :
  toLowerCase (join " " ws) = join " " (map toLowerCase ws).
Proof.
  unfold toLowerCase. induction ws as [|w ws IH]; [reflexivity|].
  destruct ws as [|x ws]; [reflexivity|].
  change (join " " (w :: x :: ws)) with (w ++ " " ++ join " " (x :: ws))%string.
  rewrite !map_string_append, IH. reflexivity.
Qed.

Lemma concat_empty_cons x l : String.concat "" (x :: l) = (x ++ String.concat "" l)%string.
Proof. destruct l; simpl; [rewrite append_nil_r|]; reflexivity. Qed.

Lemma code_word_facts w :
  In w code_words ->
  is_plain_word w = true /\ replace_g notLower w "" = w /\
  lookup PHONETIC_ALPHABET w = Some (initial w).
Proof.
  assert (H : forallb
                (fun w => (is_plain_word w && String.eqb (replace_g notLower w "") w &&
                           match lookup PHONETIC_ALPHABET w with
                           | Some l => String.eqb l (initial w)
                           | None => false
                           end)%bool) code_words = true) by (vm_compute; reflexivity).
  intros Hin. rewrite forallb_forall in H. specialize (H w Hin).
  apply andb_true_iff in H. destruct H as [H H3].
  apply andb_true_iff in H. destruct H as [H1 H2].
  apply String.eqb_eq in H2.
  destruct (lookup PHONETIC_ALPHABET w) as [l|]; [|discriminate].
  apply String.eqb_eq in H3. subst l. repeat split; assumption.
Qed.

(** The loop of [extractNatoPhoneticName] over code words only. *)
Lemma nato_loop ws : forall result n,
  Forall (fun w => In w code_words) ws ->
  fold_left nato_step ws (result, n, n, result) =
  ((result ++ String.concat "" (map initial ws))%string,
   (n + List.length ws)%nat, (n + List.length ws)%nat,
   (result ++ String.concat "" (map initial ws))%string).
Proof.
  induction ws as [|w ws IH]; intros result n H.
  - simpl. rewrite append_nil_r, Nat.add_0_r. reflexivity.
  - inversion H as [|? ? Hw Hws]; subst.
    destruct (code_word_facts Hw) as (_ & Hclean & Hlook).
    cbn [fold_left]. unfold nato_step at 2. rewrite Hclean, Hlook.
    assert (Hlt : (n <? S n)%nat = true) by (apply Nat.ltb_lt; lia).
    rewrite Hlt. rewrite (IH (result ++ initial w)%string (S n) Hws). cbn [map List.length].
    rewrite concat_empty_cons, append_assoc.
    replace (S n + List.length ws)%nat with (n + S (List.length ws))%nat by lia.
    reflexivity.
Qed.

Lemma code_words_check ws :
  forallb (fun w => existsb (String.eqb (toLowerCase w)) code_words) ws = true ->
  Forall (fun w => In (toLowerCase w) code_words) ws.
Proof.
  intros H. apply Forall_forall. intros w Hw. rewrite forallb_forall in H.
  specialize (H w Hw). apply existsb_exists in H. destruct H as (w' & Hin & E).
  apply String.eqb_eq in E. rewrite E. exact Hin.
Qed.

(** X20.  Code words spell their initials.  On two or more code words of
    the phonetic table (written with letters only, in any capitalisation)
    joined by single spaces, [extractNatoPhoneticName] returns the initials
    of the words, in upper case and in order. *)
Theorem code_words_spell_their_initials (ws : list string)
  (Htwo : (2 <= List.length ws)%nat)
  (Hcode : Forall (fun w => In (toLowerCase w) code_words) ws) :
  extractNatoPhoneticName (join " " ws) =
  Some (String.concat "" (map (fun w => initial (toLowerCase w)) ws)).
Proof.
  unfold extractNatoPhoneticName. rewrite toLowerCase_join.
  assert (Hlow : Forall (fun w => In w code_words) (map toLowerCase ws)).
  { apply Forall_forall. intros w Hw. apply in_map_iff in Hw.
    destruct Hw as (w0 & <- & Hw0). apply (proj1 (Forall_forall _ _) Hcode w0 Hw0). }
  assert (Hwords : Forall (fun w => is_plain_word w = true) (map toLowerCase ws)).
  { apply Forall_forall. intros w Hw.
    apply (@code_word_facts w), (proj1 (Forall_forall _ _) Hlow w Hw). }
  destruct (map toLowerCase ws) as [|w l] eqn:E.
  - destruct ws; [simpl in Htwo; lia|discriminate].
  - rewrite (split_words Hwords). rewrite <- E in *.
    rewrite (@nato_loop _ "" 0%nat Hlow). rewrite length_map, map_map.
    cbn [Nat.add append].
    destruct (2 <=? List.length ws)%nat eqn:E2; [reflexivity|].
    apply Nat.leb_gt in E2. lia.
Qed.

Lemma code_words_example :
  extractNatoPhoneticName "Juliet Oscar Hotel November" = Some "JOHN".
Proof.
  apply (@code_words_spell_their_initials ["Juliet"; "Oscar"; "Hotel"; "November"]).
  - simpl. lia.
  - apply code_words_check. vm_compute. reflexivity.
Defined.

End Nato.

(* ================================================================== *)
(** * Further properties: names and the gateway *)
(* ================================================================== *)

Section ValidNames.
Import JS Regex NameExtractor Spelling Names.

Lemma upper_letter c : is_letter c = true -> is_letter (upper_char c) = true.
Proof.
  destruct c as [[] [] [] [] [] [] [] []]; intros H; try discriminate H; reflexivity.
Qed.

Lemma letter_is_name_char c : is_letter c = true -> is_name_char c = true.
Proof. intros H. unfold is_name_char. rewrite H. reflexivity. Qed.

Lemma chars_capitalised x xs :
  chars (capitalised (x :: xs)) = upper_char x :: map lower_char xs.
Proof. unfold capitalised. cbn [chars list_ascii_of_string]. f_equal. apply chars_string_of_list. Qed.

(** A capitalised word of letters is a valid name when it has at most 50
    letters. *)
Lemma isValidName_capitalised l :
  l <> [] -> Forall (fun c => is_letter c = true) l ->
  String.length (capitalised l) = List.length l /\
  isValidName (capitalised l) = (List.length l <=? 50)%nat.
Proof.
  intros Hl H. destruct l as [|x xs]; [congruence|].
  inversion H as [|? ? Hx Hxs]; subst.
  assert (Hlen : String.length (capitalised (x :: xs)) = List.length (x :: xs)).
  { rewrite <- length_chars, chars_capitalised. cbn [List.length]. rewrite length_map.
    reflexivity. }
  split; [exact Hlen|].
  rewrite isValidName_eq, Hlen, chars_capitalised.
  cbn [List.length existsb forallb]. rewrite (upper_letter _ Hx).
  rewrite (letter_is_name_char _ (upper_letter _ Hx)).
  change (1 <=? S (List.length xs))%nat with true. cbn [andb orb].
  assert (Hall : forallb is_name_char (map lower_char xs) = true).
  { apply forallb_forall. intros c Hc. apply in_map_iff in Hc.
    destruct Hc as (c0 & <- & Hc0). apply letter_is_name_char.
    apply (letter_facts c0), (proj1 (Forall_forall _ _) Hxs c0 Hc0). }
  rewrite Hall, !andb_true_r. reflexivity.
Qed.

Lemma trimStart_blank s : blank s = true -> trimStart s = "".
Proof.
  unfold blank. induction s as [|c s IH]; [reflexivity|].
  cbn [chars list_ascii_of_string forallb trimStart]. intros H.
  apply andb_true_iff in H. destruct H as [Hc Hs]. rewrite Hc. apply IH, Hs.
Qed.

Lemma trim_blank s : blank s = true -> trim s = "".
Proof. intros H. unfold trim. rewrite (trimStart_blank _ H). reflexivity. Qed.

Lemma trim_not_blank s : blank s = false -> trim s <> "".
Proof.
  unfold blank, trim. induction s as [|c s IH]; [discriminate|].
  cbn [chars list_ascii_of_string forallb trimStart]. intros H.
  destruct (is_space c) eqn:Hc.
  - apply IH. exact H.
  - cbn [trimEnd]. destruct (trimEnd s); [rewrite Hc|]; discriminate.
Qed.

Lemma trim_eqb_blank s : String.eqb (trim s) "" = blank s.
Proof.
  destruct (blank s) eqn:E.
  - rewrite (trim_blank _ E). reflexivity.
  - apply String.eqb_neq, trim_not_blank, E.
Qed.

Lemma extractName_blank s :
  blank s = true ->
  name (extractName s) = "" /\ confidence (extractName s) = low /\
  method (extractName s) = phonetic.
Proof.
  intros H. unfold extractName. rewrite (trim_blank _ H). vm_compute. repeat split.
Qed.

(** The confidence goes with the method, whatever the input. *)
Lemma extractName_method s :
  method (extractName s) <> combined /\
  (confidence (extractName s) = high <->
   method (extractName s) = spelled \/ method (extractName s) = nato).
Proof.
  unfold extractName.
  destruct (has_two (extractSpelledName (toLowerCase (trim s)))).
  { cbn. split; [discriminate|]. split; auto. }
  destruct (has_two (extractNatoPhoneticName (toLowerCase (trim s)))).
  { cbn. split; [discriminate|]. split; auto. }
  destruct (truthy (extractPhoneticName (toLowerCase (trim s)))); cbn;
    (split; [discriminate|]); split; try discriminate; intros [H|H]; discriminate H.
Qed.

(** X21.  A name detected from spelled letters is valid for enrollment
    unless it is too long.  On an input that contains a run of three or more
    single-letter tokens, the name [extractName] returns has three letters
    or more, and [isValidName] accepts it exactly when it has at most 50
    characters; when the letters returned are those of the given run, this
    is when the run has at most 50 letters. *)
Theorem spelled_name_is_valid_unless_long (pre post : string) (x : ascii)
  (tail : list (string * ascii))
  (Hrun : is_run x tail = true)
  (Hdelimited : delimited pre post = true) :
  let r := extractName (pre ++ tokens x tail ++ post) in
  (3 <= String.length (name r))%nat /\
  isValidName (name r) = (String.length (name r) <=? 50)%nat /\
  (token_free None pre = true -> letter_free post = true ->
   isValidName (name r) = (List.length tail <? 50)%nat).
Proof.
  intros r. subst r.
  destruct (@leftmost_run_found pre post x tail Hrun Hdelimited)
    as (m & pre' & y & ytail & post' & Hsearch & HN & Hmatched & Hrun' & Hdel' & Hlen & Hfixed).
  destruct (@extractName_of_leftmost_run (pre ++ tokens x tail ++ post) m y ytail
              Hsearch Hmatched Hrun' Hfixed) as (Hname & _ & _).
  destruct (@letters_of_run _ _ Hrun') as (_ & Hletters & x2 & x3 & xs & Hl).
  destruct (@isValidName_capitalised (letters y ytail)) as (Hlength & Hvalid);
    [rewrite Hl; discriminate|exact Hletters|].
  rewrite Hname, Hlength. split; [rewrite Hl; simpl; lia|]. split; [exact Hvalid|].
  intros Hfree Hpost. rewrite Hvalid.
  destruct (@given_run_found pre post x tail Hrun Hdelimited Hfree Hpost)
    as (m0 & Hsearch0 & Hmatched0).
  rewrite Hsearch in Hsearch0. injection Hsearch0 as <-.
  rewrite (@same_tokens_same_letters y (lower_char x) ytail (lower_tail tail) Hrun'
             (@lower_run x tail Hrun)) by (rewrite <- Hmatched; exact Hmatched0).
  unfold letters. cbn [List.length]. unfold lower_tail. rewrite !length_map. reflexivity.
Qed.

Lemma spelled_name_is_valid_example :
  isValidName (name (extractName "My name is Ann, A N N.")) = true.
Proof.
  destruct (@spelled_name_is_valid_unless_long "My name is Ann, " "." "A"
              [(" ", "N"%char); (" ", "N"%char)] eq_refl eq_refl) as (_ & _ & H).
  exact (H eq_refl eq_refl).
Defined.

End ValidNames.

Section GatewayLemmas.
Import JS Normalizer Gateway.

Lemma emit_and_save_facts session result speakerName emitted calls :
  let h := emit_and_save session result speakerName emitted calls in
  h_session h = session /\ h_rejected h = false /\
  h_emitted h = emitted ++ transcript_events session result speakerName /\
  h_calls h =
    calls ++
    (if (is_transcription (mode session) && isFinal result
         && negb (String.eqb (trim (transcript result)) ""))%bool
     then [saveSegment (meetingId session)
             {| dto_speakerTag := speakerTag result; dto_speakerName := speakerName;
                dto_transcript := transcript result; dto_confidence := confidence result;
                dto_startTime := startTime result; dto_endTime := endTime result;
                dto_isFinal := true |}]
     else []).
Proof.
  unfold emit_and_save.
  destruct (is_transcription (mode session) && isFinal result
            && negb (String.eqb (trim (transcript result)) ""))%bool;
    cbn; repeat split; rewrite ?app_nil_r; reflexivity.
Qed.

Lemma valid_name_is_truthy n :
  NameExtractor.isValidName n = true -> NameExtractor.truthy (Some n) = Some n.
Proof. destruct n; [discriminate|reflexivity]. Qed.

(** A result of a speaker the cache names: nothing is enrolled. *)
Lemma handle_named saved session result n :
  NameExtractor.truthy (Map_get Z.eqb (speakerMappings session) (speakerTag result)) = Some n ->
  handleTranscriptResult saved session result = emit_and_save session result (Some n) [] [].
Proof.
  intros H. unfold handleTranscriptResult. rewrite H. cbn [is_null].
  rewrite andb_false_r. reflexivity.
Qed.

(** The three ways the handler goes. *)
Lemma handle_cases saved session result :
  let speakerName :=
    NameExtractor.truthy (Map_get Z.eqb (speakerMappings session) (speakerTag result)) in
  let e := NameExtractor.extractName (transcript result) in
  handleTranscriptResult saved session result =
    emit_and_save session result speakerName [] [] \/
  (mode session = enrollment /\ isFinal result = true /\
   NameExtractor.isValidName (NameExtractor.name e) = true) /\
  (saved = true /\
   handleTranscriptResult saved session result =
     emit_and_save (set_mapping session (speakerTag result) (NameExtractor.name e))
       result (Some (NameExtractor.name e))
       [speakerEnrolled (speakerTag result) (NameExtractor.name e)
          (NameExtractor.confidence e) (NameExtractor.method e)]
       [saveSpeakerMapping (meetingId session) (speakerTag result) (NameExtractor.name e)]
   \/
   saved = false /\
   handleTranscriptResult saved session result =
     {| h_session := session; h_emitted := [];
        h_calls := [saveSpeakerMapping (meetingId session) (speakerTag result)
                      (NameExtractor.name e)];
        h_rejected := true |}).
Proof.
  intros speakerName e. unfold handleTranscriptResult. fold speakerName. fold e.
  destruct (is_enrollment (mode session) && isFinal result && is_null speakerName)%bool
    eqn:Hcond; [|left; reflexivity].
  destruct (NameExtractor.isValidName (NameExtractor.name e)) eqn:Hvalid;
    [|left; reflexivity].
  apply andb_true_iff in Hcond. destruct Hcond as [Hcond _].
  apply andb_true_iff in Hcond. destruct Hcond as [Hmode Hfinal].
  right. split.
  - split; [destruct (mode session); [reflexivity|discriminate Hmode]|].
    split; [exact Hfinal|reflexivity].
  - destruct saved; [left|right]; split; reflexivity.
Qed.

End GatewayLemmas.

Section GatewayProperties.
Import JS Normalizer Gateway.

(** Splits a conjunction of small facts about a computed outcome and closes
    each of them. *)
Ltac settle :=
  repeat match goal with
         | |- _ /\ _ => split
         | |- _ <-> _ => split
         | |- _ -> _ => intro
         | |- Forall _ _ => constructor
         | H : _ /\ _ |- _ => destruct H
         end;
  try reflexivity; try discriminate; try congruence; try (cbn; lia); auto.

(** X22.  A blank transcript leaves no trace.  When the transcript of the
    result is empty or white space only, the extractor returns the empty
    name with the confidence [low], which is no valid name, so
    [handleTranscriptResult] enrols nobody and saves no segment in either
    mode: it makes no call, leaves the session as it is, and only emits the
    two transcript events with the name the cache gives the speaker. *)
Theorem blank_transcript_leaves_no_trace (saved : bool) (session : ClientSession)
  (result : TranscriptResult)
  (Hblank : Names.blank (transcript result) = true) :
  let r := NameExtractor.extractName (transcript result) in
  let h := handleTranscriptResult saved session result in
  NameExtractor.name r = "" /\ NameExtractor.confidence r = NameExtractor.low /\
  NameExtractor.isValidName (NameExtractor.name r) = false /\
  h_calls h = [] /\ h_session h = session /\ h_rejected h = false /\
  h_emitted h =
    transcript_events session result
      (NameExtractor.truthy
         (Map_get Z.eqb (speakerMappings session) (speakerTag result))).
Proof.
  intros r h. subst r h.
  destruct (extractName_blank _ Hblank) as (Hname & Hconf & _).
  split; [exact Hname|]. split; [exact Hconf|]. rewrite Hname.
  split; [reflexivity|].
  assert (E : handleTranscriptResult saved session result =
              emit_and_save session result
                (NameExtractor.truthy
                   (Map_get Z.eqb (speakerMappings session) (speakerTag result))) [] []).
  { unfold handleTranscriptResult. rewrite Hname.
    change (NameExtractor.isValidName "") with false.
    destruct (is_enrollment (mode session) && isFinal result && _)%bool; reflexivity. }
  rewrite E.
  destruct (emit_and_save_facts session result
              (NameExtractor.truthy
                 (Map_get Z.eqb (speakerMappings session) (speakerTag result))) [] [])
    as (Hs & Hr & He & Hc).
  rewrite Hs, Hr, He, Hc, (trim_blank _ Hblank). cbn [String.eqb negb].
  rewrite andb_false_r. repeat split.
Qed.

Lemma blank_transcript_example :
  let session :=
    {| socketId := "s"; meetingId := "m"; speechSessionId := "x"; isStreaming := true;
       mode := transcription; speakerMappings := [(2, "Ann")]; provider := google |} in
  let result :=
    {| transcript := "  "; confidence := 0%float; isFinal := true; speakerTag := 2;
       startTime := 0%float; endTime := 0%float; words := [] |} in
  h_calls (handleTranscriptResult true session result) = [] /\
  h_emitted (handleTranscriptResult true session result) =
    transcript_events session result (Some "Ann").
Proof.
  cbv zeta.
  destruct (@blank_transcript_leaves_no_trace true
              {| socketId := "s"; meetingId := "m"; speechSessionId := "x";
                 isStreaming := true; mode := transcription;
                 speakerMappings := [(2, "Ann")]; provider := google |}
              {| transcript := "  "; confidence := 0%float; isFinal := true;
                 speakerTag := 2; startTime := 0%float; endTime := 0%float;
                 words := [] |} eq_refl)
    as (_ & _ & _ & Hc & _ & _ & He).
  split; [exact Hc|exact He].
Defined.

(** X23.  A speaker is enrolled by detection once.  Whenever
    [handleTranscriptResult] emits ['speakerEnrolled'], the event is for the
    speaker of the result and carries a valid name, with the confidence
    [high] exactly when the method is [spelled] or [nato]; the cache of the
    session then gives the speaker that name, and every result of that
    speaker handled with the session afterwards is emitted with the name,
    asks for no other mapping, and leaves the session as it is. *)
Theorem speaker_is_enrolled_once (saved : bool) (session : ClientSession)
  (result : TranscriptResult) :
  let h := handleTranscriptResult saved session result in
  forall tag n c m,
    In (speakerEnrolled tag n c m) (h_emitted h) ->
    tag = speakerTag result /\
    NameExtractor.isValidName n = true /\
    (c = NameExtractor.high <-> m = NameExtractor.spelled \/ m = NameExtractor.nato) /\
    h_calls h = [saveSpeakerMapping (meetingId session) tag n] /\
    Map_get Z.eqb (speakerMappings (h_session h)) tag = Some n /\
    forall saved' result',
      speakerTag result' = tag ->
      let h' := handleTranscriptResult saved' (h_session h) result' in
      h_session h' = h_session h /\
      existsb is_saveSpeakerMapping (h_calls h') = false /\
      h_emitted h' = transcript_events (h_session h) result' (Some n).
Proof.
  intros h tag n c m Hin. subst h.
  set (e := NameExtractor.extractName (transcript result)).
  pose proof (handle_cases saved session result) as Hcases. cbv zeta in Hcases.
  fold e in Hcases.
  destruct Hcases as [E|[(Hmode & Hfinal & Hvalid) [(_ & E)|(_ & E)]]]; rewrite E in *.
  - rewrite (proj1 (proj2 (proj2 (emit_and_save_facts session result _ [] [])))) in Hin.
    cbn in Hin. destruct Hin as [Hin|[Hin|[]]]; discriminate Hin.
  - destruct (emit_and_save_facts
                (set_mapping session (speakerTag result) (NameExtractor.name e)) result
                (Some (NameExtractor.name e))
                [speakerEnrolled (speakerTag result) (NameExtractor.name e)
                   (NameExtractor.confidence e) (NameExtractor.method e)]
                [saveSpeakerMapping (meetingId session) (speakerTag result)
                   (NameExtractor.name e)]) as (Hs & Hr & He & Hc).
    rewrite He in Hin. cbn in Hin.
    destruct Hin as [Hin|[Hin|[Hin|[]]]]; try discriminate Hin.
    injection Hin as <- <- <- <-.
    split; [reflexivity|]. split; [exact Hvalid|].
    split; [apply (extractName_method (transcript result))|].
    rewrite Hs, Hc.
    assert (Hget : Map_get Z.eqb
                     (speakerMappings
                        (set_mapping session (speakerTag result) (NameExtractor.name e)))
                     (speakerTag result) = Some (NameExtractor.name e)).
    { cbn [set_mapping speakerMappings].
      rewrite (Map_get_set Z.eqb Z.eqb_eq), Z.eqb_refl. reflexivity. }
    split.
    { cbn [set_mapping mode]. rewrite Hmode. cbn [is_transcription andb]. reflexivity. }
    split; [exact Hget|].
    intros saved' result' Htag.
    assert (Hnamed : NameExtractor.truthy
                       (Map_get Z.eqb
                          (speakerMappings
                             (set_mapping session (speakerTag result) (NameExtractor.name e)))
                          (speakerTag result')) = Some (NameExtractor.name e)).
    { rewrite Htag, Hget. apply valid_name_is_truthy, Hvalid. }
    cbv zeta. rewrite (handle_named saved' _ _ Hnamed).
    destruct (emit_and_save_facts
                (set_mapping session (speakerTag result) (NameExtractor.name e)) result'
                (Some (NameExtractor.name e)) [] []) as (Hs' & _ & He' & Hc').
    rewrite Hs', He', Hc'. split; [reflexivity|]. split; [|reflexivity].
    cbn [app set_mapping mode]. rewrite Hmode. reflexivity.
  - destruct Hin.
Qed.

Lemma speaker_is_enrolled_once_example :
  let session :=
    {| socketId := "s"; meetingId := "m"; speechSessionId := "x"; isStreaming := true;
       mode := enrollment; speakerMappings := [(1, "Bob")]; provider := deepgram |} in
  let result :=
    {| transcript := "Ann, A-N-N"; confidence := 0.9%float; isFinal := true;
       speakerTag := 2; startTime := 0%float; endTime := 1%float; words := [] |} in
  In (speakerEnrolled 2 "Ann" NameExtractor.high NameExtractor.spelled)
     (h_emitted (handleTranscriptResult true session result)) /\
  Map_get Z.eqb (speakerMappings (h_session (handleTranscriptResult true session result))) 2 =
    Some "Ann".
Proof.
  cbv zeta.
  assert (Hin : In (speakerEnrolled 2 "Ann" NameExtractor.high NameExtractor.spelled)
                   (h_emitted
                      (handleTranscriptResult true
                         {| socketId := "s"; meetingId := "m"; speechSessionId := "x";
                            isStreaming := true; mode := enrollment;
                            speakerMappings := [(1, "Bob")]; provider := deepgram |}
                         {| transcript := "Ann, A-N-N"; confidence := 0.9%float;
                            isFinal := true; speakerTag := 2; startTime := 0%float;
                            endTime := 1%float; words := [] |})))
    by (vm_compute; left; reflexivity).
  split; [exact Hin|].
  destruct (@speaker_is_enrolled_once true _ _ 2 "Ann" NameExtractor.high
              NameExtractor.spelled Hin) as (_ & _ & _ & _ & Hget & _).
  exact Hget.
Defined.

(** X24.  What the handler asks of the services.  It makes one call at
    most, for the meeting of the session; in enrollment mode it saves no
    segment; in transcription mode it saves no mapping, keeps the session,
    and saves a segment exactly for the final results whose transcript is
    not blank; for an interim result it makes no call at all; and when the
    mapping cannot be saved the promise is rejected with nothing emitted
    and the cache unchanged. *)
Theorem handler_calls (saved : bool) (session : ClientSession)
  (result : TranscriptResult) :
  let h := handleTranscriptResult saved session result in
  (List.length (h_calls h) <= 1)%nat /\
  Forall (fun c => match c with
                   | saveSpeakerMapping m tag _ | saveSegment m {| dto_speakerTag := tag |} =>
                       m = meetingId session /\ tag = speakerTag result
                   end) (h_calls h) /\
  (mode session = enrollment -> existsb is_saveSegment (h_calls h) = false) /\
  (mode session = transcription ->
   existsb is_saveSpeakerMapping (h_calls h) = false /\ h_session h = session /\
   h_rejected h = false /\
   (h_calls h <> [] <-> isFinal result = true /\ Names.blank (transcript result) = false)) /\
  (isFinal result = false -> h_calls h = [] /\ h_session h = session) /\
  (h_rejected h = true -> h_emitted h = [] /\ h_session h = session /\ saved = false).
Proof.
  intros h. subst h.
  set (e := NameExtractor.extractName (transcript result)).
  pose proof (handle_cases saved session result) as Hcases. cbv zeta in Hcases.
  fold e in Hcases.
  destruct Hcases as [E|[(Hmode & Hfinal & Hvalid) [(Hsaved & E)|(Hsaved & E)]]]; rewrite E.
  - destruct (emit_and_save_facts session result
                (NameExtractor.truthy
                   (Map_get Z.eqb (speakerMappings session) (speakerTag result))) [] [])
      as (Hs & Hr & He & Hc).
    rewrite Hs, Hr, Hc, trim_eqb_blank.
    destruct (mode session), (isFinal result), (Names.blank (transcript result));
      cbn; settle.
  - destruct (emit_and_save_facts
                (set_mapping session (speakerTag result) (NameExtractor.name e)) result
                (Some (NameExtractor.name e))
                [speakerEnrolled (speakerTag result) (NameExtractor.name e)
                   (NameExtractor.confidence e) (NameExtractor.method e)]
                [saveSpeakerMapping (meetingId session) (speakerTag result)
                   (NameExtractor.name e)]) as (Hs & Hr & He & Hc).
    rewrite Hs, Hr, Hc. cbn [set_mapping mode]. rewrite Hmode, Hfinal. cbn. settle.
  - rewrite Hmode, Hfinal. cbn. settle.
Qed.

End GatewayProperties.

Section GatewayEnrolment.
Import JS Normalizer Gateway Spelling.

(** X25.  A spelled name enrols the speaker.  In enrollment mode, a final
    result of a speaker the cache does not name, whose transcript contains a
    run of three to fifty single-letter tokens (with no such token followed
    by a separator before it and no letter after it), makes the handler
    save the mapping of the speaker to the letters of the run, first letter
    in upper case; when the mapping is saved, the cache gives the speaker
    that name and the client receives ['speakerEnrolled'] with the
    confidence [high] and the method [spelled], then the transcript with
    the name. *)
Theorem spelled_transcript_enrols_the_speaker (session : ClientSession)
  (result : TranscriptResult) (pre post : string) (x : ascii)
  (tail : list (string * ascii))
  (Hmode : mode session = enrollment)
  (Hfinal : isFinal result = true)
  (Hunnamed : NameExtractor.truthy
                (Map_get Z.eqb (speakerMappings session) (speakerTag result)) = None)
  (Hinput : transcript result = (pre ++ tokens x tail ++ post)%string)
  (Hrun : is_run x tail = true)
  (Hdelimited : delimited pre post = true)
  (Hfree : token_free None pre = true)
  (Hpost : letter_free post = true)
  (Hlength : (List.length tail < 50)%nat) :
  let n := capitalised (letters x tail) in
  let h := handleTranscriptResult true session result in
  h_calls h = [saveSpeakerMapping (meetingId session) (speakerTag result) n] /\
  h_calls (handleTranscriptResult false session result) = h_calls h /\
  h_session h = set_mapping session (speakerTag result) n /\
  Map_get Z.eqb (speakerMappings (h_session h)) (speakerTag result) = Some n /\
  h_emitted h =
    speakerEnrolled (speakerTag result) n NameExtractor.high NameExtractor.spelled ::
    transcript_events session result (Some n).
Proof.
  intros n h. subst n h.
  destruct (@extractName_on_given_run (transcript result) pre post x tail
              Hinput Hrun Hdelimited Hfree Hpost) as (Hname & Hconf & Hmeth).
  assert (Hvalid : NameExtractor.isValidName (capitalised (letters x tail)) = true).
  { destruct (@letters_of_run _ _ Hrun) as (_ & Hletters & x2 & x3 & xs & Hl).
    destruct (@isValidName_capitalised (letters x tail)) as (_ & Hv);
      [rewrite Hl; discriminate|exact Hletters|].
    rewrite Hv. unfold letters. cbn [List.length]. rewrite length_map.
    apply Nat.leb_le. lia. }
  unfold handleTranscriptResult. rewrite Hunnamed, Hmode, Hfinal, Hname, Hconf, Hmeth, Hvalid.
  cbn [is_enrollment is_null andb].
  destruct (emit_and_save_facts
              (set_mapping session (speakerTag result) (capitalised (letters x tail)))
              result (Some (capitalised (letters x tail)))
              [speakerEnrolled (speakerTag result) (capitalised (letters x tail))
                 NameExtractor.high NameExtractor.spelled]
              [saveSpeakerMapping (meetingId session) (speakerTag result)
                 (capitalised (letters x tail))]) as (Hs & Hr & He & Hc).
  rewrite Hs, He, Hc. cbn [set_mapping mode speakerMappings meetingId]. rewrite Hmode.
  cbn [is_transcription andb app h_calls].
  split; [reflexivity|]. split; [reflexivity|]. split; [reflexivity|].
  split; [|reflexivity].
  rewrite (Map_get_set Z.eqb Z.eqb_eq), Z.eqb_refl. reflexivity.
Qed.

Lemma spelled_transcript_example :
  let session :=
    {| socketId := "s"; meetingId := "m"; speechSessionId := "x"; isStreaming := true;
       mode := enrollment; speakerMappings := []; provider := google |} in
  let result :=
    {| transcript := "Ann, A-N-N"; confidence := 0.9%float; isFinal := true;
       speakerTag := 2; startTime := 0%float; endTime := 1%float; words := [] |} in
  h_calls (handleTranscriptResult true session result) = [saveSpeakerMapping "m" 2 "Ann"].
Proof.
  cbv zeta.
  apply (@spelled_transcript_enrols_the_speaker
           {| socketId := "s"; meetingId := "m"; speechSessionId := "x";
              isStreaming := true; mode := enrollment; speakerMappings := [];
              provider := google |}
           {| transcript := "Ann, A-N-N"; confidence := 0.9%float; isFinal := true;
              speakerTag := 2; startTime := 0%float; endTime := 1%float; words := [] |}
           "Ann, " "" "A" [("-", "N"%char); ("-", "N"%char)]
           eq_refl eq_refl eq_refl eq_refl eq_refl eq_refl eq_refl eq_refl).
  simpl. lia.
Defined.

End GatewayEnrolment.
